(** * Clara pipeline operator sizing tool: a shallow embedding

    The Python sources under [src/src] are embedded function by function:
    - [topology_sort.py]: [PipelineDAG] and [topo_sort_pipeline];
    - [clarac_utils.py]: the manifest records and [update_variables];
    - [container.py]: [RawMetrics], [Metrics], [Container];
    - [utils.py], [pipeline_utils.py]: the summary arithmetic, the
      identifier acquisition loop of [start_operator], the sampling loop
      and the CSV writer, [run_operator] and the loop over the operators,
      the pipeline services;
    - [triton_utils.py]: [decide_method_to_run_triton], the reading of model
      names and addresses, [start_triton] and [run_triton_model_repo].

    Python [float] is IEEE 754 binary64 and is embedded as Rocq's primitive
    [float]; Python [int] is [Z]; a [dict] whose iteration order matters is an
    insertion-ordered association list, one that is only looked up is a
    [gmap]; a call that may raise returns a [result]; code that runs
    subprocesses passes the outside world along as an explicit state.

    The file has four parts: the embedding of the code, the vocabulary in
    which the properties are stated, the proofs of the claims, and further
    properties of the code. *)

From Stdlib Require Import ZArith Floats.
From stdpp Require Import base option list relations sets gmap strings pretty.

Set Warnings "-inexact-float".
Local Open Scope Z_scope.

(** * Part I: the embedding *)

(** ** Results of calls that may raise *)

Inductive exn :=
  | RuntimeError (msg : string)
  | KeyError (key : string)
  | SystemExit (msg : string)
  | ZeroDivisionError
  | ValueError
  | OverflowError
  | UnicodeDecodeError
  | IndexError
  | OSError (errno : Z)
  | FileNotFoundError.

Inductive result (A : Type) :=
  | Ok (a : A)
  | Raise (e : exn).

Arguments Ok {A} a.
Arguments Raise {A} e.

#[global] Instance result_ret : MRet result := λ A a, Ok a.

#[global] Instance result_bind : MBind result := λ A B f r,
  match r with
  | Ok a => f a
  | Raise e => Raise e
  end.

#[global] Instance result_fmap : FMap result := λ A B f r,
  match r with
  | Ok a => Ok (f a)
  | Raise e => Raise e
  end.

(** ** Insertion-ordered dictionaries and [collections.defaultdict] *)

Section ordered_dict.
Context {K V : Type} `{EqDecision K}.

Fixpoint od_get (d : list (K * V)) (k : K) : option V :=
  match d with
  | [] => None
  | (k', v) :: d' => if decide (k' = k) then Some v else od_get d' k
  end.

(** [d[k] = v] on a key that is present keeps the key's position. *)
Fixpoint od_replace (d : list (K * V)) (k : K) (v : V) : list (K * V) :=
  match d with
  | [] => []
  | (k', v') :: d' =>
      if decide (k' = k) then (k', v) :: d' else (k', v') :: od_replace d' k v
  end.

(** [d[k] = v]: a new key goes to the end. *)
Definition od_setitem (d : list (K * V)) (k : K) (v : V) : list (K * V) :=
  match od_get d k with
  | Some _ => od_replace d k v
  | None => d ++ [(k, v)]
  end.

(** [defaultdict.__getitem__]: reading a missing key stores the default
    under it and returns it. *)
Definition dd_getitem (dflt : V) (d : list (K * V)) (k : K) : V * list (K * V) :=
  match od_get d k with
  | Some v => (v, d)
  | None => (dflt, d ++ [(k, dflt)])
  end.

(** [d[k] = f(d[k])] on a defaultdict: the shape of [d[k] += n] and of
    [d[k].append(x)]. *)
Definition dd_update (dflt : V) (f : V → V) (d : list (K * V)) (k : K) : list (K * V) :=
  let '(v, d1) := dd_getitem dflt d k in od_setitem d1 k (f v).

Definition od_keys (d : list (K * V)) : list K := d.*1.

End ordered_dict.

(** ** [topology_sort.py]: class [PipelineDAG] *)

Section PipelineDAG.
Context {Node : Type} `{EqDecision Node}.

Record PipelineDAG := mkDAG {
  input_deg_graph : list (Node * Z);       (* defaultdict(lambda: 0) *)
  output_graph : list (Node * list Node)      (* defaultdict(list) *)
}.

Definition PipelineDAG_init : PipelineDAG := mkDAG [] [].

Definition add_input_edge (g : PipelineDAG) (node input_node : Node) : PipelineDAG :=
  let og := dd_update [] (λ l, l ++ [node]) (output_graph g) input_node in
  let ig := dd_update 0 (λ n, n + 0) (input_deg_graph g) input_node in
  let ig := dd_update 0 (λ n, n + 1) ig node in
  mkDAG ig og.

(** Body of the [for i in self.output_graph[cur_node]] loop. *)
Definition decrease_indegree (s : list (Node * Z) * list Node) (i : Node) : list (Node * Z) * list Node :=
  let ig := dd_update 0 (λ n, n - 1) s.1 i in
  let '(v, ig) := dd_getitem 0 ig i in
  (ig, if decide (v = 0) then s.2 ++ [i] else s.2).

Record sort_state := mkState {
  st_dag : PipelineDAG;
  zero_indegree : list Node;
  topo_order : list Node;
  visited_count : Z
}.

(** One iteration of [while zero_indegree]. *)
Definition sort_step (cur : Node) (rest : list Node) (st : sort_state) : sort_state :=
  let '(outs, og) := dd_getitem [] (output_graph (st_dag st)) cur in
  let '(ig, queue) := foldl decrease_indegree (input_deg_graph (st_dag st), rest) outs in
  mkState (mkDAG ig og) queue (topo_order st ++ [cur]) (visited_count st + 1).

(** The [while] loop; [None] when the fuel runs out. *)
Fixpoint sort_loop (fuel : nat) (st : sort_state) : option sort_state :=
  match zero_indegree st with
  | [] => Some st
  | cur :: rest =>
      match fuel with
      | O => None
      | S fuel' => sort_loop fuel' (sort_step cur rest st)
      end
  end.

Definition cycle_error : exn :=
  RuntimeError "There exists a cycle in the given graph".

Definition topological_sort_fuel (fuel : nat) (g : PipelineDAG) : option (result (list Node)) :=
  let zero := (filter (λ p, p.2 = 0) (input_deg_graph g)).*1 in
  st ← sort_loop fuel (mkState g zero [] 0);
  if decide (visited_count st ≠ Z.of_nat (length (od_keys (output_graph (st_dag st)))))
  then Some (Raise cycle_error)
  else Some (Ok (topo_order st)).

(** Every iteration emits a node that was not emitted before, so one more
    than the number of registered nodes is enough fuel
    ([topological_sort_fuel_enough] below). *)
Definition topological_sort (g : PipelineDAG) : option (result (list Node)) :=
  topological_sort_fuel (S (length (input_deg_graph g))) g.

(** A graph as the list of [add_input_edge] calls that registered it, each
    [(node, input_node)]. *)
Definition register (edges : list (Node * Node)) : PipelineDAG :=
  foldl (λ g e, add_input_edge g e.1 e.2) PipelineDAG_init edges.

End PipelineDAG.

Arguments PipelineDAG : clear implicits.
Arguments sort_state : clear implicits.

(** ** [clarac_utils.py]: the manifest records *)

Record ServiceConfig := mkServiceConfig {
  service_name : string;
  service_image_n_tag : string;
  service_command : option (list string);
  http_connections : gmap string Z
}.

(** An entry of [inputs] or [outputs]: a dict with the keys ["from"],
    ["name"] and ["path"], the first two optional. *)
Record Binding := mkBinding {
  binding_from : option string;
  binding_name : option string;
  binding_path : string
}.

Record OperatorConfig := mkOperatorConfig {
  name : string;
  image_n_tag : string;
  command : option (list string);
  variables : option (gmap string string);
  inputs : list Binding;
  outputs : option (list Binding);
  models : option (list string);
  services : option (list ServiceConfig)
}.

(** Python truth value of an attribute that is [None] or a list. *)
Definition truthy {A} (o : option (list A)) : bool :=
  match o with
  | Some (_ :: _) => true
  | _ => false
  end.

(** [OperatorConfig.update_variables]: [{**var_dict, **self.variables}] lets
    the operator's own entries override the given ones, which is the
    left-biased union of the two maps. *)
Definition update_variables (op : OperatorConfig) (var_dict : gmap string string)
    : OperatorConfig :=
  let vars :=
    match variables op with
    | Some own => if decide (own = ∅) then var_dict else own ∪ var_dict
    | None => var_dict
    end in
  mkOperatorConfig (name op) (image_n_tag op) (command op) (Some vars)
    (inputs op) (outputs op) (models op) (services op).

(** ** [topology_sort.py]: [topo_sort_pipeline] *)

(** [input_path.get("from")] when it is truthy: present and not empty. *)
Definition binding_source (b : Binding) : option string :=
  match binding_from b with
  | Some src => if decide (src = EmptyString) then None else Some src
  | None => None
  end.

(** The two [for] loops that fill the graph. *)
Definition add_operator_edges (g : PipelineDAG string) (op : OperatorConfig)
    : PipelineDAG string :=
  foldl (λ g input_path,
           match binding_source input_path with
           | Some src => add_input_edge g (name op) src
           | None => g
           end) g (inputs op).

Definition build_dag (operators : list OperatorConfig) : PipelineDAG string :=
  foldl add_operator_edges PipelineDAG_init operators.

(** [{op.name: op for op in operators}]: a later operator replaces an
    earlier one of the same name. *)
Definition op_dict (operators : list OperatorConfig) : gmap string OperatorConfig :=
  foldl (λ d op, <[name op := op]> d) ∅ operators.

(** [[op_dict[op_name] for op_name in sequence]]: the first missing name
    raises [KeyError]. *)
Fixpoint lookup_operators (d : gmap string OperatorConfig) (sequence : list string)
    : result (list OperatorConfig) :=
  match sequence with
  | [] => Ok []
  | op_name :: sequence' =>
      match d !! op_name with
      | None => Raise (KeyError op_name)
      | Some op =>
          match lookup_operators d sequence' with
          | Ok ops => Ok (op :: ops)
          | Raise e => Raise e
          end
      end
  end.

(** [None] only where the sort's loop ran out of fuel, which it never does
    ([topo_sort_pipeline_returns] below). *)
Definition topo_sort_pipeline (operators : list OperatorConfig)
    : option (result (list OperatorConfig)) :=
  if decide (length operators = 1%nat) then Some (Ok operators)
  else
    match topological_sort (build_dag operators) with
    | None => None
    | Some (Raise e) => Some (Raise e)
    | Some (Ok sequence) => Some (lookup_operators (op_dict operators) sequence)
    end.

(** ** Python numbers *)

(** [float(n)] for an [int] below 2^63 in absolute value, which every [int]
    this program converts is: a core count, a list length, the base 256. *)
Definition float_of_int (n : Z) : float :=
  if n <? 0 then (- of_uint63 (Uint63.of_Z (- n)))%float
  else of_uint63 (Uint63.of_Z n).

(** [math.ceil] of a float: the exact integer, or the exception Python
    raises on an infinity or a nan. *)
Definition math_ceil (x : float) : result Z :=
  match Prim2SF x with
  | S754_zero _ => Ok 0
  | S754_finite s m e =>
      let n := if s then Z.neg m else Z.pos m in
      Ok (if 0 <=? e then n * 2 ^ e else - ((- n) / 2 ^ (- e)))
  | S754_infinity _ => Raise OverflowError
  | S754_nan => Raise ValueError
  end.

(** [num / den] rounded to the nearest integer, ties to even, for
    [0 <= num] and [0 < den]. *)
Definition round_half_even (num den : Z) : Z :=
  let q := num / den in
  let r := num mod den in
  if 2 * r <? den then q
  else if den <? 2 * r then q + 1
  else if Z.even q then q else q + 1.

(** [round(x, 3)] of a float: the float nearest to the exact value of [x]
    rounded to three decimals, ties to even; zeros, infinities and nans
    round to themselves. Where the three-decimal value times 1000 does not
    fit 53 bits, [x] is beyond 2^43, the floats are more than 0.001 apart
    and the nearest one is [x]. *)
Definition round3 (x : float) : float :=
  match Prim2SF x with
  | S754_finite s m e =>
      let n :=
        if 0 <=? e then Z.pos m * 2 ^ e * 1000
        else round_half_even (Z.pos m * 1000) (2 ^ (- e)) in
      if n <? 2 ^ 53 then
        let y := (float_of_int n / 1000)%float in
        if s then (- y)%float else y
      else x
  | _ => x
  end.

(** [sum] of a list of floats: added left to right, from 0. *)
Definition py_sum (l : list float) : float := foldl PrimFloat.add 0%float l.

(** [max] of a list: the first item, replaced by each later item that
    compares greater; [ValueError] on an empty list. *)
Definition py_max (l : list float) : result float :=
  match l with
  | [] => Raise ValueError
  | x :: l' => Ok (foldl (λ m y, if (m <? y)%float then y else m) x l')
  end.

(** [a / b] on floats raises on a zero divisor. *)
Definition py_truediv (a b : float) : result float :=
  if (b =? 0)%float then Raise ZeroDivisionError else Ok (a / b)%float.

(** ** [constants.py] *)

Definition B_MB_FACTOR : float := 1e6%float.

Definition NS_PER_S : float := 1e9%float.

(** ** [container.py] *)

Record Metrics := mkMetrics {
  timestamp : float;
  cpu_percent : float;
  memory : float             (* in MB *)
}.

Record RawMetrics := mkRawMetrics {
  raw_timestamp : float;
  cpu : float;
  per_cpu : string;
  sys_cpu : float;
  raw_memory : float         (* in bytes *)
}.

Record Container := mkContainer {
  id : list N;               (* a [str], as its code points *)
  metric_paths : option (string * string * string);
  raw_metrics : list RawMetrics;
  metrics : list Metrics
}.

Definition Container_init : Container := mkContainer [] None [] [].

(** [Container._process_raw_data]; [ONLINE_CPUS] is the constant that
    [constants.py] reads from the operating system. *)
Definition _process_raw_data (ONLINE_CPUS : Z) (prev cur : RawMetrics) : Metrics :=
  let ts_avg := ((raw_timestamp prev + raw_timestamp cur) / 2)%float in
  let cpu_delta := ((cpu cur - cpu prev) / NS_PER_S)%float in
  let sys_cpu_delta := (sys_cpu cur - sys_cpu prev)%float in
  let cpu_percent :=
    if (0 <? cpu_delta)%float && (0 <? sys_cpu_delta)%float
    then (cpu_delta / sys_cpu_delta * float_of_int ONLINE_CPUS * 100)%float
    else 0%float in
  let memory_avg := ((raw_memory prev + raw_memory cur) / 2 / B_MB_FACTOR)%float in
  mkMetrics ts_avg cpu_percent memory_avg.

(** What [self._read_raw_metrics()] did in one call of [sample_metrics]. *)
Inductive read_outcome :=
  | ReadOk (raw : RawMetrics)
  | ReadRaises (e : exn).

(** [Container.sample_metrics]: the container after the call, and what the
    call returned or raised. *)
Definition sample_metrics (ONLINE_CPUS : Z) (read : read_outcome) (c : Container)
    : Container * result (option Metrics) :=
  match metric_paths c with
  | None => (c, Raise (RuntimeError "Metrics paths must constructed before sampling."))
  | Some _ =>
      match read with
      | ReadRaises FileNotFoundError => (c, Ok None)
      | ReadRaises (OSError errno) =>
          if decide (errno = 19) then (c, Ok None) else (c, Raise (OSError errno))
      | ReadRaises e => (c, Raise e)
      | ReadOk raw =>
          let raws := raw_metrics c ++ [raw] in
          let c := mkContainer (id c) (metric_paths c) raws (metrics c) in
          if decide (2 ≤ length raws)%nat then
            match raws !! (length raws - 2)%nat, raws !! (length raws - 1)%nat with
            | Some prev, Some cur =>
                let metric := _process_raw_data ONLINE_CPUS prev cur in
                (mkContainer (id c) (metric_paths c) raws (metrics c ++ [metric]),
                 Ok (Some metric))
            | _, _ => (c, Raise IndexError)
            end
          else (c, Ok None)
      end
  end.

(** A sequence of [sample_metrics] calls on one container. *)
Definition sample_many (ONLINE_CPUS : Z) (reads : list read_outcome) (c : Container)
    : Container :=
  foldl (λ c read, (sample_metrics ONLINE_CPUS read c).1) c reads.

(** ** [utils.py] and [pipeline_utils.py]: the summary *)

Definition round_up_to_multiple (x : float) (base : Z) : result Z :=
  q ← py_truediv x (float_of_int base);
  n ← math_ceil q;
  mret (n * base).

Definition convert_percent_to_cores (x : float) : result Z :=
  math_ceil (x / 100)%float.

(** The numbers [print_operator_summary] puts in its table. *)
Record Summary := mkSummary {
  cpu_avg : float;
  cpu_max : float;
  recommended_cpu : Z;
  memory_avg : float;
  memory_max : float;
  recommended_memory : Z
}.

Definition print_operator_summary (metrics : list Metrics) : result Summary :=
  let cpu_data := cpu_percent <$> metrics in
  cpu_sum_over_len ← py_truediv (py_sum cpu_data) (float_of_int (Z.of_nat (length metrics)));
  let cpu_avg := round3 cpu_sum_over_len in
  cpu_max' ← py_max cpu_data;
  let cpu_max := round3 cpu_max' in
  let memory_data := memory <$> metrics in
  memory_sum_over_len ← py_truediv (py_sum memory_data) (float_of_int (Z.of_nat (length metrics)));
  let memory_avg := round3 memory_sum_over_len in
  memory_max' ← py_max memory_data;
  let memory_max := round3 memory_max' in
  recommended_cpu ← convert_percent_to_cores cpu_max;
  recommended_memory ← round_up_to_multiple (memory_max + 100)%float 256;
  mret (mkSummary cpu_avg cpu_max recommended_cpu
          memory_avg memory_max recommended_memory).

(** ** [pipeline_utils.py]: identifier acquisition in [start_operator] *)

(** [bytes.decode('utf-8')]: the code points of a byte string, or nothing
    where Python raises [UnicodeDecodeError] (a stray or missing
    continuation byte, an overlong form, a surrogate, a code point above
    U+10FFFF). *)
Definition continuation_byte (b : N) : bool := ((128 <=? b) && (b <=? 191))%N.

Fixpoint utf8_decode (bs : list N) : option (list N) :=
  match bs with
  | [] => Some []
  | b0 :: t0 =>
      if (b0 <? 128)%N then cons b0 <$> utf8_decode t0
      else if ((194 <=? b0) && (b0 <=? 223))%N then
        match t0 with
        | b1 :: t1 =>
            if continuation_byte b1
            then cons ((b0 - 192) * 64 + (b1 - 128))%N <$> utf8_decode t1
            else None
        | _ => None
        end
      else if ((224 <=? b0) && (b0 <=? 239))%N then
        match t0 with
        | b1 :: b2 :: t2 =>
            let lo := (if b0 =? 224 then 160 else 128)%N in
            let hi := (if b0 =? 237 then 159 else 191)%N in
            if ((lo <=? b1) && (b1 <=? hi))%N && continuation_byte b2
            then cons ((b0 - 224) * 4096 + (b1 - 128) * 64 + (b2 - 128))%N
                   <$> utf8_decode t2
            else None
        | _ => None
        end
      else if ((240 <=? b0) && (b0 <=? 244))%N then
        match t0 with
        | b1 :: b2 :: b3 :: t3 =>
            let lo := (if b0 =? 240 then 144 else 128)%N in
            let hi := (if b0 =? 244 then 143 else 191)%N in
            if ((lo <=? b1) && (b1 <=? hi))%N && continuation_byte b2
               && continuation_byte b3
            then cons ((b0 - 240) * 262144 + (b1 - 128) * 4096
                       + (b2 - 128) * 64 + (b3 - 128))%N
                   <$> utf8_decode t3
            else None
        | _ => None
        end
      else None
  end.

(** The characters [str.strip()] removes. *)
Definition is_space (c : N) : bool :=
  (((9 <=? c) && (c <=? 13)) || ((28 <=? c) && (c <=? 32)) || (c =? 133)
   || (c =? 160) || (c =? 5760) || ((8192 <=? c) && (c <=? 8202))
   || (c =? 8232) || (c =? 8233) || (c =? 8239) || (c =? 8287) || (c =? 12288))%N.

Fixpoint lstrip (s : list N) : list N :=
  match s with
  | c :: s' => if is_space c then lstrip s' else s
  | [] => []
  end.

Definition strip (s : list N) : list N := reverse (lstrip (reverse (lstrip s))).

(** One turn of [while cmd_proc.poll() is None], as the loop sees it: the
    client still runs and [q.get_nowait()] gave a line or raised [Empty], or
    [poll()] returned the client's exit code. *)
Inductive poll_outcome :=
  | Running (line : option (list N))
  | Exited (returncode : Z).

(** The two values shared with the orchestrator. *)
Record shared := mkShared {
  container_id : list N;        (* [container_id.value], a [str] *)
  id_returned_event : bool
}.

(** How the loop ends, with the shared values it leaves: by [break] with
    the identifier read, by [sys.exit] or an exception, by the client's exit
    with return code 0, or not within the turns observed. *)
Inductive acquisition :=
  | IdRead (sh : shared)
  | Exits (e : exn) (sh : shared)
  | ClientDone (sh : shared)
  | StillPolling (sh : shared).

(** The two [sys.exit] messages, without the values formatted into them. *)
Definition bad_id_exit : exn :=
  SystemExit "The output of docker should be the 64 bit container ID".

Definition operator_failed_exit : exn :=
  SystemExit "The operator failed with stderr".

(** The acquisition loop of [start_operator], over the turns it takes. *)
Fixpoint acquire_id (sh : shared) (turns : list poll_outcome) : acquisition :=
  match turns with
  | [] => StillPolling sh
  | Exited returncode :: _ =>
      if decide (returncode ≠ 0) then Exits operator_failed_exit sh
      else ClientDone sh
  | Running None :: turns' => acquire_id sh turns'
  | Running (Some raw_id) :: _ =>
      if decide (length raw_id = 65%nat) then
        match utf8_decode raw_id with
        | Some value => IdRead (mkShared (strip value) true)
        | None => Exits UnicodeDecodeError sh
        end
      else Exits bad_id_exit sh
  end.

(** ** [triton_utils.py]: the run mode *)

Inductive RUN_MODE :=
  | NO_INFERENCE_SERVER
  | MODEL_REPO
  | PIPELINE_SERVICES.

Definition both_modes_exit : exn :=
  SystemExit "CPOST does not support model_repository and pipeline services at the same time".

Definition decide_method_to_run_triton (op_configs : list OperatorConfig)
    : result RUN_MODE :=
  let '(model_repo, services_) :=
    foldl (λ '(model_repo, services_) op,
             (if truthy (models op) then true else model_repo,
              if truthy (services op) then true else services_))
          (false, false) op_configs in
  if model_repo && services_ then Raise both_modes_exit
  else if model_repo then Ok MODEL_REPO
  else if services_ then Ok PIPELINE_SERVICES
  else Ok NO_INFERENCE_SERVER.

(** ** [topology_sort.py]: what [topological_sort] leaves behind *)

Section PipelineDAG_in_place.
Context {Node : Type} `{EqDecision Node}.

(** [topological_sort] together with what it leaves in [self]: the loop
    lowers the in-degrees in place, and reading [self.output_graph] adds
    keys, so a second call on the same object starts from this graph. *)
Definition topological_sort_in_place (g : PipelineDAG Node)
    : option (PipelineDAG Node * result (list Node)) :=
  let zero := (filter (λ p, p.2 = 0) (input_deg_graph g)).*1 in
  st ← sort_loop (S (length (input_deg_graph g))) (mkState g zero [] 0);
  Some (st_dag st,
        if decide (visited_count st ≠ Z.of_nat (length (od_keys (output_graph (st_dag st)))))
        then Raise cycle_error
        else Ok (topo_order st)).

End PipelineDAG_in_place.

(** ** [pipeline_utils.py]: [sample_operator] and [utils.py]: [write_to_csv] *)

(** What [sample_operator] puts on the queue: the value [sample_metrics]
    returned, [None] or a [Metrics], and the closing [0]. *)
Inductive queue_item :=
  | PutNone
  | PutMetrics (metric : Metrics)
  | PutZero.

Definition queue_item_of (metric : option Metrics) : queue_item :=
  match metric with
  | None => PutNone
  | Some m => PutMetrics m
  end.

(** [if que: que.put(item)]: [que] is [None] or a queue, and a queue object
    is true whatever it holds. *)
Definition que_put (que : option (list queue_item)) (item : queue_item)
    : option (list queue_item) :=
  (λ q, q ++ [item]) <$> que.

(** The sampling loop [while container.metrics_path_exists()], over the
    reads of the turns in which the paths existed; it ends when they exist
    no longer.  [metrics_path_exists] indexes [self.metric_paths], which
    raises [IndexError] on the empty tuple of a container without paths. *)
Fixpoint sampling_loop (ONLINE_CPUS : Z) (reads : list read_outcome) (c : Container)
    (que : option (list queue_item))
    : Container * option (list queue_item) * result unit :=
  match metric_paths c with
  | None => (c, que, Raise IndexError)
  | Some _ =>
      match reads with
      | [] => (c, que, Ok ())
      | read :: reads' =>
          match sample_metrics ONLINE_CPUS read c with
          | (c', Ok metric) =>
              sampling_loop ONLINE_CPUS reads' c' (que_put que (queue_item_of metric))
          | (c', Raise e) => (c', que, Raise e)
          end
      end
  end.

(** [sample_operator], from the moment the paths exist: the sampling loop,
    then the closing [0]. The waiting and the sleeping between samples
    touch neither the container nor the queue. *)
Definition sample_operator (ONLINE_CPUS : Z) (reads : list read_outcome) (c : Container)
    (que : option (list queue_item))
    : Container * option (list queue_item) * result unit :=
  match sampling_loop ONLINE_CPUS reads c que with
  | (c', que', Ok _) => (c', que_put que' PutZero, Ok ())
  | (c', que', Raise e) => (c', que', Raise e)
  end.

(** The loop of [write_to_csv] over the items that arrive on the queue: the
    rows it writes, and whether it came to its end; with no item left and no
    [0] seen, [que.get()] waits. *)
Fixpoint write_to_csv (items : list queue_item) : list Metrics * bool :=
  match items with
  | [] => ([], false)
  | PutNone :: items' => write_to_csv items'
  | PutZero :: _ => ([], true)
  | PutMetrics m :: items' =>
      let '(rows, finished) := write_to_csv items' in (m :: rows, finished)
  end.

(** ** [utils.py]: [subproc_run_wrapper]; [triton_utils.py]: reading names and addresses *)

(** [s[1:-1]]: [s] without its first and its last character. *)
Definition slice_1_m1 {A} (s : list A) : list A := take (length s - 2) (drop 1 s).

(** [subproc_run_wrapper], given the return code and the standard output of
    the finished subprocess: the output decoded and stripped, or the exit. *)
Definition subproc_run_wrapper (returncode : Z) (stdout : list N) : result (list N) :=
  if decide (returncode = 0) then
    match utf8_decode stdout with
    | Some text => Ok (strip text)
    | None => Raise UnicodeDecodeError
    end
  else Raise (SystemExit "Failed to run subprocess with command").

(** [inspect_ip_address], given what the [docker inspect] subprocess did. *)
Definition inspect_ip_address (returncode : Z) (stdout : list N) : result (list N) :=
  output ← subproc_run_wrapper returncode stdout;
  mret (slice_1_m1 output).

(** [s.split(":")], the separator being the one character. *)
Fixpoint split_colon (s : list N) : list (list N) :=
  match s with
  | [] => [[]]
  | c :: s' =>
      if decide (c = 58%N) then [] :: split_colon s'
      else match split_colon s' with
           | part :: parts => (c :: part) :: parts
           | [] => [[c]]
           end
  end.

(** [f.readline().split(":")[1].strip()[1:-1]] in [check_models_directory]:
    the model name a configuration file gives on its first line. *)
Definition name_in_file (first_line : list N) : result (list N) :=
  match split_colon first_line !! 1%nat with
  | Some part => Ok (slice_1_m1 (strip part))
  | None => Raise IndexError
  end.

(** [f.readline()] on a file opened in text mode, as [open(model_path)]
    opens it: the text up to the first line end, which is [\n], [\r] or
    [\r\n] and which the universal newlines of text mode hand over as
    [\n]; the rest of the text when it has no line end. *)
Fixpoint readline (text : list N) : list N :=
  match text with
  | [] => []
  | c :: text' =>
      if decide (c = 10%N ∨ c = 13%N) then [10%N] else c :: readline text'
  end.

(** The rest of the loop body of [check_models_directory] for one model,
    given what [models_dir.glob] matched: of each configuration file the
    name of its directory and its text. *)
Definition check_model_config (matching_config : list (list N * list N))
    : result (list N) :=
  match matching_config with
  | [] => Raise (SystemExit "Model is missing in the models directory")
  | (parent_name, text) :: _ =>
      name ← name_in_file (readline text);
      if decide (name ≠ parent_name)
      then Raise (SystemExit "Expected name in config to be equal to directory name")
      else Ok parent_name
  end.

(** ** [triton_utils.py] and [pipeline_utils.py]: starting and stopping Triton *)

(** The exceptions of this code that [exn] does not list. *)
Inductive error :=
  | Exn (e : exn)
  | UnboundLocalError (variable : string)
  | TypeError
  | TimeoutError.

Inductive outcome (A : Type) :=
  | Done (a : A)
  | Fails (e : error).

Arguments Done {A} a.
Arguments Fails {A} e.

Definition TRITON_IMAGE_TAG : string := "nvcr.io/nvidia/tritonserver:20.07-v1-py3".

(** [needle in s] on strings. *)
Fixpoint str_in (needle s : string) : bool :=
  String.prefix needle s ||
  match s with
  | EmptyString => false
  | String _ s' => str_in needle s'
  end.

(** The outside world, as far as this code deals with it: what
    [subproc_run_wrapper(cmd)] finds (the stripped output, or the exit), the
    address that [inspect_ip_address] reads from its [docker inspect], and
    what [check_triton_status] and [check_models_directory] find; each may
    change the world [W]. *)
Record environment (W : Type) := mkEnvironment {
  run_command : list string → W → W * outcome string;
  inspect_ip_address_of : string → W → W * outcome string;
  check_triton_status : list string → string → W → W * outcome unit;
  check_models_directory :
    list OperatorConfig → option string → W → W * outcome (list string)
}.

Arguments run_command {W} _ _ _.
Arguments inspect_ip_address_of {W} _ _ _.
Arguments check_triton_status {W} _ _ _ _.
Arguments check_models_directory {W} _ _ _ _.

Section triton.
Context {W : Type} (env : environment W).

(** The state the calls work on: the world, and the commands run in
    subprocesses so far. *)
Record process := mkProcess {
  world : W;
  commands : list (list string)
}.

Definition call (A : Type) : Type := process → process * outcome A.

#[local] Instance call_ret : MRet call := λ A a p, (p, Done a).

#[local] Instance call_bind : MBind call := λ A B f m p,
  match m p with
  | (p', Done a) => f a p'
  | (p', Fails e) => (p', Fails e)
  end.

(** A call of the world that runs no subprocess. *)
Definition in_world {A} (f : W → W * outcome A) : call A := λ p,
  let '(w, r) := f (world p) in (mkProcess w (commands p), r).

Definition raise {A} (e : error) : call A := λ p, (p, Fails e).

Definition subproc_run_wrapper_call (cmd : list string) : call string := λ p,
  let '(w, r) := run_command env cmd (world p) in (mkProcess w (commands p ++ [cmd]), r).

Definition docker_inspect (container_name : string) : list string :=
  ["docker"; "inspect";
   "--format='{{range .NetworkSettings.Networks}}{{.IPAddress}}{{end}}'"; container_name].

(** [inspect_ip_address]: its subprocess, and the address it returns. *)
Definition inspect_ip_address_call (container_name : string) : call string := λ p,
  let '(w, r) := inspect_ip_address_of env container_name (world p) in
  (mkProcess w (commands p ++ [docker_inspect container_name]), r).

Definition start_triton (models_dir : option string) (command : option (list string))
    (image_tag : string) (triton_models_names : list string) : call (string * string) :=
  let loading_models := (λ name, "--load-model=" +:+ name) <$> triton_models_names in
  match command with
  | None => raise TypeError
  | Some command =>
      let cmd := ["docker"; "run"; "--gpus=1"; "--rm"; "-d"; "-p8000:8000"; "-p8001:8001";
                  "-p8002:8002"; "-v"; default "None" models_dir +:+ ":/models"; image_tag]
                 ++ command ++ loading_models in
      triton_container_id ← subproc_run_wrapper_call cmd;
      ip_address ← inspect_ip_address_call triton_container_id;
      _ ← in_world (check_triton_status env triton_models_names ip_address);
      mret (triton_container_id, ip_address)
  end.

(** [with run_triton_model_repo(execution_order, models_dir) as triton_ip:
    body]. The [finally] clause reads the local [triton_container_id],
    which is bound only once [start_triton] has returned. *)
Definition run_triton_model_repo {A} (execution_order : list OperatorConfig)
    (models_dir : option string) (body : string → call A) : call A := λ p,
  let '(p, triton_container_id, r) :=
    match check_models_directory env execution_order models_dir (world p) with
    | (w, Fails e) => (mkProcess w (commands p), None, Fails e)
    | (w, Done triton_models_names) =>
        let command :=
          ["tritonserver"; "--model-repository=/models"; "--model-control-mode=explicit"] in
        match start_triton models_dir (Some command) TRITON_IMAGE_TAG triton_models_names
                (mkProcess w (commands p)) with
        | (p, Fails e) => (p, None, Fails e)
        | (p, Done (triton_container_id, ip_address)) =>
            let '(p, r) := body ip_address p in (p, Some triton_container_id, r)
        end
    end in
  match triton_container_id with
  | None => (p, Fails (UnboundLocalError "triton_container_id"))
  | Some triton_container_id =>
      match subproc_run_wrapper_call ["docker"; "kill"; triton_container_id] p with
      | (p, Fails e) => (p, Fails e)
      | (p, Done _) => (p, r)
      end
  end.

(** The services that run, as [run_pipeline_with_services] keeps them: for
    each key the container id and the address; with the process. *)
Record running_services := mkServices {
  proc : process;
  running_dict : list (string * (string * string))
}.

(** The loop of [clean_up_containers] over the items of the dictionary. *)
Fixpoint kill_containers (items : list (string * (string * string))) : call unit :=
  match items with
  | [] => mret ()
  | (old_key, container_info) :: items' =>
      _ ← subproc_run_wrapper_call ["docker"; "kill"; container_info.1];
      kill_containers items'
  end.

(** [clean_up_containers]: the dictionary is cleared after the loop, so not
    when a [docker kill] fails. *)
Definition clean_up_containers (s : running_services) : running_services * outcome unit :=
  match kill_containers (running_dict s) (proc s) with
  | (p, Done _) => (mkServices p [], Done ())
  | (p, Fails e) => (mkServices p (running_dict s), Fails e)
  end.

(** The body of the loop of [start_pipeline_services] for one service. *)
Definition start_pipeline_service (models_dir : option string) (service : ServiceConfig)
    (op_config : OperatorConfig) (s : running_services)
    : running_services * OperatorConfig * outcome unit :=
  match service_command service with
  | None => (s, op_config, Fails TypeError)
  | Some command =>
      let key := service_image_n_tag service +:+ " " +:+ String.concat " " command in
      let http_connections_dict ip_address : gmap string string :=
        (λ v, ip_address +:+ ":" +:+ pretty v) <$> http_connections service in
      match od_get (running_dict s) key with
      | Some container_info =>
          (s, update_variables op_config (http_connections_dict container_info.2), Done ())
      | None =>
          let '(s, r) :=
            if decide (length (running_dict s) ≠ 0%nat) then clean_up_containers s
            else (s, Done ()) in
          match r with
          | Fails e => (s, op_config, Fails e)
          | Done _ =>
              if str_in "trtis" (service_name service)
                 || str_in "triton" (service_name service)
              then
                match start_triton models_dir (service_command service)
                        (service_image_n_tag service) [] (proc s) with
                | (p, Fails e) => (mkServices p (running_dict s), op_config, Fails e)
                | (p, Done (triton_container_id, ip_address)) =>
                    (mkServices p (od_setitem (running_dict s) key
                                     (triton_container_id, ip_address)),
                     update_variables op_config (http_connections_dict ip_address),
                     Done ())
                end
              else (s, op_config, Done ())
          end
      end
  end.

Fixpoint start_services (models_dir : option string) (services_ : list ServiceConfig)
    (op_config : OperatorConfig) (s : running_services)
    : running_services * OperatorConfig * outcome unit :=
  match services_ with
  | [] => (s, op_config, Done ())
  | service :: services' =>
      match start_pipeline_service models_dir service op_config s with
      | (s, op_config, Done _) => start_services models_dir services' op_config s
      | (s, op_config, Fails e) => (s, op_config, Fails e)
      end
  end.

(** [start_pipeline_services]: iterating over [op_config.services] when it
    is [None] raises [TypeError]. *)
Definition start_pipeline_services (models_dir : option string)
    (op_config : OperatorConfig) (s : running_services)
    : running_services * OperatorConfig * outcome unit :=
  match services op_config with
  | None => (s, op_config, Fails TypeError)
  | Some services_ => start_services models_dir services_ op_config s
  end.

End triton.

(** ** [cli.py]: [ContinueOptions]; [pipeline_utils.py]: [run_operator], [run_pipeline_alone] *)

Inductive ContinueOptions :=
  | NONE    (* prompt user y/n *)
  | CONT    (* continue execution *)
  | STOP.   (* stop execution *)

(** [Container.construct_metrics_path]; [metric_paths_of] stands for the
    three paths that [pathlib] joins from [SYSFS_PATH] and the id. *)
Definition construct_metrics_path (metric_paths_of : list N → string * string * string)
    (c : Container) : result Container :=
  match id c with
  | [] => Raise (RuntimeError "Container ID is not set when creating paths")
  | _ => Ok (mkContainer (id c) (Some (metric_paths_of (id c))) (raw_metrics c) (metrics c))
  end.

(** [d.pop(k)] on a dictionary that has the key: the dictionary without it. *)
Definition od_pop {K V} `{EqDecision K} (d : list (K * V)) (k : K) : list (K * V) :=
  filter (λ kv, kv.1 ≠ k) d.

(** What [run_operator] sees of one operator: whether [build_operator_cmd]
    gave a command, the [container_id.value] if the event was set within
    [ID_WAITING_TIME_SECONDS], the reads of the sampling loop, the exit code
    of the [start_operator] process once joined or terminated, and what
    [prompt_yes_or_no] returns if it is asked. *)
Record operator_run := mkOperatorRun {
  docker_cmd : result (list string);
  id_returned : option (list N);
  sampling_reads : list read_outcome;
  exitcode : Z;
  answer : bool
}.

Definition non_zero_exitcode_key (op_name : string) : string :=
  op_name +:+ String (Ascii.ascii_of_nat 10) "(Non-zero exitcode)".

(** [run_operator]: the dictionary of summaries after the call, and the
    value returned, [True] or [None] (here [true] or [false]), or the
    exception raised. *)
Definition run_operator (ONLINE_CPUS : Z)
    (metric_paths_of : list N → string * string * string)
    (op_config : OperatorConfig) (seen : operator_run)
    (write_que : option (list queue_item)) (continue_option : ContinueOptions)
    (pipeline_summary_dict : list (string * Summary))
    : list (string * Summary) * result bool :=
  let sampled :=
    match id_returned seen with
    | Some value =>
        container ← construct_metrics_path metric_paths_of (mkContainer value None [] []);
        match sample_operator ONLINE_CPUS (sampling_reads seen) container write_que with
        | (_, _, Raise e) => Raise e
        | (container, _, Ok _) =>
            operator_summary ← print_operator_summary (metrics container);
            Ok (od_setitem pipeline_summary_dict (name op_config) operator_summary)
        end
    | None => Ok pipeline_summary_dict
    end in
  match sampled with
  | Raise e => (pipeline_summary_dict, Raise e)
  | Ok pipeline_summary_dict =>
      if decide (exitcode seen ≠ 0) then
        let pipeline_summary_dict :=
          match od_get pipeline_summary_dict (name op_config) with
          | Some operator_summary =>
              od_setitem (od_pop pipeline_summary_dict (name op_config))
                (non_zero_exitcode_key (name op_config)) operator_summary
          | None => pipeline_summary_dict
          end in
        match continue_option with
        | CONT => (pipeline_summary_dict, Ok false)
        | STOP => (pipeline_summary_dict, Ok true)
        | NONE => (pipeline_summary_dict, Ok (negb (answer seen)))
        end
      else (pipeline_summary_dict, Ok false)
  end.


(** ** [triton_utils.py]: [_extract_models_from_configs] *)

(** [[model for op in op_configs if op.models for model in op.models]]. *)
Definition declared_models (op_configs : list OperatorConfig) : list string :=
  op_configs ≫= λ op, if truthy (models op) then default [] (models op) else [].

(** [list(set(...))]: the models without repeats.  Python leaves the order
    of a set open; the order of [elements] stands for it, and nothing below
    depends on it. *)
Definition _extract_models_from_configs (op_configs : list OperatorConfig) : list string :=
  elements (list_to_set (declared_models op_configs) : gset string).

(** * Part II: the vocabulary of the claims *)

(** ** The registered graph, as the list of [add_input_edge] calls describes it *)

Section graph.
Context {Node : Type} `{EqDecision Node}.
Implicit Types (E : list (Node * Node)) (e : Node * Node) (T Q : list Node) (u v : Node).

Definition add_new (acc : list Node) (x : Node) : list Node :=
  if decide (x ∈ acc) then acc else acc ++ [x].

(** Nodes in the order [add_input_edge] first meets them: of each call the
    input node, then the node. *)
Definition nodes E : list Node :=
  foldl (λ acc e, add_new (add_new acc e.2) e.1) [] E.

Definition indegree E v : nat := length (filter (λ e, e.1 = v) E).

Definition successors E v : list Node := (filter (λ e, e.2 = v) E).*1.

(** [dep E u v]: [u] is an input of [v], an edge from [u] to [v]. *)
Definition dep E : relation Node := λ u v, (v, u) ∈ E.

Definition has_cycle E : Prop := ∃ v, tc (dep E) v v.

End graph.

(** ** The state of Kahn's algorithm *)

Section kahn.
Context {Node : Type} `{EqDecision Node}.
Implicit Types (E : list (Node * Node)) (e : Node * Node) (T Q : list Node) (u v : Node).
Implicit Types (ig : list (Node * Z)) (st : sort_state Node).

Definition occurrences v (l : list Node) : nat := length (filter (λ x, x = v) l).

(** In-edges of [v] whose source is not among the emitted nodes [T]. *)
Definition remaining E T v : nat :=
  length (filter (λ e, e.1 = v ∧ e.2 ∉ T) E).

(** [precedes T u v]: [u] is emitted before [v] in [T]. *)
Definition precedes T u v : Prop :=
  ∃ i j, T !! i = Some u ∧ T !! j = Some v ∧ (i < j)%nat.

(** The loop invariant of [while zero_indegree], for the graph registered
    by the calls [E]. *)
Record sort_inv E st : Prop := {
  inv_keys : od_keys (input_deg_graph (st_dag st)) = nodes E;
  inv_indeg : ∀ v, v ∈ nodes E →
    od_get (input_deg_graph (st_dag st)) v =
      Some (Z.of_nat (remaining E (topo_order st) v));
  inv_nodup : NoDup (topo_order st ++ zero_indegree st);
  inv_ready : ∀ v, v ∈ topo_order st ++ zero_indegree st ↔
    v ∈ nodes E ∧ remaining E (topo_order st) v = 0%nat;
  inv_out_nodup : NoDup (od_keys (output_graph (st_dag st)));
  inv_out_keys : ∀ v, v ∈ od_keys (output_graph (st_dag st)) ↔
    v ∈ E.*2 ∨ v ∈ topo_order st;
  inv_out_get : ∀ v l,
    od_get (output_graph (st_dag st)) v = Some l → l = successors E v;
  inv_count : visited_count st = Z.of_nat (length (topo_order st));
  inv_order : ∀ e, e ∈ E → e.1 ∈ topo_order st →
    precedes (topo_order st) e.2 e.1
}.

(** The seed of the queue: the nodes without in-edge, in the order they
    were first registered. *)
Definition initial_queue E : list Node :=
  filter (λ v, indegree E v = 0%nat) (nodes E).

(** The state after at most [k] turns of the loop. *)
Fixpoint sort_turns (k : nat) st : sort_state Node :=
  match k, zero_indegree st with
  | S k', cur :: rest => sort_turns k' (sort_step cur rest st)
  | _, _ => st
  end.

Definition sort_start E : sort_state Node :=
  mkState (register E) (initial_queue E) [] 0.

(** The nodes that the turn of [u] appends to the queue, [T] being the
    nodes emitted before [u]: the targets of the edges out of [u], in the
    order in which [add_input_edge] registered these edges (a target of
    several edges out of [u] standing where the last of them does), that
    have no in-edge left from a node still to be emitted. *)
Definition released E T u : list Node :=
  filter (λ v, remaining E (T ++ [u]) v = 0%nat) (remove_dups (successors E u)).

(** What the turns of the nodes of [T] append to the queue, turn after
    turn. *)
Definition released_by_turns E T : list Node :=
  concat (imap (λ i u, released E (take i T) u) T).

(** Two nodes of which none is emitted with the nodes [T] that open the
    order, and none waits for an input any more: both have in-degree zero at
    that moment. *)
Definition ready_together E (order : list Node) u v : Prop :=
  ∃ T, T `prefix_of` order ∧
       u ∈ nodes E ∧ v ∈ nodes E ∧ (u ∉ T) ∧ (v ∉ T) ∧
       remaining E T u = 0%nat ∧ remaining E T v = 0%nat.

(** The tie-break by registration: of two nodes that have in-degree zero at
    the same moment, the one that [add_input_edge] met first is emitted
    first. *)
Definition fifo_by_registration E (order : list Node) : Prop :=
  ∀ u v, ready_together E order u v → precedes (nodes E) u v → precedes order u v.

End kahn.

(** ** Renaming the nodes *)

Section rename.
Context {Node M : Type} `{EqDecision Node} `{EqDecision M}.
Context (f : Node → M) `{!Inj (=) (=) f}.

Definition rename_dict {V W} (g : V → W) (d : list (Node * V)) : list (M * W) :=
  prod_map f g <$> d.

Definition rename_dag (g : PipelineDAG Node) : PipelineDAG M :=
  mkDAG (rename_dict Datatypes.id (input_deg_graph g))
        (rename_dict (fmap f) (output_graph g)).

Definition rename_state (st : sort_state Node) : sort_state M :=
  mkState (rename_dag (st_dag st)) (f <$> zero_indegree st)
          (f <$> topo_order st) (visited_count st).

Definition rename_result (r : result (list Node)) : result (list M) :=
  (fmap f : list Node → list M) <$> r.

End rename.

(** ** Pipelines, samples and lines the claims speak of *)

(** The [add_input_edge] calls [topo_sort_pipeline] makes, in order. *)
Definition operator_edges (op : OperatorConfig) : list (string * string) :=
  omap (λ b, (λ src, (name op, src)) <$> binding_source b) (inputs op).

Definition pipeline_edges (operators : list OperatorConfig) : list (string * string) :=
  operators ≫= operator_edges.

(** Every operator has a [from] binding or is named by one. *)
Definition well_connected (operators : list OperatorConfig) : Prop :=
  ∀ op, op ∈ operators → name op ∈ nodes (pipeline_edges operators).

(** Every [from] names an operator of the pipeline. *)
Definition from_closed (operators : list OperatorConfig) : Prop :=
  ∀ e, e ∈ pipeline_edges operators → e.2 ∈ name <$> operators.

(** Every operator named in a [from] stands before the operator that names
    it. *)
Definition dependencies_first (out : list OperatorConfig) : Prop :=
  ∀ op b src, op ∈ out → b ∈ inputs op → binding_source b = Some src →
    precedes (name <$> out) src (name op).

Definition plain_op (n : string) (froms : list string) : OperatorConfig :=
  mkOperatorConfig n "tag" None None
    ((λ f, mkBinding (Some f) None "/input") <$> froms) None None None.

Definition root_op (n : string) : OperatorConfig :=
  mkOperatorConfig n "tag" None None [mkBinding None None "/input"] None None None.

(** The two samples of [test_process_raw_data]. *)
Definition raw_first : RawMetrics :=
  mkRawMetrics 2 800000 "300000 0 0 500000" 14000000.00 6500000.

Definition raw_second : RawMetrics :=
  mkRawMetrics 3 1000000 "500000 0 0 500000" 14000000.60 8500000.

Definition docker_id_line : list N :=
  (Ascii.N_of_ascii <$> String.list_ascii_of_string
     "8c0b4110ae930dbe26b258de9bc34a03f98056ed6f27f991d32919bfe401d7c5") ++ [10%N].

Definition declares_models (op_configs : list OperatorConfig) : Prop :=
  Exists (λ op, truthy (models op) = true) op_configs.

Definition declares_services (op_configs : list OperatorConfig) : Prop :=
  Exists (λ op, truthy (services op) = true) op_configs.

(** A float that is a number: comparisons with a nan are all false. *)
Definition is_number (x : float) : Prop := Prim2SF x ≠ S754_nan.

(** A float that is zero or positive, and not an infinity: what [float(n)]
    is for a core count [n]. *)
Definition finite_nonneg (x : float) : Prop :=
  Prim2SF x = S754_zero false ∨ ∃ m e, Prim2SF x = S754_finite false m e.

(** The recommendation as the spec words it: from the maximum itself. *)
Definition cores_of_maximum (metrics : list Metrics) : result Z :=
  max_cpu_percent ← py_max (cpu_percent <$> metrics);
  math_ceil (max_cpu_percent / 100)%float.

Definition memory_of_maximum (metrics : list Metrics) : result Z :=
  max_memory_mb ← py_max (memory <$> metrics);
  n ← math_ceil ((max_memory_mb + 100) / 256)%float;
  mret (n * 256).

Definition pipeline_with_unconnected_operator : list OperatorConfig :=
  [root_op "A"; plain_op "B" ["A"]; root_op "C"].


(** The edges of [test_topo_sort_error] and of [test_topo_sort_2]. *)
Definition cyclic_edges : list (Z * Z) := [(2, 1); (3, 2); (1, 3)].

Definition chain_edges : list (Z * Z) := [(2, 1); (3, 2); (4, 3)].

(** The edges of [test_topo_sort], as (node, input node). *)
Definition test_edges : list (Z * Z) :=
  [(2, 5); (0, 5); (0, 4); (1, 4); (3, 2); (1, 3)].

(** Three calls after which two nodes become ready in one turn. *)
Definition tie_edges : list (Z * Z) := [(1, 0); (3, 2); (1, 2)].

Definition diamond_pipeline : list OperatorConfig :=
  [plain_op "D" ["A"; "C"]; plain_op "C" ["B"]; root_op "A"; root_op "B"].

(** ** Further vocabulary *)


(** Edges registered against their direction: 2 reads from 1, then 1 from 0. *)
Definition backward_edges : list (Z * Z) := [(2, 1); (1, 0)].


(** A float that is positive and not an infinity. *)
Definition finite_pos (x : float) : Prop :=
  ∃ m e, Prim2SF x = S754_finite false m e.

(** A value that compares greater or equal to zero: a zero, a positive
    number or the positive infinity. *)
Definition SFnonneg (x : spec_float) : Prop :=
  match x with
  | S754_zero _ | S754_finite false _ _ | S754_infinity false => True
  | _ => False
  end.

(** The raw samples among the reads: those that did not raise. *)
Definition read_samples (reads : list read_outcome) : list RawMetrics :=
  omap (λ read, match read with ReadOk raw => Some raw | ReadRaises _ => None end) reads.

(** A read that raises something [sample_metrics] does not catch. *)
Definition fatal_read (read : read_outcome) : Prop :=
  match read with
  | ReadOk _ => False
  | ReadRaises FileNotFoundError => False
  | ReadRaises (OSError errno) => errno ≠ 19
  | ReadRaises _ => True
  end.

#[global] Instance fatal_read_dec (read : read_outcome) : Decision (fatal_read read).
Proof. destruct read as [raw|[]]; simpl; apply _. Defined.

(** The characters of an ASCII literal. *)
Definition chars (s : string) : list N :=
  Ascii.N_of_ascii <$> String.list_ascii_of_string s.

(** The first line of a Triton model configuration: [name: "<model>"]. *)
Definition name_line (model : list N) : list N :=
  chars "name: " ++ [34%N] ++ model ++ [34%N; 10%N].

(** What [docker inspect] prints for the format in quotes: ['<address>']. *)
Definition quoted_line (address : list N) : list N :=
  [39%N] ++ address ++ [39%N; 10%N].

(** The command with which [start_triton] starts the container. *)
Definition docker_run_triton (models_dir : option string) (command : list string)
    (image_tag : string) (triton_models_names : list string) : list string :=
  ["docker"; "run"; "--gpus=1"; "--rm"; "-d"; "-p8000:8000"; "-p8001:8001";
   "-p8002:8002"; "-v"; default "None" models_dir +:+ ":/models"; image_tag]
  ++ command ++ ((λ name, "--load-model=" +:+ name) <$> triton_models_names).

Definition model_repo_command : list string :=
  ["tritonserver"; "--model-repository=/models"; "--model-control-mode=explicit"].

(** The variable [k] of an operator, if it has one. *)
Definition variable_of (op : OperatorConfig) (k : string) : option string :=
  variables op ≫= (.!! k).

(** A world in which every command prints [abc123], every address is
    [172.17.0.2], Triton is ready and the models are those asked for, and
    one in which Triton never gets ready. *)
Definition calm_environment : environment unit :=
  mkEnvironment unit
    (λ _ w, (w, Done "abc123")) (λ _ w, (w, Done "172.17.0.2"))
    (λ _ _ w, (w, Done ())) (λ _ _ w, (w, Done ["liver"])).

Definition stuck_environment : environment unit :=
  mkEnvironment unit
    (λ _ w, (w, Done "abc123")) (λ _ w, (w, Done "172.17.0.2"))
    (λ _ _ w, (w, Fails TimeoutError)) (λ _ _ w, (w, Done ["liver"])).

Definition trtis_service : ServiceConfig :=
  mkServiceConfig "trtis" "trtis:1" (Some ["trtserver"]) {["URI" := 8000]}.

Definition other_service : ServiceConfig :=
  mkServiceConfig "trtis" "trtis:2" (Some ["trtserver"]) {["URI" := 8000]}.



(** The error of the first read that raises something [sample_metrics]
    does not catch, if there is one. *)
Fixpoint first_fatal (reads : list read_outcome) : option exn :=
  match reads with
  | [] => None
  | ReadOk _ :: reads' => first_fatal reads'
  | ReadRaises e :: reads' =>
      if decide (fatal_read (ReadRaises e)) then Some e else first_fatal reads'
  end.



(** ** Case analysis on the comparisons inside a float comparison *)

Ltac compare_cases :=
  repeat match goal with
  | |- context [(?a ?= ?b)%Z] => destruct (Z.compare_spec a b)
  | |- context [(?a ?= ?b)%positive] => destruct (Pos.compare_spec a b)
  end; simpl; try congruence; try lia.

(** * Part III: proofs *)

(** ** Ordered dictionaries *)

Section ordered_dict_facts.
Context {K V : Type} `{EqDecision K}.
Implicit Types (d : list (K * V)) (k : K) (v : V).

Lemma od_get_None d k : od_get d k = None ↔ k ∉ od_keys d.
Proof.
  unfold od_keys. induction d as [|[k' v'] d IH]; simpl.
  - split; [intros _; apply not_elem_of_nil | done].
  - rewrite not_elem_of_cons. case_decide; subst.
    + split; [done | by intros [? _]].
    + rewrite IH. split; [intros ?; split; [congruence | done] | by intros [_ ?]].
Qed.

Lemma od_get_Some_keys d k v : od_get d k = Some v → k ∈ od_keys d.
Proof.
  intros Hg. destruct (decide (k ∈ od_keys d)) as [|Hn]; [done|].
  apply od_get_None in Hn. congruence.
Qed.

Lemma od_get_is_Some d k : is_Some (od_get d k) ↔ k ∈ od_keys d.
Proof.
  split.
  - intros [v Hv]. by eapply od_get_Some_keys.
  - intros Hin. destruct (od_get d k) eqn:Hg; [by eexists|].
    by apply od_get_None in Hg.
Qed.

Lemma od_get_app d1 d2 k :
  od_get (d1 ++ d2) k = match od_get d1 k with Some v => Some v | None => od_get d2 k end.
Proof.
  induction d1 as [|[k' v'] d1 IH]; simpl; [done|]. by case_decide.
Qed.

Lemma od_keys_replace d k v : od_keys (od_replace d k v) = od_keys d.
Proof.
  unfold od_keys. induction d as [|[k' v'] d IH]; simpl; [done|].
  case_decide; simpl; by f_equal.
Qed.

Lemma od_get_replace d k v k' :
  od_get (od_replace d k v) k' =
    if decide (k = k') then (λ _, v) <$> od_get d k else od_get d k'.
Proof.
  induction d as [|[k0 v0] d IH]; simpl.
  - by case_decide.
  - repeat (case_decide || simplify_eq/= || rewrite ?decide_True by done
              || rewrite ?decide_False by done); try done.
    all: rewrite IH; by repeat case_decide.
Qed.

Lemma dd_update_get dflt (f : V → V) d k k' :
  od_get (dd_update dflt f d k) k' =
    if decide (k = k') then Some (f (default dflt (od_get d k))) else od_get d k'.
Proof.
  unfold dd_update, dd_getitem, od_setitem.
  destruct (od_get d k) as [v|] eqn:Hg; simpl.
  - rewrite Hg, od_get_replace, Hg. by case_decide.
  - rewrite od_get_app, Hg. simpl. rewrite decide_True by done.
    rewrite od_get_replace, !od_get_app, Hg. simpl.
    rewrite (decide_True (P:=k = k)) by done. simpl.
    case_decide; [done|]. by destruct (od_get d k').
Qed.

Lemma dd_update_keys dflt (f : V → V) d k :
  od_keys (dd_update dflt f d k) =
    if decide (k ∈ od_keys d) then od_keys d else od_keys d ++ [k].
Proof.
  unfold dd_update, dd_getitem, od_setitem.
  destruct (od_get d k) as [v|] eqn:Hg; simpl.
  - rewrite Hg, od_keys_replace. rewrite decide_True; [done|].
    by eapply od_get_Some_keys.
  - rewrite od_get_app, Hg. simpl. rewrite decide_True by done.
    rewrite od_keys_replace. apply od_get_None in Hg.
    rewrite decide_False by done. unfold od_keys. by rewrite fmap_app.
Qed.

Lemma dd_getitem_present dflt d k v :
  od_get d k = Some v → dd_getitem dflt d k = (v, d).
Proof. unfold dd_getitem. by intros ->. Qed.

End ordered_dict_facts.

(** ** The registered graph *)

Section graph_facts.
Context {Node : Type} `{EqDecision Node}.
Implicit Types (E : list (Node * Node)) (e : Node * Node) (T Q : list Node) (u v : Node).

Lemma elem_of_add_new (acc : list Node) x y : x ∈ add_new acc y ↔ x ∈ acc ∨ x = y.
Proof.
  unfold add_new. case_decide.
  - split; [by left | intros [?| ->]; done].
  - rewrite elem_of_app, list_elem_of_singleton. done.
Qed.

Lemma NoDup_add_new (acc : list Node) x : NoDup acc → NoDup (add_new acc x).
Proof.
  intros Hnd. unfold add_new. case_decide; [done|].
  apply NoDup_app. split_and!; [done| |apply NoDup_singleton].
  intros y Hy ->%list_elem_of_singleton. done.
Qed.

Lemma nodes_snoc E e : nodes (E ++ [e]) = add_new (add_new (nodes E) e.2) e.1.
Proof. unfold nodes. by rewrite foldl_app. Qed.

Lemma indegree_snoc E e v :
  indegree (E ++ [e]) v = (indegree E v + if decide (e.1 = v) then 1 else 0)%nat.
Proof.
  unfold indegree. rewrite filter_app, length_app. f_equal.
  rewrite filter_cons, filter_nil. by case_decide.
Qed.

Lemma successors_snoc E e v :
  successors (E ++ [e]) v = successors E v ++ if decide (e.2 = v) then [e.1] else [].
Proof.
  unfold successors. rewrite filter_app, fmap_app. f_equal.
  rewrite filter_cons, filter_nil. by case_decide.
Qed.

Lemma NoDup_nodes E : NoDup (nodes E).
Proof.
  induction E as [|e E IH] using rev_ind; [apply NoDup_nil_2|].
  rewrite nodes_snoc. by do 2 apply NoDup_add_new.
Qed.

Lemma elem_of_nodes E v : v ∈ nodes E ↔ ∃ e, e ∈ E ∧ (v = e.1 ∨ v = e.2).
Proof.
  induction E as [|e E IH] using rev_ind.
  - split; [by intros ?%elem_of_nil | by intros (? & ?%elem_of_nil & _)].
  - rewrite nodes_snoc, !elem_of_add_new, IH. split.
    + intros [[(e' & He' & Hv)| ->]| ->].
      * exists e'. split; [apply elem_of_app; by left | done].
      * exists e. split; [apply elem_of_app; right; by apply list_elem_of_singleton | by right].
      * exists e. split; [apply elem_of_app; right; by apply list_elem_of_singleton | by left].
    + intros (e' & [He'| ->%list_elem_of_singleton]%elem_of_app & Hv).
      * left; left. by exists e'.
      * destruct Hv as [-> | ->]; [by right | left; by right].
Qed.

Lemma register_snoc E e :
  register (E ++ [e]) = add_input_edge (register E) e.1 e.2.
Proof. unfold register. by rewrite foldl_app. Qed.

Lemma register_indeg_keys E : od_keys (input_deg_graph (register E)) = nodes E.
Proof.
  induction E as [|e E IH] using rev_ind; [done|].
  rewrite register_snoc, nodes_snoc. simpl.
  rewrite !dd_update_keys, IH. done.
Qed.

Lemma indegree_not_node E v : v ∉ nodes E → indegree E v = 0%nat.
Proof.
  intros Hn. unfold indegree.
  destruct (filter _ E) as [|e l] eqn:Hf; [done|]. exfalso.
  assert (e ∈ filter (λ e, e.1 = v) E) as [Hv He]%list_elem_of_filter
    by (rewrite Hf; left).
  apply Hn, elem_of_nodes. exists e. split; [done | by left].
Qed.

Lemma register_indeg_get E v :
  od_get (input_deg_graph (register E)) v =
    if decide (v ∈ nodes E) then Some (Z.of_nat (indegree E v)) else None.
Proof.
  revert v. induction E as [|[n i] E IH] using rev_ind; intros v.
  - case_decide as Hin; [by apply elem_of_nil in Hin | done].
  - rewrite register_snoc, nodes_snoc, indegree_snoc. simpl.
    rewrite !dd_update_get, !IH.
    pose proof (elem_of_add_new (add_new (nodes E) i) v n) as H1.
    pose proof (elem_of_add_new (nodes E) v i) as H2.
    pose proof (elem_of_add_new (nodes E) n i) as H3.
    pose proof (indegree_not_node E v) as H4.
    repeat case_decide; simplify_eq/=; try (f_equal; lia); try tauto.
    all: try (exfalso; intuition congruence).
    all: rewrite ?H4 by tauto; f_equal; lia.
Qed.

Lemma successors_not_source E v : v ∉ E.*2 → successors E v = [].
Proof.
  intros Hn. unfold successors.
  destruct (filter _ E) as [|e l] eqn:Hf; [done|]. exfalso.
  assert (e ∈ filter (λ e, e.2 = v) E) as [Hv He]%list_elem_of_filter
    by (rewrite Hf; left).
  apply Hn. subst v. by apply list_elem_of_fmap_2.
Qed.

Lemma register_out_get E v :
  od_get (output_graph (register E)) v =
    if decide (v ∈ E.*2) then Some (successors E v) else None.
Proof.
  revert v. induction E as [|[n i] E IH] using rev_ind; intros v.
  - case_decide as Hin; [by apply elem_of_nil in Hin | done].
  - rewrite register_snoc, successors_snoc, fmap_app. simpl.
    rewrite dd_update_get, !IH.
    pose proof (elem_of_app (E.*2) [i] v) as H1.
    rewrite list_elem_of_singleton in H1.
    pose proof (successors_not_source E v) as H2.
    repeat case_decide; simplify_eq/=; rewrite ?app_nil_r; try done; try tauto.
    all: try (exfalso; intuition congruence).
    by rewrite H2.
Qed.

End graph_facts.

(** ** Kahn's algorithm on a registered graph *)

Section kahn_facts.
Context {Node : Type} `{EqDecision Node}.
Implicit Types (E : list (Node * Node)) (e : Node * Node) (T Q : list Node) (u v : Node).
Implicit Types (ig : list (Node * Z)) (st : sort_state Node).

Lemma occurrences_cons v x l :
  occurrences v (x :: l) = ((if decide (x = v) then 1 else 0) + occurrences v l)%nat.
Proof. unfold occurrences. rewrite filter_cons. by case_decide. Qed.

Lemma occurrences_pos v l : v ∈ l ↔ (0 < occurrences v l)%nat.
Proof.
  induction l as [|x l IH];
    [split; [by intros ?%elem_of_nil | unfold occurrences; simpl; lia]|].
  rewrite occurrences_cons, elem_of_cons. case_decide; subst.
  - split; [lia | by left].
  - rewrite IH. split; [intros [?|?]; [congruence | lia] | right; lia].
Qed.

Lemma remaining_nil E v : remaining E [] v = indegree E v.
Proof.
  unfold remaining, indegree. f_equal. apply list_filter_iff.
  intros e. split; [by intros [? _] | intros ?; split; [done | apply not_elem_of_nil]].
Qed.

Lemma remaining_zero E T v :
  remaining E T v = 0%nat ↔ ∀ e, e ∈ E → e.1 = v → e.2 ∈ T.
Proof.
  unfold remaining. split.
  - intros Hlen e He Hv. destruct (decide (e.2 ∈ T)) as [|Hn]; [done|]. exfalso.
    assert (e ∈ filter (λ e, e.1 = v ∧ e.2 ∉ T) E) as Hin
      by by apply list_elem_of_filter.
    destruct (filter _ E); [by apply elem_of_nil in Hin | done].
  - intros Hall. destruct (filter _ E) as [|e l] eqn:Hf; [done|]. exfalso.
    assert (e ∈ filter (λ e, e.1 = v ∧ e.2 ∉ T) E) as [[Hv Hn] He]%list_elem_of_filter
      by (rewrite Hf; left).
    by apply Hn, Hall.
Qed.

Lemma remaining_snoc E T cur v :
  cur ∉ T →
  remaining E T v = (remaining E (T ++ [cur]) v + occurrences v (successors E cur))%nat.
Proof.
  intros Hcur. unfold remaining, occurrences, successors.
  induction E as [|e E IH]; [done|].
  rewrite !filter_cons.
  pose proof (elem_of_app T [cur] e.2) as Happ.
  rewrite list_elem_of_singleton in Happ.
  repeat case_decide; rewrite ?fmap_cons, ?filter_cons; repeat case_decide;
    cbn [length]; rewrite ?IH; try lia.
  all: exfalso; intuition congruence.
Qed.

Lemma elem_of_successors E u v : v ∈ successors E u ↔ (v, u) ∈ E.
Proof.
  unfold successors. rewrite list_elem_of_fmap. split.
  - intros ([v' u'] & -> & [Hu He]%list_elem_of_filter). simpl in *. by subst.
  - intros He. exists (v, u). split; [done|]. by apply list_elem_of_filter.
Qed.

(** The [for] loop over the successors of the emitted node: every in-degree
    drops by the number of edges from that node, and the successors whose
    in-degree reaches zero are enqueued, once each, in the order they do. *)
Lemma decrease_loop ks (r : Node → nat) outs ig Q :
  od_keys ig = ks →
  (∀ v, v ∈ ks → od_get ig v = Some (Z.of_nat (r v))) →
  (∀ v, v ∈ outs → v ∈ ks) →
  (∀ v, (occurrences v outs ≤ r v)%nat) →
  ∃ ig' newq,
    foldl decrease_indegree (ig, Q) outs = (ig', Q ++ newq) ∧
    od_keys ig' = ks ∧
    (∀ v, v ∈ ks → od_get ig' v = Some (Z.of_nat (r v - occurrences v outs))) ∧
    NoDup newq ∧
    (∀ v, v ∈ newq ↔ v ∈ outs ∧ r v = occurrences v outs).
Proof.
  revert r ig Q. induction outs as [|i t IH]; intros r ig Q Hk Hg Hin Hle.
  - exists ig, []. simpl. rewrite app_nil_r. split_and!; try done.
    + intros v Hv. rewrite Hg by done. do 2 f_equal. unfold occurrences. simpl. lia.
    + apply NoDup_nil_2.
    + intros v. split; [by intros ?%elem_of_nil | by intros [?%elem_of_nil _]].
  - assert (i ∈ ks) as Hi by (apply Hin; left).
    pose proof (Hle i) as Hlei. rewrite occurrences_cons, decide_True in Hlei by done.
    set (ig1 := dd_update 0 (λ n, n - 1) ig i).
    assert (od_keys ig1 = ks) as Hk1.
    { unfold ig1. rewrite dd_update_keys, Hk. by rewrite decide_True. }
    assert (∀ v, v ∈ ks → od_get ig1 v =
              Some (Z.of_nat (if decide (v = i) then r v - 1 else r v))) as Hg1.
    { intros v Hv. unfold ig1. rewrite dd_update_get.
      destruct (decide (i = v)) as [->|Hne].
      - rewrite decide_True by done. rewrite Hg by done. simpl. f_equal. lia.
      - rewrite decide_False by congruence. by apply Hg. }
    set (Q1 := if decide (Z.of_nat (r i - 1) = 0) then Q ++ [i] else Q).
    assert (decrease_indegree (ig, Q) i = (ig1, Q1)) as Hstep.
    { unfold decrease_indegree. simpl. fold ig1.
      erewrite dd_getitem_present; [|by apply Hg1].
      by rewrite (decide_True (P:=i = i)) by done. }
    destruct (IH (λ v, if decide (v = i) then r v - 1 else r v)%nat ig1 Q1)
      as (ig' & newq & Hfold & Hk' & Hg' & Hnd & Hmem); try done.
    { intros v Hv. apply Hin. by right. }
    { intros v. specialize (Hle v). rewrite occurrences_cons in Hle.
      repeat case_decide; simplify_eq; lia. }
    exists ig', ((if decide (Z.of_nat (r i - 1) = 0) then [i] else []) ++ newq).
    split_and!.
    + simpl. rewrite Hstep, Hfold. unfold Q1.
      case_decide; [by rewrite <- app_assoc | done].
    + done.
    + intros v Hv. rewrite Hg' by done. do 2 f_equal.
      rewrite occurrences_cons. repeat case_decide; simplify_eq; lia.
    + apply NoDup_app.
      split_and!; [case_decide; [apply NoDup_singleton | apply NoDup_nil_2] | | done].
      intros v Hv [Hvt Hr]%Hmem.
      destruct (decide (Z.of_nat (r i - 1) = 0)) as [Hz|Hz];
        [|by apply elem_of_nil in Hv].
      apply list_elem_of_singleton in Hv as ->.
      rewrite decide_True in Hr by done.
      apply occurrences_pos in Hvt. lia.
    + intros v. rewrite elem_of_app, Hmem, elem_of_cons, occurrences_cons.
      specialize (Hle v). rewrite occurrences_cons in Hle.
      pose proof (occurrences_pos v t) as Hpos.
      destruct (decide (i = v)) as [->|Hne].
      * rewrite (decide_True (P:=v = v)) by done.
        destruct (decide (Z.of_nat (r v - 1) = 0)) as [Hz|Hz].
        -- rewrite list_elem_of_singleton.
           split; [intros _; split; [by left | lia] | by left].
        -- split.
           ++ intros [?%elem_of_nil|[? ?]]; [done|]. split; [by left | lia].
           ++ intros [_ ?]. right. split; [apply Hpos | ]; lia.
      * rewrite (decide_False (P:=v = i)) by congruence.
        split.
        -- intros [Hv|[? ?]]; [|split; [by right | lia]].
           destruct (decide (Z.of_nat (r i - 1) = 0)) as [Hz|Hz];
             [|by apply elem_of_nil in Hv].
           apply list_elem_of_singleton in Hv. congruence.
        -- intros [[?|?] ?]; [congruence|]. right. split; [done | lia].
Qed.

Lemma sort_step_spec E st cur rest :
  sort_inv E st →
  zero_indegree st = cur :: rest →
  ∃ newq,
    zero_indegree (sort_step cur rest st) = rest ++ newq ∧
    topo_order (sort_step cur rest st) = topo_order st ++ [cur] ∧
    sort_inv E (sort_step cur rest st).
Proof.
  intros [Hk Hg Hnd Hrdy Hond Hok Hoget Hcnt Hord] HQ.
  rewrite HQ in Hnd, Hrdy.
  set (T := topo_order st) in *.
  assert (cur ∈ nodes E ∧ remaining E T cur = 0%nat) as [Hcn Hc0].
  { apply Hrdy. rewrite elem_of_app. right. left. }
  assert (cur ∉ T) as HcT.
  { apply NoDup_app in Hnd as (_ & Hd & _). intros Hin. apply (Hd _ Hin). left. }
  assert (∃ og',
    dd_getitem [] (output_graph (st_dag st)) cur = (successors E cur, og') ∧
    NoDup (od_keys og') ∧
    (∀ v, v ∈ od_keys og' ↔ v ∈ E.*2 ∨ v ∈ T ++ [cur]) ∧
    (∀ v l, od_get og' v = Some l → l = successors E v))
    as (og' & Hread & Hond' & Hok' & Hoget').
  { unfold dd_getitem.
    destruct (od_get (output_graph (st_dag st)) cur) as [l|] eqn:Hl.
    - exists (output_graph (st_dag st)). rewrite (Hoget _ _ Hl).
      split_and!; try done.
      intros v. rewrite Hok, elem_of_app, list_elem_of_singleton.
      split; [tauto|]. intros [?|[?| ->]]; [tauto|tauto|].
      apply Hok. by eapply od_get_Some_keys.
    - apply od_get_None in Hl as Hnk.
      assert (cur ∉ E.*2) as Hns by (intros ?; apply Hnk, Hok; by left).
      exists (output_graph (st_dag st) ++ [(cur, [])]).
      rewrite successors_not_source by done. split_and!; [done|..].
      + unfold od_keys. rewrite fmap_app. apply NoDup_app.
        split_and!; [done| |apply NoDup_singleton].
        intros x Hx ->%list_elem_of_singleton. done.
      + intros v. specialize (Hok v). unfold od_keys in *.
        rewrite fmap_app, !elem_of_app, Hok. simpl. tauto.
      + intros v l. rewrite od_get_app.
        destruct (od_get (output_graph (st_dag st)) v) eqn:Hv.
        * intros [= <-]. by eapply Hoget.
        * simpl. case_decide; [|done]. intros [= <-]. subst.
          by rewrite successors_not_source. }
  destruct (decrease_loop (nodes E) (remaining E T) (successors E cur)
              (input_deg_graph (st_dag st)) rest)
    as (ig' & newq & Hfold & Hk' & Hg' & Hndq & Hmemq); [done|done| | |].
  { intros v Hv%elem_of_successors. apply elem_of_nodes.
    exists (v, cur). split; [done | by left]. }
  { intros v. rewrite (remaining_snoc E T cur v) by done. lia. }
  exists newq. unfold sort_step. rewrite Hread, Hfold. simpl.
  split_and!; [done|done|]. fold T.
  assert (∀ v, remaining E T v =
            (remaining E (T ++ [cur]) v + occurrences v (successors E cur))%nat)
    as Hrem by (intros; by apply remaining_snoc).
  assert ((T ++ [cur]) ++ rest ++ newq = (T ++ cur :: rest) ++ newq) as Heq
    by (by rewrite <- !app_assoc).
  constructor; simpl.
  - done.
  - intros v Hv. rewrite Hg' by done. do 2 f_equal. rewrite (Hrem v). lia.
  - rewrite Heq. apply NoDup_app. split_and!; [done| |done].
    intros x [_ Hx0]%Hrdy [Hxs Hxr]%Hmemq.
    apply occurrences_pos in Hxs. lia.
  - intros v. rewrite Heq, elem_of_app, Hrdy, Hmemq. split.
    + intros [[Hn H0]|[Hs Hr]].
      * split; [done|]. rewrite Hrem in H0. lia.
      * split; [|rewrite Hrem in Hr; lia].
        apply elem_of_successors in Hs. apply elem_of_nodes.
        exists (v, cur). split; [done | by left].
    + intros [Hn H0]. destruct (decide (remaining E T v = 0%nat)) as [|Hne];
        [by left | right].
      rewrite Hrem in Hne |- *. split; [apply occurrences_pos|]; lia.
  - done.
  - done.
  - done.
  - rewrite Hcnt, length_app. simpl. fold T. lia.
  - intros e He [Hin|Hec%list_elem_of_singleton]%elem_of_app.
    + destruct (Hord e He Hin) as (i & j & Hi & Hj & Hij). exists i, j.
      split_and!; [by apply lookup_app_l_Some..|done].
    + assert (e.2 ∈ T) as [i Hi]%list_elem_of_lookup.
      { eapply remaining_zero; [apply Hc0|done..]. }
      rewrite Hec. exists i, (length T). split_and!.
      * by apply lookup_app_l_Some.
      * apply list_lookup_middle. done.
      * by eapply lookup_lt_Some.
Qed.

Lemma od_explicit {V} (d : list (Node * V)) (f : Node → V) :
  NoDup (od_keys d) →
  (∀ k, k ∈ od_keys d → od_get d k = Some (f k)) →
  d = (λ k, (k, f k)) <$> od_keys d.
Proof.
  unfold od_keys. induction d as [|[k0 v0] d IH]; [done|].
  rewrite fmap_cons, NoDup_cons. simpl. intros [Hk0 Hnd] Hget. f_equal.
  - specialize (Hget k0). simpl in Hget. rewrite decide_True in Hget by done.
    f_equal. assert (Some v0 = Some (f k0)) as [= ->]; [apply Hget; left | done].
  - apply IH; [done|]. intros k Hk. specialize (Hget k). simpl in Hget.
    rewrite decide_False in Hget by (intros ->; done). apply Hget. by right.
Qed.

Lemma register_indeg_explicit E :
  input_deg_graph (register E) = (λ v, (v, Z.of_nat (indegree E v))) <$> nodes E.
Proof.
  rewrite <- register_indeg_keys. apply od_explicit.
  - rewrite register_indeg_keys. apply NoDup_nodes.
  - intros k Hk. rewrite register_indeg_get. rewrite register_indeg_keys in Hk.
    by rewrite decide_True.
Qed.

Lemma register_zero E :
  (filter (λ p, p.2 = 0) (input_deg_graph (register E))).*1 = initial_queue E.
Proof.
  rewrite register_indeg_explicit. unfold initial_queue.
  induction (nodes E) as [|v l IH]; [done|].
  rewrite fmap_cons, !filter_cons. simpl.
  destruct (decide (indegree E v = 0%nat)) as [H0|H0].
  - rewrite decide_True by lia. rewrite fmap_cons. simpl. by f_equal.
  - by rewrite decide_False by lia.
Qed.

Lemma register_out_nodup E : NoDup (od_keys (output_graph (register E))).
Proof.
  induction E as [|e E IH] using rev_ind; [apply NoDup_nil_2|].
  rewrite register_snoc. simpl. rewrite dd_update_keys. by apply NoDup_add_new.
Qed.

Lemma sort_inv_init E : sort_inv E (mkState (register E) (initial_queue E) [] 0).
Proof.
  constructor; simpl.
  - apply register_indeg_keys.
  - intros v Hv. by rewrite register_indeg_get, decide_True, remaining_nil.
  - apply NoDup_filter, NoDup_nodes.
  - intros v. unfold initial_queue.
    rewrite list_elem_of_filter, remaining_nil. tauto.
  - apply register_out_nodup.
  - intros v. rewrite <- od_get_is_Some, register_out_get.
    case_decide; split; try tauto.
    + by intros _.
    + by intros [? ?].
    + intros [?|?%elem_of_nil]; done.
  - intros v l. rewrite register_out_get. case_decide; [by intros [= <-] | done].
  - done.
  - by intros e _ ?%elem_of_nil.
Qed.

Lemma sort_inv_bound E st :
  sort_inv E st →
  (length (topo_order st) + length (zero_indegree st) ≤ length (nodes E))%nat.
Proof.
  intros Hinv. rewrite <- length_app. apply submseteq_length, NoDup_submseteq.
  - apply Hinv.
  - intros v Hv. by apply (inv_ready _ _ Hinv).
Qed.

(** The loop terminates within the fuel, keeps the invariant, and emits
    the nodes that were in the queue before anything enqueued later. *)
Lemma sort_loop_spec E fuel st :
  sort_inv E st →
  (length (nodes E) < fuel + length (topo_order st))%nat →
  ∃ st' suffix,
    sort_loop fuel st = Some st' ∧ sort_inv E st' ∧ zero_indegree st' = [] ∧
    topo_order st' = topo_order st ++ zero_indegree st ++ suffix.
Proof.
  revert st. induction fuel as [|fuel IH]; intros st Hinv Hfuel.
  - pose proof (sort_inv_bound _ _ Hinv) as Hb.
    destruct (zero_indegree st) as [|cur rest] eqn:HQ; [|simpl in Hb; lia].
    exists st, []. simpl. rewrite HQ, !app_nil_r. done.
  - destruct (zero_indegree st) as [|cur rest] eqn:HQ.
    + exists st, []. simpl. rewrite HQ, !app_nil_r. done.
    + destruct (sort_step_spec E st cur rest Hinv HQ) as (newq & HQ' & HT' & Hinv').
      destruct (IH _ Hinv') as (st' & suffix & Hrun & Hinv'' & Hempty & HT'').
      { rewrite HT', length_app. simpl. lia. }
      exists st', (newq ++ suffix). simpl. rewrite HQ. split_and!; try done.
      rewrite HT'', HT', HQ', <- !app_assoc. done.
Qed.

Lemma precedes_elem_of_l T u v : precedes T u v → u ∈ T.
Proof. intros (i & j & Hi & _). by eapply list_elem_of_lookup_2. Qed.

Lemma precedes_trans T u v w :
  NoDup T → precedes T u v → precedes T v w → precedes T u w.
Proof.
  intros Hnd (i & j & Hi & Hj & Hij) (j' & k & Hj' & Hk & Hjk).
  assert (j = j') as <- by (by eapply NoDup_lookup).
  exists i, k. split_and!; [done..|lia].
Qed.

Lemma precedes_irrefl T v : NoDup T → ¬ precedes T v v.
Proof.
  intros Hnd (i & j & Hi & Hj & Hij).
  assert (i = j) by (by eapply NoDup_lookup). lia.
Qed.

Lemma sort_inv_topo_nodup E st : sort_inv E st → NoDup (topo_order st).
Proof. intros Hinv. by apply inv_nodup, NoDup_app in Hinv as (? & _). Qed.

Lemma precedes_tc E st u v :
  sort_inv E st → tc (dep E) u v → v ∈ topo_order st →
  precedes (topo_order st) u v.
Proof.
  intros Hinv Htc. induction Htc as [u v Huv|u w v Huw Hwv IH]; intros Hv.
  - by apply (inv_order _ _ Hinv (v, u)).
  - specialize (IH Hv). eapply precedes_trans; [by eapply sort_inv_topo_nodup| |done].
    apply (inv_order _ _ Hinv (w, u)); [done|]. by eapply precedes_elem_of_l.
Qed.

Lemma cycle_not_emitted E st v :
  sort_inv E st → tc (dep E) v v → v ∉ topo_order st.
Proof.
  intros Hinv Htc Hv.
  eapply precedes_irrefl; [by eapply sort_inv_topo_nodup|].
  by eapply precedes_tc.
Qed.

Lemma tc_source E u v : tc (dep E) u v → u ∈ E.*2.
Proof.
  intros Htc. assert (∃ w, dep E u w) as [w Hw] by (destruct Htc; eauto).
  by apply (list_elem_of_fmap_2 snd _ (w, u)).
Qed.

Lemma tc_flip_dep E u v : tc (flip (dep E)) u v → tc (dep E) v u.
Proof.
  induction 1 as [u v Huv|u w v Huw Hwv IH]; [by apply tc_once|].
  eapply tc_r; done.
Qed.

(** Without a cycle, following in-edges backwards from any node ends. *)
Lemma acyclic_Acc E v : ¬ has_cycle E → Acc (dep E) v.
Proof.
  intros Hac.
  apply (tc_finite_sn (R:=flip (dep E)) v).
  - intros x Hx%tc_flip_dep. apply Hac. by exists x.
  - exists (nodes E). intros y Hy%tc_flip_dep.
    assert (∃ w, dep E y w) as [w Hw] by (destruct Hy; eauto).
    apply elem_of_nodes. exists (w, y). split; [done | by right].
Qed.

Lemma acyclic_all_emitted E st v :
  ¬ has_cycle E → sort_inv E st → zero_indegree st = [] →
  v ∈ nodes E → v ∈ topo_order st.
Proof.
  intros Hac Hinv HQ. induction (acyclic_Acc E v Hac) as [v _ IH]. intros Hv.
  pose proof (inv_ready _ _ Hinv v) as Hrdy. rewrite HQ, app_nil_r in Hrdy.
  apply Hrdy. split; [done|]. apply remaining_zero. intros e He Hev.
  apply IH; [unfold dep; by rewrite <- Hev; destruct e|].
  apply elem_of_nodes. exists e. split; [done | by right].
Qed.

(** What the final comparison of [visited_count] with
    [len(self.output_graph.keys())] decides: reading
    [self.output_graph[cur_node]] has made every emitted node a key, so the
    two numbers agree exactly when every node with an out-edge was emitted. *)
Lemma final_check E st :
  sort_inv E st →
  visited_count st = Z.of_nat (length (od_keys (output_graph (st_dag st)))) ↔
  ∀ s, s ∈ E.*2 → s ∈ topo_order st.
Proof.
  intros Hinv. rewrite (inv_count _ _ Hinv).
  pose proof (sort_inv_topo_nodup _ _ Hinv) as HndT.
  pose proof (inv_out_nodup _ _ Hinv) as HndK.
  pose proof (inv_out_keys _ _ Hinv) as Hkeys.
  assert (topo_order st ⊆+ od_keys (output_graph (st_dag st))) as Hsub.
  { apply NoDup_submseteq; [done|]. intros x Hx. apply Hkeys. by right. }
  split.
  - intros Hlen s Hs.
    assert (topo_order st ≡ₚ od_keys (output_graph (st_dag st))) as Hperm
      by (apply submseteq_length_Permutation; [done | lia]).
    rewrite Hperm. apply Hkeys. by left.
  - intros Hall. f_equal. apply Permutation_length, NoDup_Permutation; [done..|].
    intros x. rewrite Hkeys. split; [by right | intros [?|?]; auto].
Qed.

(** The run of [topological_sort] on a registered graph, for any fuel above
    the number of nodes: the loop ends with an empty queue, and the
    function returns the emitted order when every node with an out-edge is
    in it, and raises otherwise. *)
Lemma topological_sort_fuel_run E fuel :
  (length (nodes E) < fuel)%nat →
  ∃ st suffix,
    sort_inv E st ∧ zero_indegree st = [] ∧
    topo_order st = initial_queue E ++ suffix ∧
    topological_sort_fuel fuel (register E) =
      Some (if decide (Forall (λ s, s ∈ topo_order st) (E.*2))
            then Ok (topo_order st) else Raise cycle_error).
Proof.
  intros Hfuel.
  destruct (sort_loop_spec E fuel _ (sort_inv_init E))
    as (st & suffix & Hrun & Hinv & HQ & HT); [simpl; lia|].
  exists st, suffix. split_and!; [done..|].
  unfold topological_sort_fuel. rewrite register_zero, Hrun. simpl.
  pose proof (final_check E st Hinv) as Hchk. rewrite <- Forall_forall in Hchk.
  repeat case_decide; try done; tauto.
Qed.

Lemma topological_sort_fuel_cyclic E fuel :
  (length (nodes E) < fuel)%nat →
  has_cycle E →
  topological_sort_fuel fuel (register E) = Some (Raise cycle_error).
Proof.
  intros Hfuel [v Hv].
  destruct (topological_sort_fuel_run E fuel Hfuel)
    as (st & suffix & Hinv & HQ & HT & ->).
  rewrite decide_False; [done|]. rewrite Forall_forall. intros Hall.
  eapply cycle_not_emitted; [done..|]. by eapply Hall, tc_source.
Qed.

Lemma topological_sort_fuel_acyclic E fuel :
  (length (nodes E) < fuel)%nat →
  ¬ has_cycle E →
  ∃ order,
    topological_sort_fuel fuel (register E) = Some (Ok order) ∧
    order ≡ₚ nodes E ∧
    (∀ e, e ∈ E → precedes order e.2 e.1) ∧
    initial_queue E `prefix_of` order.
Proof.
  intros Hfuel Hac.
  destruct (topological_sort_fuel_run E fuel Hfuel)
    as (st & suffix & Hinv & HQ & HT & ->).
  assert (∀ v, v ∈ nodes E → v ∈ topo_order st) as Hall
    by (intros v; by apply acyclic_all_emitted).
  exists (topo_order st). split_and!.
  - rewrite decide_True; [done|]. apply Forall_forall. intros s Hs.
    apply Hall, elem_of_nodes.
    apply list_elem_of_fmap in Hs as (e & -> & He). exists e. by split; [|right].
  - apply NoDup_Permutation;
      [by eapply sort_inv_topo_nodup | apply NoDup_nodes |].
    intros v. split; [|apply Hall]. intros Hv.
    pose proof (inv_ready _ _ Hinv v) as Hrdy.
    rewrite HQ, app_nil_r in Hrdy. by apply Hrdy.
  - intros e He. apply (inv_order _ _ Hinv e He), Hall, elem_of_nodes.
    exists e. by split; [|left].
  - rewrite HT. by exists suffix.
Qed.

Lemma register_fuel E :
  S (length (input_deg_graph (register E))) = S (length (nodes E)).
Proof. by rewrite <- register_indeg_keys; unfold od_keys; rewrite length_fmap. Qed.

Lemma sort_loop_fuel_irrelevant (fuel1 fuel2 : nat) st st1 st2 :
  sort_loop fuel1 st = Some st1 → sort_loop fuel2 st = Some st2 → st1 = st2.
Proof.
  revert fuel2 st. induction fuel1 as [|fuel1 IH]; intros [|fuel2] st; simpl;
    destruct (zero_indegree st); try congruence. apply IH.
Qed.

(** More fuel than [topological_sort] takes changes nothing. *)
Lemma topological_sort_fuel_enough E fuel :
  (length (nodes E) < fuel)%nat →
  topological_sort_fuel fuel (register E) = topological_sort (register E).
Proof.
  intros Hfuel. unfold topological_sort. rewrite register_fuel.
  unfold topological_sort_fuel. rewrite register_zero.
  destruct (sort_loop_spec E fuel _ (sort_inv_init E))
    as (st & ? & Hrun & _); [simpl; lia|].
  destruct (sort_loop_spec E (S (length (nodes E))) _ (sort_inv_init E))
    as (st' & ? & Hrun' & _); [simpl; lia|].
  rewrite Hrun, Hrun'. by rewrite (sort_loop_fuel_irrelevant _ _ _ _ _ Hrun Hrun').
Qed.

(** In a finite set in which every element has a predecessor inside the
    set, following predecessors must come back to where it started. *)
Lemma cycle_of_predecessors {A} `{EqDecision A} (R : relation A) (S : list A) :
  S ≠ [] →
  (∀ y, y ∈ S → ∃ x, x ∈ S ∧ R x y) →
  ∃ x, tc R x x.
Proof.
  remember (length S) as n eqn:Hn. revert R S Hn.
  induction n as [n IH] using lt_wf_ind. intros R S -> Hne Hpred.
  destruct S as [|v S]; [done|].
  destruct (Hpred v) as (u & Hu & Huv); [left|].
  destruct (decide (u = v)) as [->|Hne_uv]; [exists v; by apply tc_once|].
  set (R' := λ x y, R x y ∨ (R x v ∧ R v y)).
  set (S' := filter (λ x, x ≠ v) (v :: S)).
  assert (u ∈ S') as HuS' by (by apply list_elem_of_filter).
  destruct (IH (length S')) with (R := R') (S := S') as [x Hx]; [|done| | |].
  - apply (length_filter_lt _ _ v); [left | by intros ?].
  - intros HS'. rewrite HS' in HuS'. by apply elem_of_nil in HuS'.
  - intros y [Hyv Hy]%list_elem_of_filter.
    destruct (Hpred y Hy) as (p & Hp & Hpy).
    destruct (decide (p = v)) as [->|Hpv].
    + exists u. split; [done|]. right. done.
    + exists p. split; [by apply list_elem_of_filter | by left].
  - exists x.
    assert (∀ a b, tc R' a b → tc R a b) as Hsub; [|by apply Hsub].
    induction 1 as [a b [Hab|[Hav Hvb]]|a b c [Hab|[Hav Hvb]] _ IHtc].
    + by apply tc_once.
    + eapply tc_l; [done | by apply tc_once].
    + by eapply tc_l.
    + eapply tc_l; [done|]. by eapply tc_l.
Qed.

(** A node with an out-edge that the loop never emitted lies behind a
    cycle. *)
Lemma not_emitted_cycle E st s :
  sort_inv E st → zero_indegree st = [] →
  s ∈ nodes E → s ∉ topo_order st → has_cycle E.
Proof.
  intros Hinv HQ Hs HsT.
  apply (cycle_of_predecessors (dep E)
           (filter (λ v, v ∉ topo_order st) (nodes E))).
  - intros Hnil. assert (s ∈ filter (λ v, v ∉ topo_order st) (nodes E)) as Hin
      by (by apply list_elem_of_filter).
    rewrite Hnil in Hin. by apply elem_of_nil in Hin.
  - intros y [HyT Hy]%list_elem_of_filter.
    pose proof (inv_ready _ _ Hinv y) as Hrdy. rewrite HQ, app_nil_r in Hrdy.
    assert (remaining E (topo_order st) y ≠ 0%nat) as Hrem by (intros ?; apply HyT, Hrdy; done).
    unfold remaining in Hrem.
    destruct (filter _ E) as [|e l] eqn:Hf; [done|].
    assert (e ∈ filter (λ e, e.1 = y ∧ e.2 ∉ topo_order st) E)
      as [[Hey HeT] He]%list_elem_of_filter by (rewrite Hf; left).
    exists e.2. split.
    + apply list_elem_of_filter. split; [done|].
      apply elem_of_nodes. exists e. split; [done | by right].
    + unfold dep. rewrite <- Hey. by destruct e.
Qed.

(** The outcome of [topological_sort] decides whether the registered edges
    contain a cycle. *)
Lemma topological_sort_register_outcome E :
  (has_cycle E ∧ topological_sort (register E) = Some (Raise cycle_error)) ∨
  (¬ has_cycle E ∧ ∃ order, topological_sort (register E) = Some (Ok order)).
Proof.
  rewrite <- (topological_sort_fuel_enough E (S (length (nodes E)))) by lia.
  destruct (topological_sort_fuel_run E (S (length (nodes E))))
    as (st & suffix & Hinv & HQ & HT & ->); [lia|].
  destruct (decide (Forall (λ s, s ∈ topo_order st) E.*2)) as [Hall|Hnall].
  - right. split; [|by eexists]. intros [v Hv].
    eapply cycle_not_emitted; [done..|].
    rewrite Forall_forall in Hall. by eapply Hall, tc_source.
  - left. split; [|done].
    apply not_Forall_Exists in Hnall; [|apply _].
    apply Exists_exists in Hnall as (s & Hs & HsT). simpl in HsT.
    apply (not_emitted_cycle E st s Hinv HQ); [|done].
    apply list_elem_of_fmap in Hs as (e & -> & He).
    apply elem_of_nodes. exists e. split; [done | by right].
Qed.

Lemma topological_sort_register_acyclic E :
  ¬ has_cycle E →
  ∃ order,
    topological_sort (register E) = Some (Ok order) ∧
    order ≡ₚ nodes E ∧
    (∀ e, e ∈ E → precedes order e.2 e.1) ∧
    initial_queue E `prefix_of` order.
Proof.
  intros Hac.
  rewrite <- (topological_sort_fuel_enough E (S (length (nodes E)))) by lia.
  apply topological_sort_fuel_acyclic; [lia | done].
Qed.

Lemma topological_sort_register_cyclic E :
  has_cycle E → topological_sort (register E) = Some (Raise cycle_error).
Proof.
  intros Hc.
  rewrite <- (topological_sort_fuel_enough E (S (length (nodes E)))) by lia.
  apply topological_sort_fuel_cyclic; [lia | done].
Qed.

Lemma sort_turns_inv E k st : sort_inv E st → sort_inv E (sort_turns k st).
Proof.
  revert st. induction k as [|k IH]; intros st Hinv; simpl.
  - by destruct (zero_indegree st).
  - destruct (zero_indegree st) as [|cur rest] eqn:HQ; [done|].
    apply IH. by destruct (sort_step_spec E st cur rest Hinv HQ) as (? & _ & _ & ?).
Qed.

Lemma sort_loop_turns fuel k st st' :
  sort_loop fuel st = Some st' →
  ∃ fuel', sort_loop fuel' (sort_turns k st) = Some st'.
Proof.
  revert fuel st. induction k as [|k IH]; intros fuel st Hrun; simpl.
  - exists fuel. by destruct (zero_indegree st).
  - destruct (zero_indegree st) as [|cur rest] eqn:HQ.
    + exists fuel. done.
    + destruct fuel as [|fuel]; simpl in Hrun; rewrite HQ in Hrun; [done|].
      by eapply IH.
Qed.

(** First in, first out: whatever the turn, the nodes then in the queue
    are the next to be emitted, in the order of the queue. *)
Lemma topological_sort_fifo_turns E k order :
  topological_sort (register E) = Some (Ok order) →
  ∃ suffix,
    order = topo_order (sort_turns k (sort_start E))
            ++ zero_indegree (sort_turns k (sort_start E)) ++ suffix.
Proof.
  unfold topological_sort, topological_sort_fuel. rewrite register_zero.
  fold (sort_start E).
  destruct (sort_loop _ (sort_start E)) as [st'|] eqn:Hrun; [|done]. simpl.
  case_decide; [done|]. intros [= <-].
  destruct (sort_loop_turns _ k _ _ Hrun) as [fuel' Hrun'].
  pose proof (sort_turns_inv E k _ (sort_inv_init E)) as Hinv.
  destruct (sort_loop_spec E (fuel' + S (length (nodes E))) _ Hinv)
    as (st'' & suffix & Hrun'' & _ & _ & HT); [lia|].
  rewrite (sort_loop_fuel_irrelevant _ _ _ _ _ Hrun' Hrun''). by exists suffix.
Qed.

(** The [for] loop over the successors of the emitted node appends to the
    queue the successors whose in-degree it brings to zero, each where its
    last edge stands. *)
Lemma decrease_loop_order ks (r : Node → nat) outs ig Q :
  od_keys ig = ks →
  (∀ v, v ∈ ks → od_get ig v = Some (Z.of_nat (r v))) →
  (∀ v, v ∈ outs → v ∈ ks) →
  (∀ v, (occurrences v outs ≤ r v)%nat) →
  (foldl decrease_indegree (ig, Q) outs).2 =
    Q ++ filter (λ v, r v = occurrences v outs) (remove_dups outs).
Proof.
  revert r ig Q. induction outs as [|i t IH]; intros r ig Q Hk Hg Hin Hle.
  - simpl. by rewrite app_nil_r.
  - assert (i ∈ ks) as Hi by (apply Hin; left).
    pose proof (Hle i) as Hlei. rewrite occurrences_cons, decide_True in Hlei by done.
    set (ig1 := dd_update 0 (λ n, n - 1) ig i).
    assert (od_keys ig1 = ks) as Hk1.
    { unfold ig1. rewrite dd_update_keys, Hk. by rewrite decide_True. }
    assert (∀ v, v ∈ ks → od_get ig1 v =
              Some (Z.of_nat (if decide (v = i) then r v - 1 else r v))) as Hg1.
    { intros v Hv. unfold ig1. rewrite dd_update_get.
      destruct (decide (i = v)) as [->|Hne].
      - rewrite decide_True by done. rewrite Hg by done. simpl. f_equal. lia.
      - rewrite decide_False by congruence. by apply Hg. }
    set (Q1 := if decide (Z.of_nat (r i - 1) = 0) then Q ++ [i] else Q).
    assert (decrease_indegree (ig, Q) i = (ig1, Q1)) as Hstep.
    { unfold decrease_indegree. simpl. fold ig1.
      erewrite dd_getitem_present; [|by apply Hg1].
      by rewrite (decide_True (P:=i = i)) by done. }
    cbn [foldl]. rewrite Hstep.
    rewrite (IH (λ v, if decide (v = i) then r v - 1 else r v)%nat ig1 Q1 Hk1 Hg1).
    2:{ intros v Hv. apply Hin. by right. }
    2:{ intros v. specialize (Hle v). rewrite occurrences_cons in Hle.
        repeat case_decide; simplify_eq; lia. }
    assert (filter (λ v, (if decide (v = i) then r v - 1 else r v)%nat = occurrences v t)
              (remove_dups t)
            = filter (λ v, r v = occurrences v (i :: t)) (remove_dups t)) as ->.
    { apply list_filter_iff. intros v. rewrite occurrences_cons.
      specialize (Hle v). rewrite occurrences_cons in Hle.
      repeat case_decide; simplify_eq; lia. }
    cbn [remove_dups]. unfold Q1.
    pose proof (occurrences_pos i t) as Hpos.
    destruct (decide_rel elem_of i t) as [Hit|Hit].
    + rewrite decide_False; [done|]. apply Hpos in Hit. lia.
    + rewrite filter_cons, occurrences_cons, (decide_True (P:=i = i)) by done.
      assert (occurrences i t = 0%nat) as ->.
      { destruct (occurrences i t) eqn:Hocc; [done|]. exfalso. apply Hit, Hpos. lia. }
      destruct (decide (Z.of_nat (r i - 1) = 0)) as [Hz|Hz].
      * rewrite decide_True by lia. by rewrite <- app_assoc.
      * by rewrite decide_False by lia.
Qed.

Lemma sort_step_released E st cur rest :
  sort_inv E st →
  zero_indegree st = cur :: rest →
  zero_indegree (sort_step cur rest st) = rest ++ released E (topo_order st) cur.
Proof.
  intros Hinv HQ.
  pose proof (inv_nodup _ _ Hinv) as Hnd. pose proof (inv_ready _ _ Hinv) as Hrdy.
  rewrite HQ in Hnd, Hrdy.
  set (T := topo_order st) in *.
  assert (cur ∉ T) as HcT.
  { apply NoDup_app in Hnd as (_ & Hd & _). intros Hin. apply (Hd _ Hin). left. }
  assert ((dd_getitem [] (output_graph (st_dag st)) cur).1 = successors E cur) as Hread.
  { unfold dd_getitem.
    destruct (od_get (output_graph (st_dag st)) cur) as [l|] eqn:Hl; simpl.
    - by apply (inv_out_get _ _ Hinv cur).
    - apply od_get_None in Hl. rewrite successors_not_source; [done|].
      intros Hs. apply Hl, (inv_out_keys _ _ Hinv). by left. }
  unfold sort_step.
  destruct (dd_getitem [] (output_graph (st_dag st)) cur) as [outs og]. simpl in Hread.
  subst outs.
  pose proof (decrease_loop_order (nodes E) (remaining E T) (successors E cur)
                (input_deg_graph (st_dag st)) rest (inv_keys _ _ Hinv)
                (inv_indeg _ _ Hinv)) as Hloop.
  destruct (foldl decrease_indegree _ _) as [ig' queue]. simpl in *.
  rewrite Hloop.
  - f_equal. unfold released. apply list_filter_iff. intros v.
    rewrite (remaining_snoc E T cur v) by done. lia.
  - intros v Hv%elem_of_successors. apply elem_of_nodes.
    exists (v, cur). split; [done | by left].
  - intros v. rewrite (remaining_snoc E T cur v) by done. lia.
Qed.

Lemma released_by_turns_snoc E T u :
  released_by_turns E (T ++ [u]) = released_by_turns E T ++ released E T u.
Proof.
  unfold released_by_turns. rewrite imap_app, concat_app. f_equal.
  - f_equal. apply imap_ext. intros i v Hi. simpl.
    rewrite take_app_le; [done|]. apply lookup_lt_Some in Hi. lia.
  - simpl. rewrite Nat.add_0_r, app_nil_r, take_app_length. done.
Qed.

(** The loop keeps the emitted nodes and the queue together equal to the
    seed followed by what the turns so far have appended. *)
Lemma sort_loop_released E fuel st st' :
  sort_inv E st →
  topo_order st ++ zero_indegree st
    = initial_queue E ++ released_by_turns E (topo_order st) →
  sort_loop fuel st = Some st' →
  topo_order st' = initial_queue E ++ released_by_turns E (topo_order st').
Proof.
  revert st. induction fuel as [|fuel IH]; intros st Hinv Heq; simpl;
    destruct (zero_indegree st) as [|cur rest] eqn:HQ; try done.
  - intros [= <-]. by rewrite app_nil_r in Heq.
  - intros [= <-]. by rewrite app_nil_r in Heq.
  - destruct (sort_step_spec E st cur rest Hinv HQ) as (newq & _ & HT' & Hinv').
    apply IH; [done|].
    rewrite (sort_step_released E st cur rest Hinv HQ), HT', released_by_turns_snoc.
    rewrite !app_assoc, <- Heq. by rewrite <- !app_assoc.
Qed.

Lemma topological_sort_released E order :
  topological_sort (register E) = Some (Ok order) →
  order = initial_queue E ++ released_by_turns E order.
Proof.
  unfold topological_sort, topological_sort_fuel. rewrite register_zero.
  destruct (sort_loop _ _) as [st'|] eqn:Hrun; [|done]. simpl.
  case_decide; [done|]. intros [= <-].
  apply (sort_loop_released E _ _ _ (sort_inv_init E)) in Hrun; [done|].
  simpl. unfold released_by_turns. simpl. by rewrite app_nil_r.
Qed.

End kahn_facts.

(** ** The sort does not look at names *)

Section rename_facts.
Context {Node M : Type} `{EqDecision Node} `{EqDecision M}.
Context (f : Node → M) `{!Inj (=) (=) f}.

Lemma od_get_rename {V W} (g : V → W) (d : list (Node * V)) k :
  od_get (rename_dict f g d) (f k) = g <$> od_get d k.
Proof.
  unfold rename_dict. induction d as [|[k' v] d IH]; [done|].
  rewrite fmap_cons. simpl.
  destruct (decide (k' = k)) as [->|Hne].
  - by rewrite decide_True.
  - rewrite decide_False; [done|]. by intros ?%(inj f).
Qed.

Lemma od_replace_rename {V W} (g : V → W) (d : list (Node * V)) k v :
  od_replace (rename_dict f g d) (f k) (g v) = rename_dict f g (od_replace d k v).
Proof.
  unfold rename_dict. induction d as [|[k' v'] d IH]; [done|].
  rewrite fmap_cons. simpl.
  destruct (decide (k' = k)) as [->|Hne].
  - by rewrite decide_True.
  - rewrite decide_False by (by intros ?%(inj f)). rewrite fmap_cons. by f_equal.
Qed.

Lemma od_setitem_rename {V W} (g : V → W) (d : list (Node * V)) k v :
  od_setitem (rename_dict f g d) (f k) (g v) = rename_dict f g (od_setitem d k v).
Proof.
  unfold od_setitem. rewrite od_get_rename.
  destruct (od_get d k); simpl; [apply od_replace_rename|].
  unfold rename_dict. by rewrite fmap_app.
Qed.

Lemma dd_getitem_rename {V W} (g : V → W) dflt (d : list (Node * V)) k :
  dd_getitem (g dflt) (rename_dict f g d) (f k) =
    prod_map g (rename_dict f g) (dd_getitem dflt d k).
Proof.
  unfold dd_getitem. rewrite od_get_rename.
  destruct (od_get d k); simpl; [done|].
  unfold rename_dict. by rewrite fmap_app.
Qed.

Lemma dd_update_rename {V W} (g : V → W) dflt (h : V → V) (h' : W → W)
    (d : list (Node * V)) k :
  (∀ v, h' (g v) = g (h v)) →
  dd_update (g dflt) h' (rename_dict f g d) (f k) =
    rename_dict f g (dd_update dflt h d k).
Proof.
  intros Hh. unfold dd_update. rewrite dd_getitem_rename.
  destruct (dd_getitem dflt d k) as [v d1]. simpl.
  by rewrite Hh, od_setitem_rename.
Qed.

Lemma add_input_edge_rename (g : PipelineDAG Node) node input_node :
  add_input_edge (rename_dag f g) (f node) (f input_node) =
    rename_dag f (add_input_edge g node input_node).
Proof.
  unfold add_input_edge, rename_dag. simpl. f_equal.
  - change 0 with (Datatypes.id 0) at 1 2.
    rewrite (dd_update_rename Datatypes.id 0 (λ n, n + 0) (λ n, n + 0)) by done.
    by rewrite (dd_update_rename Datatypes.id 0 (λ n, n + 1) (λ n, n + 1)) by done.
  - change (@nil M) with (f <$> @nil Node).
    apply (dd_update_rename (fmap f) [] (λ l, l ++ [node])).
    intros l. by rewrite fmap_app.
Qed.

Lemma register_rename (E : list (Node * Node)) :
  register (prod_map f f <$> E) = rename_dag f (register E).
Proof.
  induction E as [|e E IH] using rev_ind; [done|].
  rewrite fmap_app.
  change (prod_map f f <$> [e]) with [prod_map f f e].
  rewrite !register_snoc, IH. destruct e. apply add_input_edge_rename.
Qed.

Lemma decrease_indegree_rename (ig : list (Node * Z)) (queue : list Node) i :
  decrease_indegree (rename_dict f Datatypes.id ig, f <$> queue) (f i) =
    prod_map (rename_dict f Datatypes.id) (fmap f) (decrease_indegree (ig, queue) i).
Proof.
  unfold decrease_indegree. simpl.
  change 0 with (Datatypes.id 0) at 1 2.
  rewrite (dd_update_rename Datatypes.id 0 (λ n, n - 1) (λ n, n - 1)) by done.
  rewrite dd_getitem_rename.
  destruct (dd_getitem 0 _ i) as [v ig']. simpl.
  case_decide; [|done]. by rewrite fmap_app.
Qed.

Lemma decrease_loop_rename (outs : list Node) (ig : list (Node * Z)) (queue : list Node) :
  foldl decrease_indegree (rename_dict f Datatypes.id ig, f <$> queue) (f <$> outs) =
    prod_map (rename_dict f Datatypes.id) (fmap f) (foldl decrease_indegree (ig, queue) outs).
Proof.
  revert ig queue. induction outs as [|i outs IH]; intros ig queue; [done|].
  rewrite fmap_cons. simpl. rewrite decrease_indegree_rename.
  destruct (decrease_indegree (ig, queue) i) as [ig' queue']. apply IH.
Qed.

Lemma sort_step_rename cur rest (st : sort_state Node) :
  sort_step (f cur) (f <$> rest) (rename_state f st) =
    rename_state f (sort_step cur rest st).
Proof.
  unfold sort_step. simpl.
  change (@nil M) with (f <$> @nil Node). rewrite dd_getitem_rename.
  destruct (dd_getitem [] (output_graph (st_dag st)) cur) as [outs og]. simpl.
  rewrite decrease_loop_rename.
  destruct (foldl decrease_indegree _ outs) as [ig queue]. simpl.
  unfold rename_state. simpl. by rewrite fmap_app.
Qed.

Lemma sort_loop_rename fuel (st : sort_state Node) :
  sort_loop fuel (rename_state f st) = rename_state f <$> sort_loop fuel st.
Proof.
  revert st. induction fuel as [|fuel IH]; intros st.
  - change (sort_loop 0 (rename_state f st))
      with (match f <$> zero_indegree st with
            | [] => Some (rename_state f st)
            | _ :: _ => None
            end).
    change (sort_loop 0 st)
      with (match zero_indegree st with [] => Some st | _ :: _ => None end).
    by destruct (zero_indegree st).
  - change (sort_loop (S fuel) (rename_state f st))
      with (match f <$> zero_indegree st with
            | [] => Some (rename_state f st)
            | cur :: rest => sort_loop fuel (sort_step cur rest (rename_state f st))
            end).
    change (sort_loop (S fuel) st)
      with (match zero_indegree st with
            | [] => Some st
            | cur :: rest => sort_loop fuel (sort_step cur rest st)
            end).
    destruct (zero_indegree st) as [|cur rest]; [done|].
    rewrite fmap_cons, sort_step_rename. apply IH.
Qed.

Lemma topological_sort_rename (g : PipelineDAG Node) :
  topological_sort (rename_dag f g) = rename_result f <$> topological_sort g.
Proof.
  unfold topological_sort, topological_sort_fuel.
  cbn [input_deg_graph rename_dag].
  assert ((filter (λ p, p.2 = 0) (rename_dict f Datatypes.id (input_deg_graph g))).*1 =
          f <$> (filter (λ p, p.2 = 0) (input_deg_graph g)).*1) as ->.
  { unfold rename_dict. induction (input_deg_graph g) as [|[k v] d IH]; [done|].
    rewrite fmap_cons, !filter_cons. simpl.
    case_decide; [|done]. rewrite !fmap_cons. simpl. by f_equal. }
  unfold rename_dict at 1. rewrite length_fmap.
  set (zero := (filter (λ p, p.2 = 0) (input_deg_graph g)).*1).
  change (mkState (rename_dag f g) (f <$> zero) [] 0)
    with (rename_state f (mkState g zero [] 0)).
  rewrite sort_loop_rename.
  destruct (sort_loop _ (mkState g zero [] 0)) as [st|]; [|done].
  cbn [fmap option_fmap option_map mbind option_bind rename_state
       visited_count st_dag output_graph rename_dag topo_order].
  unfold od_keys, rename_dict. rewrite !length_fmap.
  by case_decide.
Qed.

End rename_facts.

(** ** [topo_sort_pipeline] on a pipeline *)

Lemma add_operator_edges_register g op :
  add_operator_edges g op =
    foldl (λ g e, add_input_edge g e.1 e.2) g (operator_edges op).
Proof.
  unfold add_operator_edges, operator_edges. revert g.
  induction (inputs op) as [|b l IH]; intros g; simpl; [done|].
  destruct (binding_source b); simpl; apply IH.
Qed.

Lemma build_dag_register operators :
  build_dag operators = register (pipeline_edges operators).
Proof.
  unfold build_dag, register, pipeline_edges. generalize (@PipelineDAG_init string).
  induction operators as [|op ops IH]; intros g; simpl; [done|].
  rewrite foldl_app, <- add_operator_edges_register. apply IH.
Qed.

Lemma elem_of_pipeline_edges operators e :
  e ∈ pipeline_edges operators ↔
  ∃ op b, op ∈ operators ∧ b ∈ inputs op ∧ e.1 = name op ∧
          binding_source b = Some e.2.
Proof.
  unfold pipeline_edges, operator_edges. rewrite list_elem_of_bind. split.
  - intros (op & (b & Hb & Hsrc)%list_elem_of_omap & Hop).
    destruct (binding_source b) as [src|] eqn:Hs; simplify_eq/=.
    by exists op, b.
  - intros (op & b & Hop & Hb & Hn & Hs). exists op. split; [|done].
    apply list_elem_of_omap. exists b. split; [done|]. rewrite Hs. simpl.
    by destruct e; simplify_eq/=.
Qed.

Lemma op_dict_snoc operators op :
  op_dict (operators ++ [op]) = <[name op := op]> (op_dict operators).
Proof. unfold op_dict. by rewrite foldl_app. Qed.

Lemma op_dict_lookup_Some operators n op :
  op_dict operators !! n = Some op → op ∈ operators ∧ name op = n.
Proof.
  induction operators as [|x ops IH] using rev_ind; [done|].
  rewrite op_dict_snoc, lookup_insert. case_decide.
  - intros [= <-]. split; [|done]. apply elem_of_app. right. left.
  - intros [? ?]%IH. split; [|done]. apply elem_of_app. by left.
Qed.

Lemma op_dict_lookup_unique operators op :
  NoDup (name <$> operators) → op ∈ operators →
  op_dict operators !! name op = Some op.
Proof.
  induction operators as [|x ops IH] using rev_ind; [by intros _ ?%elem_of_nil|].
  rewrite fmap_app, NoDup_app, op_dict_snoc. intros (Hnd & Hdis & _).
  intros [Hin| ->%list_elem_of_singleton]%elem_of_app.
  - rewrite lookup_insert_ne; [by apply IH|]. intros Heq.
    apply (Hdis (name op)); [by apply list_elem_of_fmap_2|]. rewrite <- Heq. left.
  - by rewrite lookup_insert_eq.
Qed.

Lemma lookup_operators_Ok d sequence out :
  lookup_operators d sequence = Ok out ↔
  Forall2 (λ n op, d !! n = Some op) sequence out.
Proof.
  revert out. induction sequence as [|n l IH]; intros out; simpl.
  - split; [intros [= <-]; constructor | by intros ->%Forall2_nil_inv_l].
  - destruct (d !! n) as [op|] eqn:Hn.
    + destruct (lookup_operators d l) as [ops|] eqn:Hl.
      * split.
        -- intros [= <-]. constructor; [done | by apply IH].
        -- intros (op' & ops' & Hop & Hops & ->)%Forall2_cons_inv_l.
           apply IH in Hops. by simplify_eq.
      * split; [done|].
        intros (op' & ops' & Hop & Hops%IH & ->)%Forall2_cons_inv_l. done.
    + split; [done|].
      intros (op' & ops' & Hop & _)%Forall2_cons_inv_l. congruence.
Qed.

Lemma lookup_operators_total d sequence :
  (∀ n, n ∈ sequence → is_Some (d !! n)) →
  ∃ out, lookup_operators d sequence = Ok out.
Proof.
  induction sequence as [|n l IH]; intros Hall; simpl; [by eexists|].
  destruct (Hall n) as [op ->]; [left|].
  destruct IH as [out ->]; [intros; apply Hall; by right|]. by eexists.
Qed.

(** Looking up a rearrangement of the operators' names, when the names are
    distinct, gives back the operators, rearranged the same way. *)
Lemma lookup_operators_Permutation operators sequence out :
  NoDup (name <$> operators) →
  sequence ≡ₚ name <$> operators →
  lookup_operators (op_dict operators) sequence = Ok out →
  name <$> out = sequence ∧ out ≡ₚ operators.
Proof.
  intros Hnd Hperm Hlook%lookup_operators_Ok.
  assert (name <$> out = sequence) as Hnames.
  { clear Hperm. induction Hlook as [|n op l out' Hn _ IH]; [done|].
    rewrite fmap_cons, IH. by apply op_dict_lookup_Some in Hn as [_ ->]. }
  split; [done|].
  apply NoDup_Permutation.
  - apply (NoDup_fmap_1 name). by rewrite Hnames, Hperm.
  - by apply (NoDup_fmap_1 name).
  - intros op. split.
    + intros Hop. apply list_elem_of_lookup in Hop as [i Hi].
      destruct (Forall2_lookup_r _ _ _ _ _ Hlook Hi) as (n & _ & Hn).
      by apply op_dict_lookup_Some in Hn as [? _].
    + intros Hop.
      assert (name op ∈ sequence) as [i Hi]%list_elem_of_lookup
        by (rewrite Hperm; by apply list_elem_of_fmap_2).
      destruct (Forall2_lookup_l _ _ _ _ _ Hlook Hi) as (op' & Hop' & Hn).
      rewrite op_dict_lookup_unique in Hn by done. simplify_eq.
      by eapply list_elem_of_lookup_2.
Qed.

Lemma topo_sort_pipeline_returns operators :
  ∃ r, topo_sort_pipeline operators = Some r.
Proof.
  unfold topo_sort_pipeline. case_decide; [by eexists|].
  rewrite build_dag_register.
  destruct (topological_sort_register_outcome (pipeline_edges operators))
    as [[_ ->]|[_ [order ->]]]; by eexists.
Qed.

Lemma topo_sort_pipeline_sorts operators :
  NoDup (name <$> operators) →
  from_closed operators →
  length operators = 1%nat ∨ well_connected operators →
  ¬ has_cycle (pipeline_edges operators) →
  ∃ out,
    topo_sort_pipeline operators = Some (Ok out) ∧
    out ≡ₚ operators ∧
    dependencies_first out.
Proof.
  intros Hnd Hclosed Hconn Hac. unfold topo_sort_pipeline.
  destruct (decide (length operators = 1%nat)) as [Hone|Hmany].
  - exists operators. split_and!; [done..|].
    destruct operators as [|op [|]]; simplify_eq/=.
    intros op' b src ->%list_elem_of_singleton Hb Hsrc. exfalso.
    assert ((name op, src) ∈ pipeline_edges [op]) as He.
    { apply elem_of_pipeline_edges. exists op, b. split_and!; [left | done..]. }
    apply Hclosed in He as Hs. simpl in Hs. apply list_elem_of_singleton in Hs as ->.
    apply Hac. exists (name op). by apply tc_once.
  - destruct Hconn as [?|Hconn]; [done|].
    rewrite build_dag_register.
    destruct (topological_sort_register_acyclic _ Hac) as (order & -> & Hperm & Hord & _).
    assert (order ≡ₚ name <$> operators) as Hnames.
    { rewrite Hperm. apply NoDup_Permutation; [apply NoDup_nodes | done |].
      intros n. split.
      - intros (e & He & [-> | ->])%elem_of_nodes; [|by apply Hclosed].
        apply elem_of_pipeline_edges in He as (op & _ & Hop & _ & -> & _).
        by apply list_elem_of_fmap_2.
      - intros (op & -> & Hop)%list_elem_of_fmap. by apply Hconn. }
    destruct (lookup_operators_total (op_dict operators) order) as [out Hout].
    { intros n Hn. rewrite Hnames in Hn.
      apply list_elem_of_fmap in Hn as (op & -> & Hop).
      rewrite op_dict_lookup_unique by done. by eexists. }
    destruct (lookup_operators_Permutation _ _ _ Hnd Hnames Hout) as [Hno Hpo].
    exists out. split_and!; [by rewrite Hout | done |].
    intros op b src Hop Hb Hsrc. rewrite Hno.
    apply (Hord (name op, src)), elem_of_pipeline_edges.
    exists op, b. split_and!; [by rewrite <- Hpo | done..].
Qed.

(** ** The metrics computation *)

Lemma float_nonpos_not_pos (x : float) :
  (x <=? 0)%float = true → (0 <? x)%float = false.
Proof.
  rewrite leb_spec, ltb_spec. change (Prim2SF 0) with (S754_zero false).
  destruct (Prim2SF x) as [s|s| |s m e]; try destruct s; cbn; congruence.
Qed.

(** A delta in nanoseconds that is not positive is not positive in seconds
    either, whatever its magnitude. *)
Lemma float_nonpos_div_NS_PER_S (x : float) :
  (x <=? 0)%float = true → (0 <? x / NS_PER_S)%float = false.
Proof.
  rewrite leb_spec, ltb_spec, div_spec.
  change (Prim2SF 0) with (S754_zero false).
  change (Prim2SF NS_PER_S) with (S754_finite false 8388608000000000 (-23)).
  destruct (Prim2SF x) as [s|s| |s m e]; try destruct s; cbn; try congruence.
  intros _. unfold SF64div, SFdiv.
  destruct (SFdiv_core_binary _ _ _ _ _ _) as [[mz ez] lz].
  unfold binary_round_aux.
  destruct (shr_fexp _ _ mz ez lz) as [mrs' e'].
  destruct (shr_fexp _ _ _ e' _) as [mrs'' e''].
  destruct (shr_m mrs'') as [|q|q]; [done| |done].
  by destruct (e'' <=? emax - prec)%Z.
Qed.

(** Rounding keeps the sign of a magnitude. *)
Lemma shr_1_nonneg (mrs : shr_record) : 0 ≤ shr_m mrs → 0 ≤ shr_m (shr_1 mrs).
Proof. destruct mrs as [[|[p|p|]|p] r s]; simpl; lia. Qed.

Lemma iter_pos_shr_1_nonneg (p : positive) (mrs : shr_record) :
  0 ≤ shr_m mrs → 0 ≤ shr_m (SpecFloat.iter_pos shr_1 p mrs).
Proof.
  revert mrs. induction p as [p IH|p IH|]; intros mrs Hm; simpl.
  - by apply IH, IH, shr_1_nonneg.
  - by apply IH, IH.
  - by apply shr_1_nonneg.
Qed.

Lemma shr_fexp_nonneg (m e : Z) (l : location) :
  0 ≤ m → 0 ≤ shr_m (shr_fexp prec emax m e l).1.
Proof.
  intros Hm. unfold shr_fexp, shr.
  assert (0 ≤ shr_m (shr_record_of_loc m l)) as Hrec by (by destruct l as [|[]]).
  destruct (_ - e); simpl; [done| |done]. by apply iter_pos_shr_1_nonneg.
Qed.

Lemma round_nearest_even_nonneg (m : Z) (l : location) :
  0 ≤ m → 0 ≤ round_nearest_even m l.
Proof.
  intros Hm. destruct l as [|[]]; simpl; [done| |done|lia].
  destruct (IntDef.Z.even m); lia.
Qed.

(** Rounding a magnitude gives a zero, a finite float or an infinity of the
    given sign. *)
Lemma binary_round_aux_sign (sx : bool) (mx ex : Z) (lx : location) :
  0 ≤ mx →
  binary_round_aux prec emax sx mx ex lx = S754_zero sx ∨
  binary_round_aux prec emax sx mx ex lx = S754_infinity sx ∨
  ∃ m e, binary_round_aux prec emax sx mx ex lx = S754_finite sx m e.
Proof.
  intros Hm. unfold binary_round_aux.
  pose proof (shr_fexp_nonneg mx ex lx Hm) as H1.
  destruct (shr_fexp prec emax mx ex lx) as [mrs' e']. simpl in H1.
  pose proof (shr_fexp_nonneg _ e' loc_Exact
                (round_nearest_even_nonneg _ (loc_of_shr_record mrs') H1)) as H2.
  destruct (shr_fexp prec emax (round_nearest_even _ _) e' loc_Exact) as [mrs'' e''].
  simpl in H2. destruct (shr_m mrs'') as [|q|q]; [by left| |lia].
  destruct (e'' <=? emax - prec); [right; right; by eexists _, _ | right; by left].
Qed.

Lemma SFdiv_core_binary_nonneg (m1 m2 : positive) (e1 e2 : Z) :
  0 ≤ (SFdiv_core_binary prec emax (Z.pos m1) e1 (Z.pos m2) e2).1.1.
Proof.
  unfold SFdiv_core_binary.
  set (s := _ - _ - _).
  set (m' := match s with 0 => Z.pos m1 | Z.pos _ => _ | Z.neg _ => 0 end).
  assert (0 ≤ m') as Hm'.
  { unfold m'. destruct s; [lia| |lia]. apply Z.shiftl_nonneg. lia. }
  pose proof (Z_div_mod m' (Z.pos m2) eq_refl) as Hdiv.
  change IntDef.Z.div_eucl with Z.div_eucl.
  destruct (Z.div_eucl m' (Z.pos m2)) as [q r]. simpl. nia.
Qed.

(** A positive delta in nanoseconds is positive in seconds, or so small
    that it becomes 0. *)
Lemma float_pos_div_NS_PER_S (x : float) :
  (0 <? x)%float = true →
  (0 <? x / NS_PER_S)%float = true ∨ (x / NS_PER_S)%float = 0%float.
Proof.
  rewrite !ltb_spec. intros Hx.
  assert (Prim2SF (x / NS_PER_S) = S754_zero false ∨
          Prim2SF (x / NS_PER_S) = S754_infinity false ∨
          ∃ m e, Prim2SF (x / NS_PER_S) = S754_finite false m e) as Hq.
  { rewrite div_spec.
    change (Prim2SF NS_PER_S) with (S754_finite false 8388608000000000 (-23)).
    change (Prim2SF 0) with (S754_zero false) in Hx.
    destruct (Prim2SF x) as [s|s| |s m e]; try destruct s; try done.
    - right. by left.
    - unfold SF64div, SFdiv.
      pose proof (SFdiv_core_binary_nonneg m 8388608000000000 e (-23)) as Hnn.
      destruct (SFdiv_core_binary _ _ _ _ _ _) as [[mz ez] lz]. simpl in Hnn.
      by apply binary_round_aux_sign. }
  change (Prim2SF 0) with (S754_zero false).
  destruct Hq as [Hq|[Hq|(m & e & Hq)]]; rewrite ?Hq.
  - right. by apply Prim2SF_inj.
  - by left.
  - by left.
Qed.

Lemma float_zero_quotient (s n : float) :
  (0 <? s)%float = true → finite_nonneg n →
  (0 / s * n * 100)%float = 0%float.
Proof.
  rewrite ltb_spec. change (Prim2SF 0) with (S754_zero false). intros Hs Hn.
  apply Prim2SF_inj. rewrite !mul_spec, div_spec.
  change (Prim2SF 0) with (S754_zero false).
  change (Prim2SF 100) with (S754_finite false 7036874417766400 (-46)).
  destruct (Prim2SF s) as [[]|[]| |[] ms es]; try done;
    destruct Hn as [->|(m & e & ->)]; done.
Qed.

(** C2, as the spec states its example: with the host-CPU delta written 0.60
    the expected [cpu_percent] is not the float the code computes. The code
    subtracts 14000000.00 from 14000000.60 in binary64, which gives
    0.59999999962747097, and divides by that. *)
Lemma process_raw_data_example_not_exact :
  cpu_percent (_process_raw_data 4 raw_first raw_second)
    ≠ ((1000000 - 800000) / 1e9 / 0.60 * 4 * 100)%float.
Proof.
  intros Heq. apply (f_equal Prim2SF) in Heq. vm_compute in Heq. discriminate.
Qed.

(** C2 (amended): [_process_raw_data] computes the midpoint timestamp, the
    mean memory in MB, and a [cpu_percent] that is 0 whenever the container
    delta (in nanoseconds or in seconds) or the host delta is not positive,
    a nan included, and the stated quotient when both are positive (the
    container delta in seconds, or in nanoseconds for a core count whose
    float is finite and not negative); on the two samples of the example,
    with 4 cores, the result is timestamp 2.5, memory 7.5 and the quotient
    taken over the float difference of the two host readings. *)
Theorem process_raw_data_formulas (ONLINE_CPUS : Z) (prev cur : RawMetrics) :
  let m := _process_raw_data ONLINE_CPUS prev cur in
  let cpu_delta := ((cpu cur - cpu prev) / 1e9)%float in
  let sys_cpu_delta := (sys_cpu cur - sys_cpu prev)%float in
  timestamp m = ((raw_timestamp prev + raw_timestamp cur) / 2)%float ∧
  memory m = ((raw_memory prev + raw_memory cur) / 2 / 1e6)%float ∧
  ((cpu cur - cpu prev <=? 0)%float = true ∨ (cpu_delta <=? 0)%float = true ∨
   (sys_cpu_delta <=? 0)%float = true → cpu_percent m = 0%float) ∧
  ((0 <? cpu_delta)%float = false ∨ (0 <? sys_cpu_delta)%float = false →
   cpu_percent m = 0%float) ∧
  ((0 <? cpu_delta)%float = true ∧ (0 <? sys_cpu_delta)%float = true →
   cpu_percent m =
     (cpu_delta / sys_cpu_delta * float_of_int ONLINE_CPUS * 100)%float) ∧
  ((0 <? cpu cur - cpu prev)%float = true ∧ (0 <? sys_cpu_delta)%float = true ∧
   finite_nonneg (float_of_int ONLINE_CPUS) →
   cpu_percent m =
     (cpu_delta / sys_cpu_delta * float_of_int ONLINE_CPUS * 100)%float) ∧
  _process_raw_data 4 raw_first raw_second =
    mkMetrics 2.5
      ((1000000 - 800000) / 1e9 / (14000000.60 - 14000000.00) * 4 * 100)%float
      7.5.
Proof.
  cbv zeta. split_and!.
  - done.
  - done.
  - unfold _process_raw_data. simpl. change NS_PER_S with 1e9%float.
    intros [H|[H|H]].
    + apply float_nonpos_div_NS_PER_S in H. change NS_PER_S with 1e9%float in H.
      by rewrite H.
    + apply float_nonpos_not_pos in H. by rewrite H.
    + apply float_nonpos_not_pos in H. rewrite H. by rewrite andb_false_r.
  - unfold _process_raw_data. simpl. change NS_PER_S with 1e9%float.
    intros [-> | ->]; [done | by rewrite andb_false_r].
  - unfold _process_raw_data. simpl. change NS_PER_S with 1e9%float.
    by intros [-> ->].
  - unfold _process_raw_data. simpl. intros (Hcpu & Hsys & Hn).
    destruct (float_pos_div_NS_PER_S _ Hcpu) as [Hpos|Hzero];
      change NS_PER_S with 1e9%float in *.
    + by rewrite Hpos, Hsys.
    + rewrite Hzero. change (0 <? 0)%float with false. simpl.
      symmetry. by apply float_zero_quotient.
  - by vm_compute.
Qed.

Lemma process_raw_data_formulas_witness :
  cpu_percent (_process_raw_data 4 raw_second raw_first) = 0%float ∧
  cpu_percent (_process_raw_data 4 raw_first raw_second) =
    ((1000000 - 800000) / 1e9 / (14000000.60 - 14000000.00) * float_of_int 4 * 100)%float ∧
  cpu_percent (_process_raw_data 8 raw_first raw_second) =
    ((1000000 - 800000) / 1e9 / (14000000.60 - 14000000.00) * float_of_int 8 * 100)%float.
Proof.
  split_and!.
  - apply (proj1 (proj2 (proj2 (process_raw_data_formulas 4 raw_second raw_first)))).
    left. by vm_compute.
  - apply (proj1 (proj2 (proj2 (proj2 (proj2
             (process_raw_data_formulas 4 raw_first raw_second)))))).
    split; by vm_compute.
  - apply (proj1 (proj2 (proj2 (proj2 (proj2 (proj2
             (process_raw_data_formulas 8 raw_first raw_second))))))).
    split_and!; [by vm_compute..|]. right. by eexists _, _.
Defined.

(** ** Sampling *)

Lemma zip_tail_snoc {A B} (f : A → A → B) (l : list A) (x : A) :
  zip_with f (l ++ [x]) (tail (l ++ [x])) =
    zip_with f l (tail l) ++ match last l with Some p => [f p x] | None => [] end.
Proof.
  induction l as [|a l IH]; [done|].
  destruct l as [|b l]; [done|].
  change (zip_with f ((a :: b :: l) ++ [x]) (tail ((a :: b :: l) ++ [x])))
    with (f a b :: zip_with f ((b :: l) ++ [x]) (tail ((b :: l) ++ [x]))).
  rewrite IH. done.
Qed.

Lemma lookup_snoc_last2 {A} (l : list A) (x : A) :
  l ≠ [] →
  (l ++ [x]) !! (length (l ++ [x]) - 2)%nat = last l ∧
  (l ++ [x]) !! (length (l ++ [x]) - 1)%nat = Some x.
Proof.
  intros Hl. rewrite length_app. simpl. split.
  - destruct l as [|a l _] using rev_ind; [done|].
    rewrite last_snoc, length_app. simpl.
    replace (length l + 1 + 1 - 2)%nat with (length l) by lia.
    rewrite <- app_assoc. by apply list_lookup_middle.
  - replace (length l + 1 - 1)%nat with (length l) by lia.
    by apply list_lookup_middle.
Qed.

Lemma sample_metrics_pairs ONLINE_CPUS read c :
  metrics c =
    zip_with (_process_raw_data ONLINE_CPUS) (raw_metrics c) (tail (raw_metrics c)) →
  metrics (sample_metrics ONLINE_CPUS read c).1 =
    zip_with (_process_raw_data ONLINE_CPUS)
      (raw_metrics (sample_metrics ONLINE_CPUS read c).1)
      (tail (raw_metrics (sample_metrics ONLINE_CPUS read c).1)).
Proof.
  intros Hinv. unfold sample_metrics.
  destruct (metric_paths c); [|done].
  destruct read as [raw|e].
  - destruct (raw_metrics c) as [|r0 raws] eqn:Hraw.
    + simpl. by rewrite Hinv.
    + rewrite decide_True by (rewrite length_app; simpl; lia).
      destruct (lookup_snoc_last2 (r0 :: raws) raw) as [-> ->]; [done|].
      destruct (last (r0 :: raws)) as [prev|] eqn:Hlast;
        [|by apply last_None in Hlast].
      cbn [fst metrics raw_metrics]. by rewrite zip_tail_snoc, <- Hinv, Hlast.
  - destruct e; try done. by case_decide.
Qed.

Lemma sample_many_pairs ONLINE_CPUS reads c :
  metrics c =
    zip_with (_process_raw_data ONLINE_CPUS) (raw_metrics c) (tail (raw_metrics c)) →
  metrics (sample_many ONLINE_CPUS reads c) =
    zip_with (_process_raw_data ONLINE_CPUS)
      (raw_metrics (sample_many ONLINE_CPUS reads c))
      (tail (raw_metrics (sample_many ONLINE_CPUS reads c))).
Proof.
  unfold sample_many. revert c.
  induction reads as [|read reads IH]; intros c Hinv; [done|].
  simpl. by apply IH, sample_metrics_pairs.
Qed.

(** C6: on a container that starts with no samples, after any calls of
    [sample_metrics], whatever each read did, the metrics are exactly the
    values [_process_raw_data] gives on the adjacent pairs of raw samples:
    there is one entry less than raw samples, and none before the second raw
    sample. *)
Theorem sample_metrics_adjacent_pairs
    (ONLINE_CPUS : Z) (cid : list N) (paths : option (string * string * string))
    (reads : list read_outcome) :
  let c := sample_many ONLINE_CPUS reads (mkContainer cid paths [] []) in
  metrics c =
    zip_with (_process_raw_data ONLINE_CPUS) (raw_metrics c) (tail (raw_metrics c)) ∧
  Z.of_nat (length (metrics c)) = Z.max 0 (Z.of_nat (length (raw_metrics c)) - 1) ∧
  ((length (raw_metrics c) ≤ 1)%nat → metrics c = []).
Proof.
  cbv zeta.
  pose proof (sample_many_pairs ONLINE_CPUS reads (mkContainer cid paths [] []) eq_refl)
    as Hpairs.
  split; [done|]. rewrite Hpairs.
  destruct (raw_metrics _) as [|r0 raws]; [done|].
  rewrite length_zip_with. cbn [tail length]. split; [lia|].
  intros Hlen. destruct raws; [done | simpl in Hlen; lia].
Qed.

Lemma sample_metrics_adjacent_pairs_witness :
  metrics (sample_many 4 [ReadRaises FileNotFoundError; ReadOk raw_first]
             (mkContainer docker_id_line (Some ("cpu", "percpu", "mem")) [] [])) = [].
Proof.
  apply (proj2 (proj2 (sample_metrics_adjacent_pairs 4 docker_id_line
           (Some ("cpu", "percpu", "mem"))
           [ReadRaises FileNotFoundError; ReadOk raw_first]))).
  by vm_compute.
Defined.

(** ** Identifier acquisition *)

Lemma acquire_id_skips_empty sh n turns :
  acquire_id sh (replicate n (Running None) ++ turns) = acquire_id sh turns.
Proof. induction n as [|n IH]; [done|]. simpl. apply IH. Qed.

Lemma utf8_decode_ascii (bs : list N) :
  Forall (λ b, (b < 128)%N) bs → utf8_decode bs = Some bs.
Proof.
  induction 1 as [|b bs Hb _ IH]; [done|]. simpl.
  apply N.ltb_lt in Hb. by rewrite Hb, IH.
Qed.

(** C7, as the spec states it: a line of 65 bytes need not be accepted.
    Sixty-four bytes [0xff] and a line feed have the expected length, but
    they are not UTF-8: [start_operator] raises [UnicodeDecodeError], no
    identifier is stored and the event is not set. *)
Lemma start_operator_undecodable_line :
  length (replicate 64 255%N ++ [10%N]) = 65%nat ∧
  utf8_decode (replicate 64 255%N ++ [10%N]) = None ∧
  acquire_id (mkShared [] false) [Running (Some (replicate 64 255%N ++ [10%N]))]
    = Exits UnicodeDecodeError (mkShared [] false) ∧
  ∀ sh, acquire_id (mkShared [] false) [Running (Some (replicate 64 255%N ++ [10%N]))]
        ≠ IdRead sh.
Proof. split_and!; try by vm_compute. Qed.

(** C7 (amended): whatever number of empty polls came first and whatever
    would come after, the first drained line settles the acquisition at
    once. A line whose length is not 65 ends the launch with the fatal exit
    and leaves the shared values as they were. A line of length 65 that
    decodes as UTF-8, as every ASCII line does, is stored, decoded and
    stripped, as the container identifier and the event is set; a line of
    length 65 that does not decode raises [UnicodeDecodeError] and leaves
    the shared values as they were. On the identifier line of the test the
    stored value is its 64 characters. *)
Theorem start_operator_identifier_line
    (sh : shared) (n : nat) (raw_id : list N) (rest : list poll_outcome) :
  let turns := replicate n (Running None) ++ Running (Some raw_id) :: rest in
  (length raw_id ≠ 65%nat → acquire_id sh turns = Exits bad_id_exit sh) ∧
  (length raw_id = 65%nat →
     (∀ value, utf8_decode raw_id = Some value →
        acquire_id sh turns = IdRead (mkShared (strip value) true)) ∧
     (Forall (λ b, (b < 128)%N) raw_id →
        acquire_id sh turns = IdRead (mkShared (strip raw_id) true)) ∧
     (utf8_decode raw_id = None →
        acquire_id sh turns = Exits UnicodeDecodeError sh)) ∧
  acquire_id sh (replicate n (Running None) ++ Running (Some docker_id_line) :: rest)
    = IdRead (mkShared (take 64 docker_id_line) true).
Proof.
  cbv zeta. rewrite !acquire_id_skips_empty. simpl. split_and!.
  - intros Hlen. by rewrite decide_False.
  - intros Hlen. rewrite decide_True by done. split_and!.
    + by intros value ->.
    + intros Hascii. by rewrite utf8_decode_ascii.
    + by intros ->.
  - by vm_compute.
Qed.

Lemma start_operator_identifier_line_witness :
  acquire_id (mkShared [] false)
    ([Running None; Running None] ++ Running (Some [49; 50; 51; 10]%N) :: [Exited 0])
    = Exits bad_id_exit (mkShared [] false) ∧
  acquire_id (mkShared [] false)
    ([Running None] ++ Running (Some docker_id_line) :: [])
    = IdRead (mkShared (strip docker_id_line) true) ∧
  acquire_id (mkShared [] false)
    ([Running None] ++ Running (Some (replicate 64 255%N ++ [10%N])) :: [Exited 0])
    = Exits UnicodeDecodeError (mkShared [] false).
Proof.
  split_and!.
  - apply (proj1 (start_operator_identifier_line (mkShared [] false) 2
                    [49; 50; 51; 10]%N [Exited 0])).
    by vm_compute.
  - apply (proj1 (proj2 (proj1 (proj2 (start_operator_identifier_line (mkShared [] false) 1
                    docker_id_line [])) eq_refl))).
    compute_done.
  - apply (proj2 (proj2 (proj1 (proj2 (start_operator_identifier_line (mkShared [] false) 1
                    (replicate 64 255%N ++ [10%N]) [Exited 0])) eq_refl))).
    by vm_compute.
Defined.

(** ** The run mode *)

Lemma bool_decide_Exists_cons {A} (P : A → Prop) `{∀ x, Decision (P x)} x l :
  bool_decide (Exists P (x :: l)) = bool_decide (P x) || bool_decide (Exists P l).
Proof.
  rewrite <- bool_decide_or. apply bool_decide_ext, Exists_cons.
Qed.

Lemma decide_method_flags (op_configs : list OperatorConfig) (m s : bool) :
  foldl (λ '(model_repo, services_) op,
           (if truthy (models op) then true else model_repo,
            if truthy (services op) then true else services_))
        (m, s) op_configs =
  (m || bool_decide (declares_models op_configs),
   s || bool_decide (declares_services op_configs)).
Proof.
  unfold declares_models, declares_services.
  revert m s. induction op_configs as [|op ops IH]; intros m s.
  - simpl. by rewrite !orb_false_r.
  - cbn [foldl]. rewrite IH, !bool_decide_Exists_cons.
    destruct (truthy (models op)), (truthy (services op)); simpl;
      rewrite ?orb_true_r, ?orb_false_r; done.
Qed.

(** C8: the run mode is a fatal exit when some operator declares models and
    some operator declares services, the model repository when only models
    are declared, the pipeline services when only services are, and no
    inference server otherwise; it raises in the first case only. *)
Theorem decide_method_to_run_triton_modes (op_configs : list OperatorConfig) :
  (declares_models op_configs ∧ declares_services op_configs →
     decide_method_to_run_triton op_configs = Raise both_modes_exit) ∧
  (declares_models op_configs ∧ ¬ declares_services op_configs →
     decide_method_to_run_triton op_configs = Ok MODEL_REPO) ∧
  (¬ declares_models op_configs ∧ declares_services op_configs →
     decide_method_to_run_triton op_configs = Ok PIPELINE_SERVICES) ∧
  (¬ declares_models op_configs ∧ ¬ declares_services op_configs →
     decide_method_to_run_triton op_configs = Ok NO_INFERENCE_SERVER) ∧
  ((∃ e, decide_method_to_run_triton op_configs = Raise e) ↔
     declares_models op_configs ∧ declares_services op_configs).
Proof.
  unfold decide_method_to_run_triton. rewrite decide_method_flags. simpl.
  destruct (bool_decide (declares_models op_configs)) eqn:Hm;
    destruct (bool_decide (declares_services op_configs)) eqn:Hs; simpl;
    try apply bool_decide_eq_true_1 in Hm; try apply bool_decide_eq_true_1 in Hs;
    try apply bool_decide_eq_false_1 in Hm; try apply bool_decide_eq_false_1 in Hs.
  all: split_and!; try tauto; try (split; [intros [e ?]; done | tauto]).
  split; [done | by eexists].
Qed.

Lemma decide_method_to_run_triton_modes_witness :
  decide_method_to_run_triton
    [mkOperatorConfig "a" "tag" None None [] None (Some ["model"]) None;
     mkOperatorConfig "b" "tag" None None [] None None
       (Some [mkServiceConfig "trtis" "img:1" None ∅])]
    = Raise both_modes_exit ∧
  decide_method_to_run_triton
    [mkOperatorConfig "a" "tag" None None [] None (Some ["model"]) (Some [])]
    = Ok MODEL_REPO ∧
  decide_method_to_run_triton
    [mkOperatorConfig "b" "tag" None None [] None None
       (Some [mkServiceConfig "trtis" "img:1" None ∅])]
    = Ok PIPELINE_SERVICES ∧
  decide_method_to_run_triton [root_op "a"; root_op "b"] = Ok NO_INFERENCE_SERVER.
Proof.
  split_and!.
  - apply (proj1 (decide_method_to_run_triton_modes _)).
    split; [by left | right; by left].
  - apply (proj1 (proj2 (decide_method_to_run_triton_modes _))).
    split; [by left|]. by intros [?|?%Exists_nil]%Exists_cons.
  - apply (proj1 (proj2 (proj2 (decide_method_to_run_triton_modes _)))).
    split; [|by left]. by intros [?|?%Exists_nil]%Exists_cons.
  - apply (proj1 (proj2 (proj2 (proj2 (decide_method_to_run_triton_modes _))))).
    split; by intros [?|[?|?%Exists_nil]%Exists_cons]%Exists_cons.
Defined.

(** ** [update_variables] *)

(** C10: after [update_variables] the operator has a variables dict in which
    every key of its own keeps its own value, every other key has the value
    of the given dict (if any), and which is the given dict when the
    operator had none or an empty one; nothing else of the operator
    changes. *)
Theorem update_variables_keeps_own (op : OperatorConfig) (var_dict : gmap string string) :
  ∃ vars,
    variables (update_variables op var_dict) = Some vars ∧
    (∀ own k v, variables op = Some own → own !! k = Some v → vars !! k = Some v) ∧
    (∀ k, (∀ own, variables op = Some own → own !! k = None) →
          vars !! k = var_dict !! k) ∧
    (variables op = None ∨ variables op = Some ∅ → vars = var_dict) ∧
    name (update_variables op var_dict) = name op ∧
    inputs (update_variables op var_dict) = inputs op ∧
    models (update_variables op var_dict) = models op ∧
    services (update_variables op var_dict) = services op.
Proof.
  unfold update_variables. simpl. eexists. split; [done|].
  destruct (variables op) as [own|] eqn:Hown.
  - destruct (decide (own = ∅)) as [->|Hne].
    + split_and!; try done.
      * intros own k v [= <-]. by rewrite lookup_empty.
    + split_and!; try done.
      * intros own' k v [= <-] Hk. by rewrite lookup_union_l'.
      * intros k Hk. rewrite lookup_union_r; [done|]. by apply Hk.
      * intros [?|[= ?]]; congruence.
  - split_and!; try done.
Qed.

Lemma update_variables_keeps_own_witness :
  ∃ vars,
    variables (update_variables
                 (mkOperatorConfig "op" "tag" None (Some {["PORT" := "1"]}) [] None None None)
                 {["PORT" := "2"; "HOST" := "h"]}) = Some vars ∧
    vars !! "PORT" = Some "1" ∧ vars !! "HOST" = Some "h".
Proof.
  destruct (update_variables_keeps_own
              (mkOperatorConfig "op" "tag" None (Some {["PORT" := "1"]}) [] None None None)
              {["PORT" := "2"; "HOST" := "h"]})
    as (vars & Hvars & Hown & Hother & _).
  exists vars. split_and!; [done| |].
  - by apply (Hown {["PORT" := "1"]}).
  - rewrite Hother; [done|]. by intros own [= <-].
Defined.

(** ** The summary *)

(** C5, as the spec states it: on one sample of 100.0004 percent and
    156.0004 MB the maximum asks for 2 cores and 512 MB, and the summary
    recommends 1 core and 256 MB, because it rounds each maximum to three
    decimals first. *)
Lemma summary_not_from_exact_maximum :
  ∃ s, print_operator_summary [mkMetrics 1.5 100.0004 156.0004] = Ok s ∧
       cores_of_maximum [mkMetrics 1.5 100.0004 156.0004] = Ok 2 ∧
       recommended_cpu s = 1 ∧
       memory_of_maximum [mkMetrics 1.5 100.0004 156.0004] = Ok 512 ∧
       recommended_memory s = 256.
Proof. eexists. split; [by vm_compute|]. by vm_compute. Qed.

Lemma SFleb_trans (x y z : spec_float) :
  SFleb x y = true → SFleb y z = true → SFleb x z = true.
Proof.
  unfold SFleb, SFcompare.
  destruct x as [sx|sx| |sx mx ex], y as [sy|sy| |sy my ey], z as [sz|sz| |sz mz ez];
    try destruct sx; try destruct sy; try destruct sz; simpl; try congruence;
    rewrite ?Pos.compare_cont_spec; unfold Pos.switch_Eq; compare_cases.
Qed.

Lemma SFltb_leb (x y : spec_float) : SFltb x y = true → SFleb x y = true.
Proof. unfold SFltb, SFleb. by destruct (SFcompare x y) as [[]|]. Qed.

Lemma SFltb_false_leb (x y : spec_float) :
  x ≠ S754_nan → y ≠ S754_nan → SFltb x y = false → SFleb y x = true.
Proof.
  unfold SFleb, SFltb, SFcompare.
  destruct x as [sx|sx| |sx mx ex], y as [sy|sy| |sy my ey];
    try destruct sx; try destruct sy; simpl; try congruence;
    rewrite ?Pos.compare_cont_spec; unfold Pos.switch_Eq; intros _ _; compare_cases.
Qed.

Lemma SFleb_refl (x : spec_float) : x ≠ S754_nan → SFleb x x = true.
Proof.
  unfold SFleb, SFcompare.
  destruct x as [sx|sx| |sx mx ex]; try destruct sx; simpl; try congruence;
    rewrite ?Pos.compare_cont_spec; unfold Pos.switch_Eq; intros _;
    rewrite ?Z.compare_refl, ?Pos.compare_refl; done.
Qed.

(** On numbers, [max] returns an item that no item exceeds. *)
Lemma py_max_upper_bound (l : list float) (m : float) :
  Forall is_number l → py_max l = Ok m →
  Forall (λ y, (y <=? m)%float = true) l.
Proof.
  destruct l as [|x l]; [done|]. simpl.
  intros [Hx Hl]%Forall_cons [= <-].
  set (step := λ m y : float, if (m <? y)%float then y else m).
  assert (∀ x, is_number x → Forall is_number l →
    (x <=? foldl step x l)%float = true ∧
    Forall (λ y, (y <=? foldl step x l)%float = true) l) as Hfold.
  { clear x Hx. induction l as [|y l IH]; intros x Hx Hyl; simpl.
    - split; [|done]. rewrite leb_spec. by apply SFleb_refl.
    - apply Forall_cons in Hyl as [Hy Hl']. unfold step at 2 4.
      destruct (x <? y)%float eqn:Hxy; rewrite ltb_spec in Hxy.
      + destruct (IH Hl' y Hy Hl') as [Hym Hall]. split_and!; [|by constructor].
        rewrite leb_spec in *.
        eapply SFleb_trans; [by apply SFltb_leb | done].
      + destruct (IH Hl' x Hx Hl') as [Hxm Hall]. split_and!; [done|].
        constructor; [|done]. rewrite leb_spec in *.
        eapply SFleb_trans;
          [apply SFltb_false_leb; [exact Hx | exact Hy | exact Hxy] | done]. }
  destruct (Hfold x Hx Hl) as [Hxm Hall]. by constructor.
Qed.

(** [math_ceil] is the ceiling of the exact value of a finite float. *)
Lemma math_ceil_finite (x : float) (s : bool) (m : positive) (e : Z) :
  Prim2SF x = S754_finite s m e →
  ∃ n, math_ceil x = Ok n ∧
       if 0 <=? e then n = (if s then Z.neg m else Z.pos m) * 2 ^ e
       else (n - 1) * 2 ^ (- e) < (if s then Z.neg m else Z.pos m) ≤ n * 2 ^ (- e).
Proof.
  intros Hx. unfold math_ceil. rewrite Hx. eexists. split; [done|].
  destruct (0 <=? e) eqn:He; [done|]. apply Z.leb_gt in He.
  assert (0 < 2 ^ (- e)) as Hpos by (apply Z.pow_pos_nonneg; lia).
  set (v := if s then Z.neg m else Z.pos m).
  pose proof (Z.div_mod (- v) (2 ^ (- e))) as Hdm.
  pose proof (Z.mod_pos_bound (- v) (2 ^ (- e)) Hpos) as Hmod.
  nia.
Qed.

Lemma py_max_elem_of (l : list float) (m : float) : py_max l = Ok m → m ∈ l.
Proof.
  destruct l as [|x l]; [done|]. simpl. intros [= <-].
  revert x. induction l as [|y l IH]; intros x; simpl; [left|].
  destruct (x <? y)%float.
  - right. apply IH.
  - specialize (IH x). apply elem_of_cons in IH as [->|?]; [left | by do 2 right].
Qed.

(** C5 (amended): when the summary is produced, its averages are the sums
    over the sample count and its maxima the greatest samples (samples that
    no sample exceeds, when all are numbers), each rounded to three
    decimals; the recommended cores are the ceiling of the rounded
    CPU maximum over 100, and the recommended memory is the ceiling of the
    rounded memory maximum plus 100 over 256, times 256. In particular a
    maximum of 100.05 percent gives 2 cores, 50.55 gives 1, 148.05 MB gives
    256 and 156.05 MB gives 512; with no sample the division by the sample
    count raises. *)
Theorem print_operator_summary_recommendation (metrics : list Metrics) (s : Summary) :
  print_operator_summary metrics = Ok s →
  ∃ cmax mmax n,
    py_max (cpu_percent <$> metrics) = Ok cmax ∧ cmax ∈ cpu_percent <$> metrics ∧
    (Forall is_number (cpu_percent <$> metrics) →
     Forall (λ y, (y <=? cmax)%float = true) (cpu_percent <$> metrics)) ∧
    py_max (memory <$> metrics) = Ok mmax ∧ mmax ∈ memory <$> metrics ∧
    (Forall is_number (memory <$> metrics) →
     Forall (λ y, (y <=? mmax)%float = true) (memory <$> metrics)) ∧
    cpu_avg s =
      round3 (py_sum (cpu_percent <$> metrics)
              / float_of_int (Z.of_nat (length metrics)))%float ∧
    memory_avg s =
      round3 (py_sum (memory <$> metrics)
              / float_of_int (Z.of_nat (length metrics)))%float ∧
    cpu_max s = round3 cmax ∧
    memory_max s = round3 mmax ∧
    math_ceil (cpu_max s / 100)%float = Ok (recommended_cpu s) ∧
    math_ceil ((memory_max s + 100) / 256)%float = Ok n ∧
    recommended_memory s = n * 256 ∧
    (recommended_cpu <$> print_operator_summary [mkMetrics 1.5 100.05 148.05],
     recommended_memory <$> print_operator_summary [mkMetrics 1.5 100.05 148.05])
      = (Ok 2, Ok 256) ∧
    (recommended_cpu <$> print_operator_summary [mkMetrics 1.5 50.55 156.05],
     recommended_memory <$> print_operator_summary [mkMetrics 1.5 50.55 156.05])
      = (Ok 1, Ok 512) ∧
    print_operator_summary [] = Raise ZeroDivisionError.
Proof.
  unfold print_operator_summary, convert_percent_to_cores,
    round_up_to_multiple, py_truediv, mbind, result_bind, mret, result_ret.
  destruct (float_of_int (Z.of_nat (length metrics)) =? 0)%float; [done|].
  destruct (py_max (cpu_percent <$> metrics)) as [cmax|] eqn:Hc; [|done].
  destruct (py_max (memory <$> metrics)) as [mmax|] eqn:Hm; [|done].
  destruct (math_ceil (round3 cmax / 100)) as [cores|] eqn:Hcores; [|done].
  change (float_of_int 256) with 256%float.
  change (256 =? 0)%float with false. cbv iota.
  destruct (math_ceil ((round3 mmax + 100) / 256)) as [n|] eqn:Hn; [|done].
  intros [= <-]. exists cmax, mmax, n. simpl.
  split_and!; try done; try (by apply py_max_elem_of);
    try (by intros ?; eapply py_max_upper_bound); by vm_compute.
Qed.

Lemma print_operator_summary_recommendation_witness :
  ∃ cmax mmax n,
    print_operator_summary
      [mkMetrics 1.5 10 20; mkMetrics 1.5 20 20; mkMetrics 1.5 30 25]
      = Ok (mkSummary 20 30 1 21.667 25 256) ∧
    30%float = round3 cmax ∧ 25%float = round3 mmax ∧
    math_ceil (30 / 100)%float = Ok 1 ∧
    math_ceil ((25 + 100) / 256)%float = Ok n ∧
    256 = n * 256.
Proof.
  assert (print_operator_summary
            [mkMetrics 1.5 10 20; mkMetrics 1.5 20 20; mkMetrics 1.5 30 25]
          = Ok (mkSummary 20 30 1 21.667 25 256)) as Hs by (by vm_compute).
  destruct (print_operator_summary_recommendation _ _ Hs)
    as (cmax & mmax & n & _ & _ & _ & _ & _ & _ & _ & _ & H1 & H2 & H3 & H4 & H5 & _).
  by exists cmax, mmax, n.
Defined.

(** ** The sorter *)

Lemma has_cycle_mono {Node} (E E' : list (Node * Node)) :
  (∀ e, e ∈ E' → e ∈ E) → has_cycle E' → has_cycle E.
Proof.
  intros Hsub [v Hv]. exists v.
  assert (∀ x y, tc (dep E') x y → tc (dep E) x y) as Hmono; [|by apply Hmono].
  induction 1 as [x y Hxy|x y z Hxy _ IH]; [apply tc_once | eapply tc_l; [|done]];
    by apply Hsub.
Qed.

Lemma pipeline_edges_Permutation (operators out : list OperatorConfig) :
  out ≡ₚ operators → pipeline_edges out ≡ₚ pipeline_edges operators.
Proof. intros Hperm. unfold pipeline_edges. by rewrite Hperm. Qed.

(** The conditions under which [topo_sort_pipeline] sorts do not depend on
    the order of the operators. *)
Lemma sortable_Permutation (operators out : list OperatorConfig) :
  out ≡ₚ operators →
  NoDup (name <$> operators) →
  from_closed operators →
  length operators = 1%nat ∨ well_connected operators →
  ¬ has_cycle (pipeline_edges operators) →
  NoDup (name <$> out) ∧ from_closed out ∧
  (length out = 1%nat ∨ well_connected out) ∧
  ¬ has_cycle (pipeline_edges out).
Proof.
  intros Hperm Hnd Hclosed Hconn Hac.
  pose proof (pipeline_edges_Permutation _ _ Hperm) as Hedges.
  split_and!.
  - by rewrite Hperm.
  - intros e He. rewrite Hperm. apply Hclosed. by rewrite <- Hedges.
  - destruct Hconn as [Hlen|Hconn]; [left; by rewrite Hperm|right].
    intros op Hop. rewrite Hperm in Hop. apply Hconn, elem_of_nodes in Hop.
    destruct Hop as (e & He & Hn). apply elem_of_nodes. exists e.
    split; [by rewrite Hedges | done].
  - intros Hc. apply Hac. eapply has_cycle_mono; [|done].
    intros e He. by rewrite <- Hedges.
Qed.

(** C1, at an input where the code departs from it: of three operators with
    distinct names and no cycle, where B reads from A and C reads only the
    payload, the sort returns A and B and drops C; of two operators that
    both read only the payload it returns nothing. *)
Theorem topo_sort_pipeline_drops_unconnected :
  NoDup (name <$> pipeline_with_unconnected_operator) ∧
  ¬ has_cycle (pipeline_edges pipeline_with_unconnected_operator) ∧
  topo_sort_pipeline pipeline_with_unconnected_operator
    = Some (Ok [root_op "A"; plain_op "B" ["A"]]) ∧
  ¬ ([root_op "A"; plain_op "B" ["A"]] ≡ₚ pipeline_with_unconnected_operator) ∧
  topo_sort_pipeline [root_op "A"; root_op "B"] = Some (Ok []).
Proof.
  split_and!.
  - compute_done.
  - intros Hc%topological_sort_register_cyclic. by vm_compute in Hc.
  - by vm_compute.
  - intros Hperm%Permutation_length. done.
  - by vm_compute.
Qed.




(** C3: on the graph registered by any list of [add_input_edge] calls,
    [topological_sort] raises its cycle error exactly when the edges contain
    a cycle and returns an order exactly when they contain none; the loop
    ends within the fuel [topological_sort] takes, so more fuel changes
    nothing. *)
Theorem topological_sort_cycle_check {Node : Type} `{EqDecision Node}
    (E : list (Node * Node)) :
  (has_cycle E ↔ topological_sort (register E) = Some (Raise cycle_error)) ∧
  (¬ has_cycle E ↔ ∃ order, topological_sort (register E) = Some (Ok order)) ∧
  (∀ fuel, (length (nodes E) < fuel)%nat →
     topological_sort_fuel fuel (register E) = topological_sort (register E)).
Proof.
  split_and!.
  - split; [apply topological_sort_register_cyclic|]. intros Hraise.
    destruct (topological_sort_register_outcome E) as [[Hc _]|[_ [order Hok]]];
      [done | congruence].
  - split.
    + intros Hac. destruct (topological_sort_register_acyclic E Hac) as (order & Hrun & _).
      by exists order.
    + intros [order Hok] Hc%topological_sort_register_cyclic. congruence.
  - apply topological_sort_fuel_enough.
Qed.

Lemma cyclic_edges_cycle : has_cycle cyclic_edges.
Proof.
  exists 1. eapply tc_l; [|eapply tc_l; [|apply tc_once]]; unfold dep, cyclic_edges.
  - apply (list_elem_of_here (2, 1)).
  - apply list_elem_of_further, (list_elem_of_here (3, 2)).
  - do 2 apply list_elem_of_further. apply (list_elem_of_here (1, 3)).
Qed.

Lemma chain_edges_acyclic : ¬ has_cycle chain_edges.
Proof. intros Hc%topological_sort_register_cyclic. by vm_compute in Hc. Qed.

Lemma topological_sort_cycle_check_witness :
  topological_sort (register cyclic_edges) = Some (Raise cycle_error) ∧
  ∃ order, topological_sort (register chain_edges) = Some (Ok order).
Proof.
  split.
  - exact (proj1 (proj1 (topological_sort_cycle_check cyclic_edges)) cyclic_edges_cycle).
  - exact (proj1 (proj1 (proj2 (topological_sort_cycle_check chain_edges)))
             chain_edges_acyclic).
Defined.

(** C4, as the spec states it: after the calls [add_input_edge(1, 0)],
    [add_input_edge(3, 2)] and [add_input_edge(1, 2)] the nodes are
    registered in the order 0, 1, 2, 3. Nodes 1 and 3 both wait for node 2
    and both have in-degree zero once 0 and 2 are emitted; node 1 was
    registered before node 3, and yet the order returned is [0, 2, 3, 1]:
    the tie is not broken by registration. *)
Lemma topological_sort_not_by_registration :
  topological_sort (register tie_edges) = Some (Ok [0; 2; 3; 1]) ∧
  nodes tie_edges = [0; 1; 2; 3] ∧
  remaining tie_edges [0] 1 = 1%nat ∧ remaining tie_edges [0] 3 = 1%nat ∧
  ready_together tie_edges [0; 2; 3; 1] 1 3 ∧
  precedes (nodes tie_edges) 1 3 ∧
  ¬ precedes [0; 2; 3; 1] 1 3 ∧
  ¬ fifo_by_registration tie_edges [0; 2; 3; 1].
Proof.
  assert (ready_together tie_edges [0; 2; 3; 1] 1 3) as Hready.
  { exists [0; 2]. split_and!; try by vm_compute.
    - by exists [3; 1].
    - compute_done.
    - compute_done.
    - compute_done.
    - compute_done. }
  assert (precedes (nodes tie_edges) 1 3) as Hreg
    by (exists 1%nat, 3%nat; split_and!; [by vm_compute..|lia]).
  assert (¬ precedes [0; 2; 3; 1] 1 3) as Hnot.
  { intros (i & j & Hi & Hj & Hij).
    destruct i as [|[|[|[|i]]]]; simplify_eq/=.
    destruct j as [|[|[|[|j]]]]; simplify_eq/=. lia. }
  split_and!; try done; try by vm_compute.
  intros Hfifo. by apply Hnot, Hfifo.
Qed.

(** C4 (amended): when [topological_sort] returns an order, the order is
    the nodes without in-edge, in the order [add_input_edge] first met
    them, followed, for each node of the order in its turn, by the nodes
    that the emission of that node leaves without a pending input, in the
    order of the edges out of that node; so at every turn the nodes
    emitted and the nodes waiting in the queue open the order. Renaming
    the nodes by any injective function renames the result and changes
    nothing else, so names play no part; and the six edges of the example
    give [5, 4, 2, 0, 3, 1]. *)
Theorem topological_sort_fifo_by_out_edges :
  (∀ (Node : Type) `(EqDecision Node) (E : list (Node * Node)) (order : list Node),
     topological_sort (register E) = Some (Ok order) →
     order = initial_queue E ++ released_by_turns E order ∧
     ∀ k, ∃ suffix,
       order = topo_order (sort_turns k (sort_start E))
               ++ zero_indegree (sort_turns k (sort_start E)) ++ suffix) ∧
  (∀ (Node M : Type) `(EqDecision Node) `(EqDecision M) (f : Node → M) (E : list (Node * Node)),
     Inj (=) (=) f →
     topological_sort (register (prod_map f f <$> E))
       = rename_result f <$> topological_sort (register E)) ∧
  topological_sort (register test_edges) = Some (Ok [5; 4; 2; 0; 3; 1]).
Proof.
  split_and!.
  - intros Node ? E order Hrun. split.
    + by apply topological_sort_released.
    + intros k. by apply topological_sort_fifo_turns.
  - intros Node M ? ? f E Hinj. rewrite register_rename by done.
    by apply topological_sort_rename.
  - by vm_compute.
Qed.

Lemma topological_sort_fifo_by_out_edges_witness :
  initial_queue tie_edges = [0; 2] ∧
  released tie_edges [0] 2 = [3; 1] ∧
  [0; 2; 3; 1] = initial_queue tie_edges ++ released_by_turns tie_edges [0; 2; 3; 1] ∧
  topological_sort (register (prod_map (Z.add 10) (Z.add 10) <$> test_edges))
    = Some (Ok [15; 14; 12; 10; 13; 11]).
Proof.
  destruct topological_sort_fifo_by_out_edges as (Hfifo & Hname & Hex).
  split_and!.
  - by vm_compute.
  - by vm_compute.
  - apply (Hfifo Z _ tie_edges [0; 2; 3; 1]). by vm_compute.
  - assert (Inj (=) (=) (Z.add 10)) as Hinj by (intros x y; lia).
    rewrite (Hname Z Z _ _ (Z.add 10) test_edges Hinj), Hex. by vm_compute.
Defined.

(** C9, as the spec states it: sorting the four operators D (from A and C),
    C (from B), A and B gives A, B, C, D, and sorting that result gives
    B, A, C, D. *)
Lemma topo_sort_pipeline_not_idempotent :
  ∃ first second,
    topo_sort_pipeline diamond_pipeline = Some (Ok first) ∧
    topo_sort_pipeline first = Some (Ok second) ∧
    name <$> first = ["A"; "B"; "C"; "D"] ∧
    name <$> second = ["B"; "A"; "C"; "D"] ∧
    first ≠ second.
Proof.
  eexists _, _. split; [by vm_compute|]. split; [by vm_compute|].
  split; [done|]. split; [done|]. intros Heq. by simplify_eq.
Qed.

(** C9 (amended): a single-operator list is returned unchanged, so sorting
    it again changes nothing; for any operators with distinct names whose
    [from] references name operators of the pipeline, form no cycle and
    touch every operator, sorting the sorted list again succeeds and gives a
    permutation of it that again puts every operator named in a [from]
    before the operator naming it, though not always in the same order. *)
Theorem topo_sort_pipeline_single_and_resort
    (op : OperatorConfig) (operators out : list OperatorConfig) :
  topo_sort_pipeline [op] = Some (Ok [op]) ∧
  (∀ out1, topo_sort_pipeline [op] = Some (Ok out1) →
     topo_sort_pipeline out1 = Some (Ok out1)) ∧
  (NoDup (name <$> operators) →
   from_closed operators →
   length operators = 1%nat ∨ well_connected operators →
   ¬ has_cycle (pipeline_edges operators) →
   topo_sort_pipeline operators = Some (Ok out) →
   ∃ out', topo_sort_pipeline out = Some (Ok out') ∧
           out' ≡ₚ out ∧ dependencies_first out').
Proof.
  split_and!.
  - done.
  - by intros out1 [= <-].
  - intros Hnd Hclosed Hconn Hac Hrun.
    destruct (topo_sort_pipeline_sorts operators Hnd Hclosed Hconn Hac)
      as (out0 & Hrun0 & Hperm & _).
    assert (out0 = out) as -> by congruence.
    destruct (sortable_Permutation operators out Hperm Hnd Hclosed Hconn Hac)
      as (Hnd' & Hclosed' & Hconn' & Hac').
    apply topo_sort_pipeline_sorts; done.
Qed.

Lemma diamond_pipeline_sortable :
  NoDup (name <$> diamond_pipeline) ∧ from_closed diamond_pipeline ∧
  (length diamond_pipeline = 1%nat ∨ well_connected diamond_pipeline) ∧
  ¬ has_cycle (pipeline_edges diamond_pipeline).
Proof.
  split_and!.
  - compute_done.
  - unfold from_closed. apply Forall_forall. compute_done.
  - right. unfold well_connected. apply Forall_forall. compute_done.
  - intros Hc%topological_sort_register_cyclic. by vm_compute in Hc.
Qed.

Lemma topo_sort_pipeline_single_and_resort_witness :
  ∃ out', topo_sort_pipeline
            [root_op "A"; root_op "B"; plain_op "C" ["B"]; plain_op "D" ["A"; "C"]]
          = Some (Ok out') ∧
          out' ≡ₚ [root_op "A"; root_op "B"; plain_op "C" ["B"]; plain_op "D" ["A"; "C"]] ∧
          dependencies_first out'.
Proof.
  destruct diamond_pipeline_sortable as (H1 & H2 & H3 & H4).
  refine (proj2 (proj2 (topo_sort_pipeline_single_and_resort (root_op "A")
            diamond_pipeline _)) H1 H2 H3 H4 _).
  by vm_compute.
Defined.

(** * Part IV: further properties of the code *)

(** ** The sorter, once more *)

Section kahn_more.
Context {Node : Type} `{EqDecision Node}.
Implicit Types (E : list (Node * Node)) (e : Node * Node) (T Q : list Node) (u v : Node).
Implicit Types (ig : list (Node * Z)) (st : sort_state Node).

Lemma topological_sort_in_place_result (g : PipelineDAG Node) :
  topological_sort g = snd <$> topological_sort_in_place g.
Proof.
  unfold topological_sort, topological_sort_fuel, topological_sort_in_place.
  destruct (sort_loop _ _) as [st|]; [|done]. simpl. by case_decide.
Qed.

(** Lowering in-degrees that are zero or less never enqueues anything. *)
Lemma decrease_loop_nonpos ks outs ig Q :
  od_keys ig = ks →
  (∀ v, v ∈ ks → ∃ z, od_get ig v = Some z ∧ z ≤ 0) →
  (∀ v, v ∈ outs → v ∈ ks) →
  ∃ ig',
    foldl decrease_indegree (ig, Q) outs = (ig', Q) ∧
    od_keys ig' = ks ∧
    (∀ v, v ∈ ks → ∃ z, od_get ig' v = Some z ∧ z ≤ 0).
Proof.
  revert ig. induction outs as [|i t IH]; intros ig Hk Hg Hin; [by exists ig|].
  assert (i ∈ ks) as Hi by (apply Hin; left).
  destruct (Hg i Hi) as (zi & Hzi & Hle).
  set (ig1 := dd_update 0 (λ n, n - 1) ig i).
  assert (od_keys ig1 = ks) as Hk1.
  { unfold ig1. rewrite dd_update_keys, Hk. by rewrite decide_True. }
  assert (od_get ig1 i = Some (zi - 1)) as Hi1.
  { unfold ig1. rewrite dd_update_get, decide_True by done. by rewrite Hzi. }
  assert (∀ v, v ∈ ks → ∃ z, od_get ig1 v = Some z ∧ z ≤ 0) as Hg1.
  { intros v Hv. unfold ig1. rewrite dd_update_get.
    destruct (decide (i = v)) as [->|Hne].
    - rewrite Hzi. simpl. eexists. split; [done | lia].
    - by apply Hg. }
  assert (decrease_indegree (ig, Q) i = (ig1, Q)) as Hstep.
  { unfold decrease_indegree. simpl. fold ig1.
    erewrite dd_getitem_present by done. by rewrite decide_False by lia. }
  destruct (IH ig1 Hk1 Hg1) as (ig' & Hfold & Hk' & Hg').
  { intros v Hv. apply Hin. by right. }
  exists ig'. simpl. by rewrite Hstep.
Qed.

(** The loop on a graph whose in-degrees are all used up: it empties the
    queue in order and enqueues nothing. *)
Lemma sort_loop_used_up E fuel st :
  od_keys (input_deg_graph (st_dag st)) = nodes E →
  (∀ v, v ∈ nodes E → ∃ z, od_get (input_deg_graph (st_dag st)) v = Some z ∧ z ≤ 0) →
  (∀ v, v ∈ nodes E → od_get (output_graph (st_dag st)) v = Some (successors E v)) →
  (∀ v, v ∈ zero_indegree st → v ∈ nodes E) →
  (length (zero_indegree st) ≤ fuel)%nat →
  ∃ st',
    sort_loop fuel st = Some st' ∧
    output_graph (st_dag st') = output_graph (st_dag st) ∧
    topo_order st' = topo_order st ++ zero_indegree st ∧
    visited_count st' = visited_count st + Z.of_nat (length (zero_indegree st)).
Proof.
  revert st. induction fuel as [|fuel IH]; intros st Hk Hg Hout HQ Hfuel.
  - destruct (zero_indegree st) as [|cur rest] eqn:HQe; [|simpl in Hfuel; lia].
    exists st. simpl. rewrite HQe, app_nil_r. split_and!; [done..|lia].
  - destruct (zero_indegree st) as [|cur rest] eqn:HQe.
    + exists st. simpl. rewrite HQe, app_nil_r. split_and!; [done..|lia].
    + assert (cur ∈ nodes E) as Hcur by (apply HQ; left).
      destruct (decrease_loop_nonpos (nodes E) (successors E cur)
                  (input_deg_graph (st_dag st)) rest Hk Hg) as (ig' & Hfold & Hk' & Hg').
      { intros v Hv%elem_of_successors. apply elem_of_nodes.
        exists (v, cur). split; [done | by left]. }
      assert (sort_step cur rest st =
                mkState (mkDAG ig' (output_graph (st_dag st))) rest
                  (topo_order st ++ [cur]) (visited_count st + 1)) as Hstep.
      { unfold sort_step. erewrite dd_getitem_present by (by apply Hout).
        by rewrite Hfold. }
      destruct (IH (sort_step cur rest st)) as (st' & Hrun & Hog & HT & Hcnt);
        rewrite ?Hstep; simpl; try done.
      { intros v Hv. apply HQ. by right. }
      { simpl in Hfuel. lia. }
      exists st'. simpl. rewrite HQe. rewrite Hstep in Hrun, Hog, HT, Hcnt.
      simpl in Hog, HT, Hcnt. split_and!.
      * by rewrite Hstep.
      * done.
      * by rewrite HT, <- app_assoc.
      * rewrite Hcnt. lia.
Qed.

Lemma topological_sort_again E :
  ¬ has_cycle E →
  ∃ g' order g'',
    topological_sort_in_place (register E) = Some (g', Ok order) ∧
    order ≡ₚ nodes E ∧
    topological_sort_in_place g' = Some (g'', Ok (nodes E)).
Proof.
  intros Hac. unfold topological_sort_in_place at 1.
  rewrite register_zero, register_fuel.
  destruct (topological_sort_fuel_run E (S (length (nodes E))))
    as (st & suffix & Hinv & HQ & HT & Hres); [lia|].
  unfold topological_sort_fuel in Hres. rewrite register_zero in Hres.
  destruct (sort_loop _ _) as [st0|] eqn:Hrun; [|done]. simpl in Hres.
  destruct (sort_loop_spec E (S (length (nodes E))) _ (sort_inv_init E))
    as (st1 & suffix1 & Hrun1 & Hinv1 & HQ1 & HT1); [simpl; lia|].
  assert (st0 = st1) as -> by congruence. clear Hres st suffix Hinv HQ HT.
  assert (∀ v, v ∈ nodes E → v ∈ topo_order st1) as Hall
    by (intros v; by apply acyclic_all_emitted).
  pose proof (inv_ready _ _ Hinv1) as Hrdy. rewrite HQ1 in Hrdy.
  setoid_rewrite app_nil_r in Hrdy.
  assert (topo_order st1 ≡ₚ nodes E) as Hperm.
  { apply NoDup_Permutation; [by eapply sort_inv_topo_nodup | apply NoDup_nodes|].
    intros v. split; [intros Hv%Hrdy; apply Hv | apply Hall]. }
  pose proof (final_check E st1 Hinv1) as Hchk.
  assert (visited_count st1 = Z.of_nat (length (od_keys (output_graph (st_dag st1)))))
    as Hcount.
  { apply Hchk. intros s Hs. apply Hall, elem_of_nodes.
    apply list_elem_of_fmap in Hs as (e & -> & He). exists e. by split; [|right]. }
  simpl. rewrite decide_False by (by intros ?).
  assert (input_deg_graph (st_dag st1) = (λ v, (v, 0)) <$> nodes E) as Hig.
  { rewrite <- (inv_keys _ _ Hinv1). apply od_explicit.
    - rewrite (inv_keys _ _ Hinv1). apply NoDup_nodes.
    - intros v Hv. rewrite (inv_keys _ _ Hinv1) in Hv.
      rewrite (inv_indeg _ _ Hinv1) by done.
      destruct (Hrdy v) as [Hr _]. destruct (Hr (Hall v Hv)) as [_ ->]. done. }
  assert (∀ v, v ∈ nodes E →
            od_get (output_graph (st_dag st1)) v = Some (successors E v)) as Hout.
  { intros v Hv.
    destruct (od_get (output_graph (st_dag st1)) v) as [l|] eqn:Hl.
    - by rewrite (inv_out_get _ _ Hinv1 _ _ Hl).
    - apply od_get_None in Hl. exfalso. apply Hl, (inv_out_keys _ _ Hinv1).
      right. by apply Hall. }
  set (g' := st_dag st1).
  assert ((filter (λ p : Node * Z, p.2 = 0) (input_deg_graph g')).*1 = nodes E) as Hzero.
  { unfold g'. rewrite Hig. clear. induction (nodes E) as [|v l IH]; [done|].
    rewrite fmap_cons, filter_cons, decide_True by done. rewrite fmap_cons. simpl.
    by f_equal. }
  destruct (sort_loop_used_up E (S (length (input_deg_graph g')))
              (mkState g' (nodes E) [] 0)) as (st2 & Hrun2 & Hog2 & HT2 & Hcnt2);
    simpl.
  { apply Hinv1. }
  { intros v Hv. exists 0. split; [|done]. unfold g'. rewrite Hig.
    clear -Hv. induction (nodes E) as [|x l IH]; [by apply elem_of_nil in Hv|].
    simpl. case_decide; [by subst|]. apply IH.
    by apply elem_of_cons in Hv as [->|?]. }
  { done. }
  { done. }
  { unfold g'. rewrite Hig, length_fmap. lia. }
  exists g', (topo_order st1), (st_dag st2). split_and!; [done|done|].
  unfold topological_sort_in_place. rewrite Hzero, Hrun2. simpl.
  simpl in HT2, Hcnt2, Hog2. rewrite HT2, Hcnt2, Hog2.
  rewrite decide_False; [done|]. intros Hne. apply Hne. unfold g'.
  rewrite Z.add_0_l. f_equal. apply Permutation_length, NoDup_Permutation;
    [apply NoDup_nodes | apply Hinv1 |].
  intros v. rewrite (inv_out_keys _ _ Hinv1). split.
  - intros Hv. right. by apply Hall.
  - intros [Hs|Hv]; [|by apply Hrdy].
    apply list_elem_of_fmap in Hs as (e & -> & He).
    apply elem_of_nodes. exists e. by split; [|right].
Qed.

End kahn_more.

(** X2: on the graph registered by any list of [add_input_edge] calls
    without a cycle, [topological_sort] returns every registered node
    exactly once, each input node before the nodes that were added with it
    as input. *)
Theorem topological_sort_acyclic_order {Node : Type} `{EqDecision Node}
    (E : list (Node * Node)) :
  ¬ has_cycle E →
  ∃ order,
    topological_sort (register E) = Some (Ok order) ∧
    NoDup order ∧
    (∀ v, v ∈ order ↔ ∃ e, e ∈ E ∧ (v = e.1 ∨ v = e.2)) ∧
    (∀ node input_node, (node, input_node) ∈ E → precedes order input_node node).
Proof.
  intros Hac.
  destruct (topological_sort_register_acyclic E Hac) as (order & Hrun & Hperm & Hord & _).
  exists order. split_and!; [done| | |].
  - rewrite Hperm. apply NoDup_nodes.
  - intros v. rewrite Hperm. apply elem_of_nodes.
  - intros node input_node He. apply (Hord _ He).
Qed.

Lemma topological_sort_acyclic_order_witness :
  ∃ order,
    topological_sort (register chain_edges) = Some (Ok order) ∧
    NoDup order ∧ precedes order 1 2 ∧ precedes order 2 3 ∧ precedes order 3 4.
Proof.
  destruct (topological_sort_acyclic_order chain_edges chain_edges_acyclic)
    as (order & Hrun & Hnd & _ & Hord).
  exists order. split_and!; [done | done |apply Hord..]; compute_done.
Defined.

Lemma sum_list_indicator {A} `{EqDecision A} (x : A) (l : list A) :
  NoDup l → x ∈ l → sum_list ((λ v, if decide (x = v) then 1 else 0)%nat <$> l) = 1%nat.
Proof.
  induction 1 as [|y l Hy Hnd IH]; [by intros ?%elem_of_nil|].
  rewrite fmap_cons. simpl. intros [->|Hx]%elem_of_cons.
  - rewrite decide_True by done.
    assert (sum_list ((λ v, if decide (y = v) then 1 else 0)%nat <$> l) = 0%nat) as ->; [|done].
    clear IH Hnd. induction l as [|z l IH]; [done|].
    apply not_elem_of_cons in Hy as [Hyz Hy]. rewrite fmap_cons. simpl.
    rewrite decide_False by done. by apply IH.
  - rewrite decide_False by (intros ->; done). by rewrite IH.
Qed.

Lemma sum_indegree {Node} `{EqDecision Node} (l : list Node) (E : list (Node * Node)) :
  NoDup l → (∀ e, e ∈ E → e.1 ∈ l) →
  sum_list (indegree E <$> l) = length E.
Proof.
  intros Hnd. induction E as [|e E IH]; intros Hin.
  - unfold indegree. simpl. clear. induction l; [done|]. by rewrite fmap_cons.
  - assert (indegree (e :: E) <$> l =
            (λ v, (if decide (e.1 = v) then 1 else 0) + indegree E v)%nat <$> l) as ->.
    { apply list_fmap_ext. intros _ v _. unfold indegree.
      rewrite filter_cons. by case_decide. }
    assert (∀ (f g : Node → nat),
              sum_list ((λ v, f v + g v)%nat <$> l) =
              (sum_list (f <$> l) + sum_list (g <$> l))%nat) as Hsum.
    { intros f g. clear. induction l as [|x l IHl]; [done|].
      rewrite !fmap_cons. simpl. rewrite IHl. lia. }
    rewrite Hsum, IH by (intros e' He'; apply Hin; by right).
    rewrite sum_list_indicator; [done | done | apply Hin; left].
Qed.

Lemma sum_list_Z {A} (f : A → nat) (l : list A) :
  foldr Z.add 0 ((λ v, (v, Z.of_nat (f v))) <$> l).*2 = Z.of_nat (sum_list (f <$> l)).
Proof. induction l as [|x l IH]; [done|]. rewrite !fmap_cons. simpl. rewrite IH. lia. Qed.

(** X3: after any sequence of [add_input_edge] calls, the in-degree table
    has one entry for every node the calls mention, in the order of first
    mention (of each call the input node, then the node), holding the number
    of calls that added the node, so the entries add up to the number of
    calls; the adjacency table has one entry for every input node, holding
    the nodes added with it as input, in call order, repeats included. *)
Theorem add_input_edge_bookkeeping {Node : Type} `{EqDecision Node}
    (E : list (Node * Node)) :
  input_deg_graph (register E) = (λ v, (v, Z.of_nat (indegree E v))) <$> nodes E ∧
  NoDup (nodes E) ∧
  (∀ v, v ∈ nodes E ↔ ∃ e, e ∈ E ∧ (v = e.1 ∨ v = e.2)) ∧
  foldr Z.add 0 (input_deg_graph (register E)).*2 = Z.of_nat (length E) ∧
  NoDup (od_keys (output_graph (register E))) ∧
  (∀ v, od_get (output_graph (register E)) v =
          if decide (v ∈ E.*2) then Some (successors E v) else None).
Proof.
  split_and!.
  - apply register_indeg_explicit.
  - apply NoDup_nodes.
  - apply elem_of_nodes.
  - rewrite register_indeg_explicit, sum_list_Z. f_equal.
    apply sum_indegree; [apply NoDup_nodes|].
    intros e He. apply elem_of_nodes. exists e. split; [done | by left].
  - apply register_out_nodup.
  - apply register_out_get.
Qed.

(** X7: [topological_sort] uses up the graph it sorts. After a first call
    on a graph without cycle has returned its order, a second call on the
    same object raises nothing and returns the nodes in the order they were
    first registered, which need not put an input node before the nodes
    that depend on it. *)
Theorem topological_sort_second_call {Node : Type} `{EqDecision Node}
    (E : list (Node * Node)) :
  ¬ has_cycle E →
  ∃ g' order g'',
    topological_sort_in_place (register E) = Some (g', Ok order) ∧
    topological_sort (register E) = Some (Ok order) ∧
    topological_sort_in_place g' = Some (g'', Ok (nodes E)) ∧
    topological_sort g' = Some (Ok (nodes E)).
Proof.
  intros Hac.
  destruct (topological_sort_again E Hac) as (g' & order & g'' & H1 & _ & H2).
  exists g', order, g''. split_and!; [done| |done|].
  - by rewrite topological_sort_in_place_result, H1.
  - by rewrite topological_sort_in_place_result, H2.
Qed.

Lemma backward_edges_acyclic : ¬ has_cycle backward_edges.
Proof. intros Hc%topological_sort_register_cyclic. by vm_compute in Hc. Qed.

Lemma topological_sort_second_call_witness :
  ∃ g',
    topological_sort_in_place (register backward_edges) = Some (g', Ok [0; 1; 2]) ∧
    topological_sort g' = Some (Ok [1; 2; 0]).
Proof.
  destruct (topological_sort_second_call backward_edges backward_edges_acyclic)
    as (g' & order & g'' & H1 & H2 & _ & H4).
  exists g'. split; [|exact H4].
  rewrite H1. f_equal. f_equal. f_equal.
  assert (Some (Ok order) = Some (Ok [0; 1; 2])) as [= ->]; [|done].
  rewrite <- H2. by vm_compute.
Defined.

(** ** [topo_sort_pipeline]: what it returns and what it raises *)










(** ** Signs of float results *)

Lemma SFnonneg_leb (x : float) : (0 <=? x)%float = true ↔ SFnonneg (Prim2SF x).
Proof.
  rewrite leb_spec. change (Prim2SF 0) with (S754_zero false).
  destruct (Prim2SF x) as [s|[]| |[] m e]; cbn; split; done.
Qed.

Lemma SFnonneg_binary_round_aux (mx ex : Z) (lx : location) :
  0 ≤ mx → SFnonneg (binary_round_aux prec emax false mx ex lx).
Proof.
  intros Hm.
  destruct (binary_round_aux_sign false mx ex lx Hm) as [->|[->|(m & e & ->)]]; done.
Qed.

Lemma SFnonneg_div (x : spec_float) (m : positive) (e : Z) :
  SFnonneg x → SFnonneg (SF64div x (S754_finite false m e)).
Proof.
  destruct x as [s|[]| |[] mx ex]; try done. intros _.
  unfold SF64div, SFdiv.
  pose proof (SFdiv_core_binary_nonneg mx m ex e) as Hnn.
  destruct (SFdiv_core_binary _ _ _ _ _ _) as [[mz ez] lz]. simpl in Hnn.
  by apply SFnonneg_binary_round_aux.
Qed.

Lemma SFnonneg_mul (x : spec_float) (m : positive) (e : Z) :
  SFnonneg x → SFnonneg (SF64mul x (S754_finite false m e)).
Proof.
  destruct x as [s|[]| |[] mx ex]; try done. intros _.
  unfold SF64mul, SFmul. by apply SFnonneg_binary_round_aux.
Qed.

Lemma SFnonneg_binary_normalize (m e : Z) :
  0 ≤ m → SFnonneg (binary_normalize prec emax m e false).
Proof.
  intros Hm. destruct m as [|p|p]; [done| |lia].
  unfold binary_normalize, binary_round.
  destruct (shl_align _ _ _) as [mz ez]. by apply SFnonneg_binary_round_aux.
Qed.

Lemma SFnonneg_add (x y : spec_float) :
  SFnonneg x → SFnonneg y → SFnonneg (SF64add x y).
Proof.
  destruct x as [sx|[]| |[] mx ex], y as [sy|[]| |[] my ey]; try done.
  - intros _ _. by destruct sx, sy.
  - intros _ _. unfold SF64add, SFadd. by apply SFnonneg_binary_normalize.
Qed.

Lemma float_of_int_nonneg (n : Z) : 0 ≤ n → SFnonneg (Prim2SF (float_of_int n)).
Proof.
  intros Hn. unfold float_of_int.
  destruct (n <? 0) eqn:Hlt; [apply Z.ltb_lt in Hlt; lia|].
  rewrite of_uint63_spec. apply SFnonneg_binary_normalize.
  apply Uint63.to_Z_bounded.
Qed.

Lemma SFltb_zero_nonneg (x : float) :
  (0 <? x)%float = true →
  Prim2SF x = S754_infinity false ∨ ∃ m e, Prim2SF x = S754_finite false m e.
Proof.
  rewrite ltb_spec. change (Prim2SF 0) with (S754_zero false).
  destruct (Prim2SF x) as [s|[]| |[] m e]; cbn; try done.
  - by left.
  - right. by eexists _, _.
Qed.

(** X8: with at least one online core, and a host-CPU delta that is not the
    infinity, the [cpu_percent] that [_process_raw_data] computes is a number
    and is not negative; the timestamp and the memory are numbers and not
    negative whenever the raw values they average are. *)
Theorem process_raw_data_never_negative (ONLINE_CPUS : Z) (prev cur : RawMetrics) :
  finite_pos (float_of_int ONLINE_CPUS) →
  (sys_cpu cur - sys_cpu prev)%float ≠ infinity →
  let m := _process_raw_data ONLINE_CPUS prev cur in
  (0 <=? cpu_percent m)%float = true ∧
  ((0 <=? raw_timestamp prev)%float = true → (0 <=? raw_timestamp cur)%float = true →
   (0 <=? timestamp m)%float = true) ∧
  ((0 <=? raw_memory prev)%float = true → (0 <=? raw_memory cur)%float = true →
   (0 <=? memory m)%float = true).
Proof.
  intros (mn & en & Hn) Hsys. cbv zeta. unfold _process_raw_data. simpl. split_and!.
  - destruct (0 <? (cpu cur - cpu prev) / NS_PER_S)%float eqn:Hcpu; [|done].
    destruct (0 <? sys_cpu cur - sys_cpu prev)%float eqn:Hs; [|done]. simpl.
    apply SFnonneg_leb. rewrite !mul_spec, div_spec, Hn.
    change (Prim2SF 100) with (S754_finite false 7036874417766400 (-46)).
    apply SFltb_zero_nonneg in Hs as [Hinf|(ms & es & ->)].
    { exfalso. apply Hsys. by apply Prim2SF_inj. }
    apply SFnonneg_mul, SFnonneg_mul, SFnonneg_div.
    by apply SFltb_zero_nonneg in Hcpu as [->|(mc & ec & ->)].
  - intros H1%SFnonneg_leb H2%SFnonneg_leb. apply SFnonneg_leb.
    rewrite div_spec, add_spec.
    change (Prim2SF 2) with (S754_finite false 4503599627370496 (-51)).
    by apply SFnonneg_div, SFnonneg_add.
  - intros H1%SFnonneg_leb H2%SFnonneg_leb. apply SFnonneg_leb.
    rewrite !div_spec, add_spec.
    change (Prim2SF 2) with (S754_finite false 4503599627370496 (-51)).
    change (Prim2SF B_MB_FACTOR) with (S754_finite false 8589934592000000 (-33)).
    by apply SFnonneg_div, SFnonneg_div, SFnonneg_add.
Qed.

Lemma process_raw_data_never_negative_witness :
  (0 <=? cpu_percent (_process_raw_data 4 raw_first raw_second))%float = true ∧
  (0 <=? memory (_process_raw_data 4 raw_first raw_second))%float = true.
Proof.
  assert (finite_pos (float_of_int 4)) as H1 by (by eexists _, _).
  assert ((sys_cpu raw_second - sys_cpu raw_first)%float ≠ infinity) as H2.
  { intros Heq. apply (f_equal Prim2SF) in Heq. vm_compute in Heq. discriminate. }
  destruct (process_raw_data_never_negative 4 raw_first raw_second H1 H2) as (Hc & _ & Hm).
  split; [exact Hc|]. apply Hm; by vm_compute.
Defined.

(** ** Signs in the summary *)

Lemma round_half_even_nonneg (num den : Z) : 0 ≤ num → 0 < den → 0 ≤ round_half_even num den.
Proof.
  intros Hn Hd. unfold round_half_even.
  assert (0 ≤ num / den) by (apply Z.div_pos; lia).
  repeat case_match; lia.
Qed.

Lemma SFnonneg_round3 (x : float) : SFnonneg (Prim2SF x) → SFnonneg (Prim2SF (round3 x)).
Proof.
  intros Hx. unfold round3.
  destruct (Prim2SF x) as [s|[]| |[] m e] eqn:Hp; rewrite ?Hp; try done.
  set (n := if 0 <=? e then _ else _).
  assert (0 ≤ n) as Hn.
  { unfold n. destruct (0 <=? e) eqn:He.
    - apply Z.leb_le in He. apply Z.mul_nonneg_nonneg; [|lia].
      apply Z.mul_nonneg_nonneg; [lia|]. by apply Z.pow_nonneg.
    - apply Z.leb_gt in He. apply round_half_even_nonneg; [lia|].
      apply Z.pow_pos_nonneg; lia. }
  destruct (n <? 2 ^ 53); [|by rewrite Hp].
  rewrite div_spec.
  change (Prim2SF 1000) with (S754_finite false 8796093022208000 (-43)).
  by apply SFnonneg_div, float_of_int_nonneg.
Qed.

Lemma math_ceil_nonneg (x : float) (n : Z) :
  SFnonneg (Prim2SF x) → math_ceil x = Ok n → 0 ≤ n.
Proof.
  unfold math_ceil. destruct (Prim2SF x) as [s|[]| |[] m e]; try done.
  - by intros _ [= <-].
  - intros _ [= <-]. destruct (0 <=? e) eqn:He.
    + apply Z.leb_le in He. apply Z.mul_nonneg_nonneg; [lia|]. by apply Z.pow_nonneg.
    + apply Z.leb_gt in He.
      assert (0 < 2 ^ (- e)) as Hpos by (apply Z.pow_pos_nonneg; lia).
      assert (- Z.pos m / 2 ^ (- e) ≤ 0); [|lia].
      apply Z.div_le_upper_bound; lia.
Qed.

(** X15: when the summary is produced from samples whose CPU percentages
    and memory are numbers and not negative, the maxima it shows are not
    negative, and neither are the recommended number of cores and the
    recommended memory. *)
Theorem print_operator_summary_never_negative (metrics : list Metrics) (s : Summary) :
  print_operator_summary metrics = Ok s →
  Forall (λ m, (0 <=? cpu_percent m)%float = true) metrics →
  Forall (λ m, (0 <=? memory m)%float = true) metrics →
  (0 <=? cpu_max s)%float = true ∧ (0 <=? memory_max s)%float = true ∧
  0 ≤ recommended_cpu s ∧ 0 ≤ recommended_memory s.
Proof.
  unfold print_operator_summary, convert_percent_to_cores,
    round_up_to_multiple, py_truediv, mbind, result_bind, mret, result_ret.
  destruct (float_of_int (Z.of_nat (length metrics)) =? 0)%float; [done|].
  destruct (py_max (cpu_percent <$> metrics)) as [cmax|] eqn:Hc; [|done].
  destruct (py_max (memory <$> metrics)) as [mmax|] eqn:Hm; [|done].
  destruct (math_ceil (round3 cmax / 100)) as [cores|] eqn:Hcores; [|done].
  change (float_of_int 256) with 256%float.
  change (256 =? 0)%float with false. cbv iota.
  destruct (math_ceil ((round3 mmax + 100) / 256)) as [n|] eqn:Hn; [|done].
  intros [= <-] Hcpu Hmem. simpl.
  assert (SFnonneg (Prim2SF (round3 cmax))) as Hcm.
  { apply SFnonneg_round3, SFnonneg_leb.
    apply py_max_elem_of, list_elem_of_fmap in Hc as (m & -> & Hin).
    rewrite Forall_forall in Hcpu. by apply Hcpu. }
  assert (SFnonneg (Prim2SF (round3 mmax))) as Hmm.
  { apply SFnonneg_round3, SFnonneg_leb.
    apply py_max_elem_of, list_elem_of_fmap in Hm as (m & -> & Hin).
    rewrite Forall_forall in Hmem. by apply Hmem. }
  split_and!; [by apply SFnonneg_leb..| |].
  - apply (math_ceil_nonneg (round3 cmax / 100)%float); [|done].
    rewrite div_spec.
    change (Prim2SF 100) with (S754_finite false 7036874417766400 (-46)).
    by apply SFnonneg_div.
  - assert (0 ≤ n); [|lia].
    apply (math_ceil_nonneg ((round3 mmax + 100) / 256)%float); [|done].
    rewrite div_spec, add_spec.
    change (Prim2SF 256) with (S754_finite false 4503599627370496 (-44)).
    change (Prim2SF 100) with (S754_finite false 7036874417766400 (-46)).
    by apply SFnonneg_div, SFnonneg_add.
Qed.

Lemma print_operator_summary_never_negative_witness :
  ∃ s,
    print_operator_summary
      [mkMetrics 1.5 10 20; mkMetrics 1.5 20 20; mkMetrics 1.5 30 25] = Ok s ∧
    0 ≤ recommended_cpu s ∧ 0 ≤ recommended_memory s.
Proof.
  assert (print_operator_summary
            [mkMetrics 1.5 10 20; mkMetrics 1.5 20 20; mkMetrics 1.5 30 25]
          = Ok (mkSummary 20 30 1 21.667 25 256)) as Hs by (by vm_compute).
  assert (Forall (λ m, (0 <=? cpu_percent m)%float = true)
            [mkMetrics 1.5 10 20; mkMetrics 1.5 20 20; mkMetrics 1.5 30 25]) as H1
    by (repeat constructor).
  assert (Forall (λ m, (0 <=? memory m)%float = true)
            [mkMetrics 1.5 10 20; mkMetrics 1.5 20 20; mkMetrics 1.5 30 25]) as H2
    by (repeat constructor).
  destruct (print_operator_summary_never_negative _ _ Hs H1 H2) as (_ & _ & Hc & Hm).
  eexists. split; [exact Hs|]. split; [exact Hc | exact Hm].
Defined.

(** ** Sampling: what a call changes *)

Lemma sample_metrics_step ONLINE_CPUS read c :
  let c' := (sample_metrics ONLINE_CPUS read c).1 in
  id c' = id c ∧ metric_paths c' = metric_paths c ∧
  raw_metrics c' =
    raw_metrics c ++ match metric_paths c with
                     | Some _ => read_samples [read]
                     | None => []
                     end ∧
  metrics c `prefix_of` metrics c'.
Proof.
  cbv zeta. unfold sample_metrics.
  destruct (metric_paths c) as [p|] eqn:Hp; [|by rewrite app_nil_r].
  destruct read as [raw|e].
  - change (read_samples [ReadOk raw]) with [raw].
    case_decide; [|done].
    destruct (_ !! _) as [prev|]; [|done]. destruct (_ !! _) as [cur|]; [|done].
    simpl. split_and!; [done..|]. by apply prefix_app_r.
  - change (read_samples [ReadRaises e]) with (@nil RawMetrics). rewrite app_nil_r.
    destruct e; try done. by case_decide.
Qed.

Lemma read_samples_cons read reads :
  read_samples (read :: reads) = read_samples [read] ++ read_samples reads.
Proof. unfold read_samples. simpl. by destruct read. Qed.

Lemma sample_many_history ONLINE_CPUS reads c :
  let c' := sample_many ONLINE_CPUS reads c in
  id c' = id c ∧ metric_paths c' = metric_paths c ∧
  raw_metrics c' =
    raw_metrics c ++ match metric_paths c with
                     | Some _ => read_samples reads
                     | None => []
                     end ∧
  metrics c `prefix_of` metrics c'.
Proof.
  cbv zeta. unfold sample_many. revert c.
  induction reads as [|read reads IH]; intros c; cbn [foldl].
  - split_and!; [done..| |done]. destruct (metric_paths c); by rewrite app_nil_r.
  - destruct (sample_metrics_step ONLINE_CPUS read c) as (H1 & H2 & H3 & H4).
    destruct (IH (sample_metrics ONLINE_CPUS read c).1) as (I1 & I2 & I3 & I4).
    split_and!; [congruence | congruence | | by etrans].
    rewrite I3, H2, H3, (read_samples_cons read reads).
    destruct (metric_paths c); by rewrite <- ?app_assoc, ?app_nil_r.
Qed.

(** X9: whatever a sequence of [sample_metrics] calls reads, the container
    keeps its id and its paths, the raw samples it had and the metrics it
    had; its raw samples grow by exactly the reads that succeeded, in
    order (by none when the paths were never constructed), so a read that
    raised leaves no trace.  A call with paths whose read raises nothing
    fatal returns the metrics of the new sample and the one before it, or
    [None] when the read failed or there was no sample before. *)
Theorem sample_metrics_keeps_history (ONLINE_CPUS : Z) (reads : list read_outcome)
    (c : Container) :
  let c' := sample_many ONLINE_CPUS reads c in
  id c' = id c ∧ metric_paths c' = metric_paths c ∧
  raw_metrics c' =
    raw_metrics c ++ match metric_paths c with
                     | Some _ => read_samples reads
                     | None => []
                     end ∧
  metrics c `prefix_of` metrics c' ∧
  (∀ read, metric_paths c ≠ None → ¬ fatal_read read →
     (sample_metrics ONLINE_CPUS read c).2 =
       Ok match read, last (raw_metrics c) with
          | ReadOk raw, Some prev => Some (_process_raw_data ONLINE_CPUS prev raw)
          | _, _ => None
          end).
Proof.
  cbv zeta. destruct (sample_many_history ONLINE_CPUS reads c) as (H1 & H2 & H3 & H4).
  split_and!; [done..|].
  intros read Hp Hfatal. unfold sample_metrics.
  destruct (metric_paths c) as [p|]; [|done].
  destruct read as [raw|e].
  - destruct (raw_metrics c) as [|r0 raws] eqn:Hraw; [done|].
    rewrite decide_True by (rewrite length_app; simpl; lia).
    destruct (lookup_snoc_last2 (r0 :: raws) raw) as [-> ->]; [done|].
    destruct (last (r0 :: raws)) eqn:Hlast; [done | by apply last_None in Hlast].
  - destruct e; simpl in Hfatal; try done. by case_decide.
Qed.

Lemma sample_metrics_keeps_history_witness :
  raw_metrics (sample_many 4
                 [ReadOk raw_first; ReadRaises (OSError 19); ReadOk raw_second]
                 (mkContainer docker_id_line (Some ("cpu", "percpu", "mem")) [] []))
    = [raw_first; raw_second] ∧
  (sample_metrics 4 (ReadOk raw_second)
     (mkContainer docker_id_line (Some ("cpu", "percpu", "mem")) [raw_first] [])).2
    = Ok (Some (_process_raw_data 4 raw_first raw_second)).
Proof.
  split.
  - apply (proj1 (proj2 (proj2 (sample_metrics_keeps_history 4
             [ReadOk raw_first; ReadRaises (OSError 19); ReadOk raw_second]
             (mkContainer docker_id_line (Some ("cpu", "percpu", "mem")) [] []))))).
  - apply (proj2 (proj2 (proj2 (proj2 (sample_metrics_keeps_history 4 []
             (mkContainer docker_id_line (Some ("cpu", "percpu", "mem")) [raw_first] []))))));
      [done | simpl; tauto].
Defined.

(** Fewer than two raw samples leave a new container without metrics. *)
Lemma sample_many_few_samples ONLINE_CPUS cid paths reads :
  (length (read_samples reads) < 2)%nat →
  metrics (sample_many ONLINE_CPUS reads (mkContainer cid paths [] [])) = [].
Proof.
  intros Hlen.
  pose proof (sample_many_pairs ONLINE_CPUS reads (mkContainer cid paths [] []) eq_refl)
    as Hpairs.
  destruct (sample_many_history ONLINE_CPUS reads (mkContainer cid paths [] []))
    as (_ & _ & Hraw & _).
  simpl in Hraw. rewrite Hraw in Hpairs. rewrite Hpairs. destruct paths; [|done].
  destruct (read_samples reads) as [|r0 [|r1 l]]; [done | done | simpl in Hlen; lia].
Qed.

(** X11: when fewer than two reads succeed while a new container is
    sampled, the container has no metrics at the end, and
    [print_operator_summary] on them raises [ZeroDivisionError]. *)
Theorem print_operator_summary_needs_two_samples
    (ONLINE_CPUS : Z) (cid : list N) (paths : option (string * string * string))
    (reads : list read_outcome) :
  (length (read_samples reads) < 2)%nat →
  metrics (sample_many ONLINE_CPUS reads (mkContainer cid paths [] [])) = [] ∧
  print_operator_summary
    (metrics (sample_many ONLINE_CPUS reads (mkContainer cid paths [] [])))
    = Raise ZeroDivisionError.
Proof.
  intros Hlen. rewrite (sample_many_few_samples _ _ _ _ Hlen).
  split; [done | by vm_compute].
Qed.

Lemma print_operator_summary_needs_two_samples_witness :
  print_operator_summary
    (metrics (sample_many 4 [ReadRaises FileNotFoundError; ReadOk raw_first]
                (mkContainer docker_id_line (Some ("cpu", "percpu", "mem")) [] [])))
    = Raise ZeroDivisionError.
Proof.
  apply (proj2 (print_operator_summary_needs_two_samples 4 docker_id_line
           (Some ("cpu", "percpu", "mem"))
           [ReadRaises FileNotFoundError; ReadOk raw_first] ltac:(simpl; lia))).
Defined.

(** ** From the sampling loop to the CSV writer *)

Lemma write_to_csv_app (items rest : list queue_item) :
  PutZero ∉ items →
  write_to_csv (items ++ rest) =
    ((write_to_csv items).1 ++ (write_to_csv rest).1, (write_to_csv rest).2).
Proof.
  induction items as [|item items IH]; intros Hz; simpl.
  - by destruct (write_to_csv rest).
  - apply not_elem_of_cons in Hz as [Hi Hz]. destruct item; [by apply IH| |done].
    rewrite (IH Hz). by destruct (write_to_csv items).
Qed.

Lemma write_to_csv_waits (items : list queue_item) :
  PutZero ∉ items → (write_to_csv items).2 = false.
Proof.
  induction items as [|item items IH]; intros Hz; [done|].
  apply not_elem_of_cons in Hz as [Hi Hz]. destruct item; simpl; [by apply IH| |done].
  specialize (IH Hz). by destruct (write_to_csv items).
Qed.

(** One call of [sample_metrics] that raises nothing: what it returns is
    what it appended to the metrics. *)
Lemma sample_metrics_returns ONLINE_CPUS read c metric c' :
  sample_metrics ONLINE_CPUS read c = (c', Ok metric) →
  c' = (sample_metrics ONLINE_CPUS read c).1 ∧
  metric_paths c' = metric_paths c ∧
  metrics c' = metrics c ++ (write_to_csv [queue_item_of metric]).1.
Proof.
  intros Hcall. rewrite Hcall. split; [done|]. revert Hcall. unfold sample_metrics.
  destruct (metric_paths c) as [p|] eqn:Hp; [|done].
  destruct read as [raw|e].
  - case_decide.
    + destruct (_ !! _) as [prev|]; [|done]. destruct (_ !! _) as [cur|]; [|done].
      by intros [= <- <-].
    + intros [= <- <-]. simpl. by rewrite app_nil_r.
  - destruct e; try done; [|intros [= <- <-]; simpl; by rewrite app_nil_r].
    case_decide; [|done]. intros [= <- <-]. simpl. by rewrite app_nil_r.
Qed.

Lemma sample_metrics_raises ONLINE_CPUS read c :
  metric_paths c ≠ None →
  (∃ e, (sample_metrics ONLINE_CPUS read c).2 = Raise e) ↔ fatal_read read.
Proof.
  intros Hp. unfold sample_metrics. destruct (metric_paths c) as [p|]; [|done].
  destruct read as [raw|e]; simpl.
  - destruct (raw_metrics c) as [|r0 raws] eqn:Hraw.
    + simpl. split; [by intros [? ?] | done].
    + rewrite decide_True by (rewrite length_app; simpl; lia).
      destruct (lookup_snoc_last2 (r0 :: raws) raw) as [-> ->]; [done|].
      destruct (last (r0 :: raws)) eqn:Hlast; [|by apply last_None in Hlast].
      simpl. split; [by intros [? ?] | done].
  - destruct e; simpl; try (split; [done | intros _; by eexists]);
      try (split; [by intros [? ?] | done]).
    case_decide; simpl; split; try done; [by intros [? ?] | intros _; by eexists].
Qed.

Lemma sampling_loop_run ONLINE_CPUS reads c q :
  metric_paths c ≠ None →
  ∃ c' items r,
    sampling_loop ONLINE_CPUS reads c (Some q) = (c', Some (q ++ items), r) ∧
    (PutZero ∉ items) ∧
    metrics c' = metrics c ++ (write_to_csv items).1 ∧
    (Forall (λ read, ¬ fatal_read read) reads →
       r = Ok () ∧ c' = sample_many ONLINE_CPUS reads c ∧ length items = length reads) ∧
    (Exists fatal_read reads → ∃ e, r = Raise e).
Proof.
  revert c q. induction reads as [|read reads IH]; intros c q Hp.
  - exists c, [], (Ok ()). simpl. destruct (metric_paths c); [|done].
    rewrite !app_nil_r. split_and!; [done | apply not_elem_of_nil | done | done |].
    by intros ?%Exists_nil.
  - simpl. destruct (metric_paths c) as [p|] eqn:Hpc; [|done].
    destruct (sample_metrics ONLINE_CPUS read c) as [c1 [metric|e]] eqn:Hcall.
    + destruct (sample_metrics_returns _ _ _ _ _ Hcall) as (Hc1 & Hp1 & Hm1).
      destruct (IH c1 (q ++ [queue_item_of metric])) as (c' & items & r & Hrun & Hz & Hm & Hok & Hbad).
      { by rewrite Hp1, Hpc. }
      exists c', (queue_item_of metric :: items), r.
      rewrite Hrun, <- app_assoc. simpl. split_and!; [done| | | |].
      * apply not_elem_of_cons. split; [by destruct metric | done].
      * rewrite Hm, Hm1, <- app_assoc. f_equal.
        destruct metric; simpl; by destruct (write_to_csv items).
      * intros [Hr Hrs]%Forall_cons. destruct (Hok Hrs) as (-> & -> & ->).
        rewrite Hc1. done.
      * intros [Hr|Hrs]%Exists_cons; [|by apply Hbad]. exfalso.
        apply (sample_metrics_raises ONLINE_CPUS read c) in Hr as [e He]; [|by rewrite Hpc].
        rewrite Hcall in He. done.
    + exists c1, [], (Raise e). rewrite app_nil_r. simpl.
      assert (fatal_read read) as Hfatal.
      { apply (sample_metrics_raises ONLINE_CPUS read c); [by rewrite Hpc|].
        exists e. by rewrite Hcall. }
      split_and!; [done | apply not_elem_of_nil | | |by eexists].
      * rewrite app_nil_r.
        destruct (sample_metrics_step ONLINE_CPUS read c) as (_ & _ & _ & Hpre).
        revert Hcall Hfatal. unfold sample_metrics. rewrite Hpc.
        destruct read as [raw|e']; [done|].
        destruct e'; try (by intros [= <- <-]). case_decide; [done | by intros [= <- <-]].
      * by intros [Hr _]%Forall_cons.
Qed.

(** X10: for a new container with its paths set and a queue, when no read
    of the sampling loop raises anything that [sample_metrics] lets
    through, [sample_operator] ends with the container that the calls of
    [sample_metrics] built, having put one item on the queue for each call
    and the closing [0], and the rows that [write_to_csv] writes from that
    queue are exactly the container's metrics, in order, after which it
    ends.  When a read does raise, [sample_operator] raises, the [0] is
    never put, and [write_to_csv] is left waiting on the queue, with the
    rows written so far being the container's metrics. *)
Theorem sample_operator_feeds_write_to_csv
    (ONLINE_CPUS : Z) (cid : list N) (paths : string * string * string)
    (reads : list read_outcome) :
  let c0 := mkContainer cid (Some paths) [] [] in
  (Forall (λ read, ¬ fatal_read read) reads →
     ∃ items,
       sample_operator ONLINE_CPUS reads c0 (Some [])
         = (sample_many ONLINE_CPUS reads c0, Some items, Ok ()) ∧
       length items = S (length reads) ∧
       write_to_csv items = (metrics (sample_many ONLINE_CPUS reads c0), true)) ∧
  (Exists fatal_read reads →
     ∃ c items e,
       sample_operator ONLINE_CPUS reads c0 (Some []) = (c, Some items, Raise e) ∧
       (PutZero ∉ items) ∧
       write_to_csv items = (metrics c, false)).
Proof.
  cbv zeta. unfold sample_operator.
  destruct (sampling_loop_run ONLINE_CPUS reads (mkContainer cid (Some paths) [] []) [])
    as (c' & items & r & Hrun & Hz & Hm & Hok & Hbad); [done|].
  rewrite Hrun. simpl in Hm. split.
  - intros Hall. destruct (Hok Hall) as (-> & <- & Hlen).
    exists (items ++ [PutZero]). simpl. split_and!; [done| |].
    + rewrite length_app. simpl. lia.
    + rewrite write_to_csv_app by done. simpl. by rewrite app_nil_r, Hm.
  - intros Hex. destruct (Hbad Hex) as [e ->].
    exists c', items, e. simpl. split_and!; [done..|].
    rewrite Hm. pose proof (write_to_csv_waits items Hz) as Hw.
    by destruct (write_to_csv items) as [rows []].
Qed.

Lemma sample_operator_feeds_write_to_csv_witness :
  ∃ items,
    sample_operator 4 [ReadOk raw_first; ReadRaises FileNotFoundError; ReadOk raw_second]
      (mkContainer docker_id_line (Some ("cpu", "percpu", "mem")) [] []) (Some [])
      = (sample_many 4 [ReadOk raw_first; ReadRaises FileNotFoundError; ReadOk raw_second]
           (mkContainer docker_id_line (Some ("cpu", "percpu", "mem")) [] []),
         Some items, Ok ()) ∧
    items = [PutNone; PutNone; PutMetrics (_process_raw_data 4 raw_first raw_second); PutZero] ∧
    write_to_csv items = ([_process_raw_data 4 raw_first raw_second], true).
Proof.
  destruct (proj1 (sample_operator_feeds_write_to_csv 4 docker_id_line
                     ("cpu", "percpu", "mem")
                     [ReadOk raw_first; ReadRaises FileNotFoundError; ReadOk raw_second]))
    as (items & Hrun & _ & Hcsv).
  { repeat constructor; simpl; tauto. }
  exists items. split; [exact Hrun|].
  assert (items = [PutNone; PutNone;
                   PutMetrics (_process_raw_data 4 raw_first raw_second); PutZero]) as ->.
  { cbv [sample_operator sampling_loop sample_metrics metric_paths raw_metrics metrics
         que_put queue_item_of fmap option_fmap option_map app length decide_rel
         lookup list_lookup Nat.sub] in Hrun. simpl in Hrun. congruence. }
  split; [done|]. exact Hcsv.
Defined.

(** ** Reading names and addresses *)

Lemma lstrip_not_space (c : N) (s : list N) : is_space c = false → lstrip (c :: s) = c :: s.
Proof. intros Hc. simpl. by rewrite Hc. Qed.

Lemma lstrip_spaces (ws s : list N) :
  Forall (λ c, is_space c = true) ws → lstrip (ws ++ s) = lstrip s.
Proof. induction 1 as [|c ws Hc _ IH]; [done|]. simpl. by rewrite Hc. Qed.

(** Stripping removes the white space around a text that begins and ends
    with other characters. *)
Lemma strip_padded (ws1 ws2 : list N) (a b : N) (mid : list N) :
  Forall (λ c, is_space c = true) ws1 → Forall (λ c, is_space c = true) ws2 →
  is_space a = false → is_space b = false →
  strip (ws1 ++ [a] ++ mid ++ [b] ++ ws2) = [a] ++ mid ++ [b].
Proof.
  intros H1 H2 Ha Hb. unfold strip.
  rewrite lstrip_spaces by done. simpl. rewrite Ha.
  change (a :: mid ++ b :: ws2) with ([a] ++ mid ++ [b] ++ ws2).
  rewrite !reverse_app, reverse_singleton, <- !app_assoc.
  rewrite lstrip_spaces by (by apply Forall_reverse).
  rewrite reverse_singleton. simpl. rewrite Hb.
  change (b :: reverse mid ++ [a]) with ([b] ++ reverse mid ++ [a]).
  by rewrite !reverse_app, !reverse_singleton, reverse_involutive, <- app_assoc.
Qed.

Lemma slice_1_m1_quoted {A} (a b : A) (mid : list A) :
  slice_1_m1 ([a] ++ mid ++ [b]) = mid.
Proof.
  unfold slice_1_m1. simpl. rewrite length_app. simpl.
  replace (length mid + 1 - 1)%nat with (length mid) by lia.
  by rewrite drop_0, take_app_length.
Qed.

Lemma split_colon_no_colon (s : list N) : 58%N ∉ s → split_colon s = [s].
Proof.
  induction s as [|c s IH]; [done|]. intros [Hc Hs]%not_elem_of_cons. simpl.
  rewrite decide_False by done. by rewrite IH.
Qed.

Lemma split_colon_app (s t : list N) :
  58%N ∉ s → split_colon (s ++ 58%N :: t) = s :: split_colon t.
Proof.
  induction s as [|c s IH]; [done|]. intros [Hc Hs]%not_elem_of_cons. simpl.
  rewrite decide_False by done. by rewrite IH.
Qed.

Lemma readline_app (s t : list N) :
  10%N ∉ s → 13%N ∉ s → readline (s ++ t) = s ++ readline t.
Proof.
  induction s as [|c s IH]; [done|].
  intros [Hc10 Hs10]%not_elem_of_cons [Hc13 Hs13]%not_elem_of_cons. simpl.
  rewrite decide_False by (intros [?|?]; congruence). by rewrite IH.
Qed.

Lemma readline_line_end (c : N) (t : list N) :
  c = 10%N ∨ c = 13%N → readline (c :: t) = [10%N].
Proof. intros Hc. simpl. by rewrite decide_True. Qed.

(** A text with a line end, cut at the first one. *)
Lemma first_line_end (s : list N) :
  10%N ∈ s ∨ 13%N ∈ s →
  ∃ pre c post, s = pre ++ c :: post ∧ (c = 10%N ∨ c = 13%N) ∧ (10%N ∉ pre) ∧ (13%N ∉ pre).
Proof.
  induction s as [|c s IH]; [by intros [?%elem_of_nil|?%elem_of_nil]|].
  intros Hin. destruct (decide (c = 10%N ∨ c = 13%N)) as [Hc|Hc].
  - exists [], c, s. split_and!; [done | done | apply not_elem_of_nil..].
  - destruct IH as (pre & c' & post & -> & Hc' & H10 & H13).
    { destruct Hin as [[Heq|Hs]%elem_of_cons|[Heq|Hs]%elem_of_cons];
        [exfalso; apply Hc; by left | by left | exfalso; apply Hc; by right | by right]. }
    exists (c :: pre), c', post. split_and!; [done | done | |];
      apply not_elem_of_cons; split; (done || (intros ?; apply Hc; auto)).
Qed.

Lemma lstrip_length (s : list N) : (length (lstrip s) ≤ length s)%nat.
Proof. induction s as [|c s IH]; simpl; [done|]. destruct (is_space c); simpl; lia. Qed.

Lemma slice_1_m1_length {A} (s : list A) : (length (slice_1_m1 s) ≤ length s - 2)%nat.
Proof. unfold slice_1_m1. rewrite length_take. lia. Qed.

(** The second part of the first line [name: "<model>"], and of what is
    left of that line when it breaks off after [pre]. *)
Lemma name_in_file_second_part (pre tail : list N) :
  58%N ∉ pre → 58%N ∉ tail →
  name_in_file (chars "name: " ++ [34%N] ++ pre ++ tail)
    = Ok (slice_1_m1 (strip ([32%N] ++ [34%N] ++ pre ++ tail))).
Proof.
  intros Hpre Htail. unfold name_in_file.
  assert (chars "name: " ++ [34%N] ++ pre ++ tail =
          chars "name" ++ 58%N :: ([32%N] ++ [34%N] ++ pre ++ tail)) as -> by done.
  rewrite split_colon_app by compute_done.
  rewrite split_colon_no_colon; [done|].
  simpl. rewrite !not_elem_of_cons, not_elem_of_app. done.
Qed.

(** X13: [check_models_directory] reads the first line of a configuration
    file and takes as the name what stands between the quotes after the
    colon.  For a file that begins with the line [name: "<model>"], the
    model having no colon: when the model has no line end either, the name
    read is the model, so the configuration is accepted for the directory of
    that name and refused, with an exit, for any other directory; when the
    model has a line end, the line read stops inside the name and the
    configuration is refused even for the directory of that name.  A first
    line without a colon, as that of an empty file, raises [IndexError]. *)
Theorem name_in_file_reads_quoted_name (model rest : list N) :
  58%N ∉ model →
  (10%N ∉ model → 13%N ∉ model →
     readline (name_line model ++ rest) = name_line model ∧
     name_in_file (readline (name_line model ++ rest)) = Ok model ∧
     (∀ others,
        check_model_config ((model, name_line model ++ rest) :: others) = Ok model) ∧
     (∀ parent_name others, parent_name ≠ model →
        ∃ msg, check_model_config ((parent_name, name_line model ++ rest) :: others)
               = Raise (SystemExit msg))) ∧
  (10%N ∈ model ∨ 13%N ∈ model →
     ∀ others,
       ∃ msg, check_model_config ((model, name_line model ++ rest) :: others)
              = Raise (SystemExit msg)) ∧
  (∀ parent_name text others, 58%N ∉ readline text →
     check_model_config ((parent_name, text) :: others) = Raise IndexError).
Proof.
  intros Hmodel. split_and!.
  - intros H10 H13.
    assert (readline (name_line model ++ rest) = name_line model) as Hline.
    { unfold name_line.
      assert ((chars "name: " ++ [34%N] ++ model ++ [34%N; 10%N]) ++ rest
              = (chars "name: " ++ [34%N] ++ model ++ [34%N]) ++ 10%N :: rest) as ->
        by (by rewrite <- !app_assoc).
      rewrite readline_app, readline_line_end by
        (by left || (rewrite !not_elem_of_app, !not_elem_of_cons;
                     split_and!; try done; (compute_done || apply not_elem_of_nil))).
      by rewrite <- !app_assoc. }
    assert (name_in_file (name_line model) = Ok model) as Hname.
    { unfold name_line.
      rewrite (name_in_file_second_part model [34%N; 10%N]) by (done || compute_done).
      f_equal.
      change ([32%N] ++ [34%N] ++ model ++ [34%N; 10%N])
        with ([32%N] ++ [34%N] ++ model ++ [34%N] ++ [10%N]).
      rewrite (strip_padded [32%N] [10%N] 34%N 34%N model) by (done || by repeat constructor).
      apply slice_1_m1_quoted. }
    rewrite Hline. split_and!; [done | done | |].
    + intros others. unfold check_model_config. rewrite Hline, Hname. simpl.
      by rewrite decide_False by (by intros ?).
    + intros parent_name others Hne. unfold check_model_config.
      rewrite Hline, Hname. simpl. rewrite decide_True by done. by eexists.
  - intros Hbreak others.
    destruct (first_line_end model Hbreak) as (pre & c & post & -> & Hc & H10 & H13).
    apply not_elem_of_app in Hmodel as [Hpre _].
    assert (readline (name_line (pre ++ c :: post) ++ rest)
            = chars "name: " ++ [34%N] ++ pre ++ [10%N]) as Hline.
    { unfold name_line.
      assert ((chars "name: " ++ [34%N] ++ (pre ++ c :: post) ++ [34%N; 10%N]) ++ rest
              = (chars "name: " ++ [34%N] ++ pre) ++ c :: (post ++ [34%N; 10%N] ++ rest))
        as -> by (by rewrite <- !app_assoc).
      rewrite readline_app, readline_line_end by
        (done || (rewrite !not_elem_of_app, !not_elem_of_cons;
                  split_and!; try done; (compute_done || apply not_elem_of_nil))).
      by rewrite <- !app_assoc. }
    unfold check_model_config. rewrite Hline.
    rewrite (name_in_file_second_part pre [10%N]) by (done || compute_done). simpl.
    rewrite decide_True; [by eexists|].
    intros Heq. apply (f_equal length) in Heq.
    pose proof (slice_1_m1_length (strip (32%N :: 34%N :: pre ++ [10%N]))) as Hslice.
    assert (length (strip (32%N :: 34%N :: pre ++ [10%N])) ≤ length pre + 1)%nat as Hstrip.
    { unfold strip. rewrite length_reverse. simpl.
      rewrite reverse_cons, reverse_app, reverse_singleton. simpl.
      pose proof (lstrip_length (reverse pre ++ [34%N])) as Hl.
      rewrite length_app, length_reverse in Hl. simpl in Hl. lia. }
    rewrite length_app in Heq. simpl in Heq. lia.
  - intros parent_name text others Hline. unfold check_model_config, name_in_file.
    by rewrite split_colon_no_colon.
Qed.

Lemma name_in_file_reads_quoted_name_witness :
  check_model_config
    [(chars "segmentation_liver_v1",
      name_line (chars "segmentation_liver_v1") ++ chars "platform: x")]
    = Ok (chars "segmentation_liver_v1") ∧
  ∃ msg, check_model_config
           [([97; 13; 98]%N, name_line [97; 13; 98]%N ++ chars "platform: x")]
         = Raise (SystemExit msg).
Proof.
  pose proof (name_in_file_reads_quoted_name (chars "segmentation_liver_v1")
                (chars "platform: x") ltac:(compute_done)) as (Hgood & _ & _).
  pose proof (name_in_file_reads_quoted_name [97; 13; 98]%N
                (chars "platform: x") ltac:(compute_done)) as (_ & Hbad & _).
  split.
  - apply Hgood; compute_done.
  - apply Hbad. right. compute_done.
Defined.

(** X14: when the [docker inspect] subprocess returns code 0 and prints the
    address between two quote characters and a line end, in ASCII,
    [inspect_ip_address] returns the address, whatever it is; a return
    code other than 0 is a fatal exit, and output that is not UTF-8
    raises [UnicodeDecodeError]. *)
Theorem inspect_ip_address_unquotes (address : list N) :
  Forall (λ b, (b < 128)%N) address →
  subproc_run_wrapper 0 (quoted_line address) = Ok ([39%N] ++ address ++ [39%N]) ∧
  inspect_ip_address 0 (quoted_line address) = Ok address ∧
  (∀ returncode stdout, returncode ≠ 0 →
     ∃ msg, inspect_ip_address returncode stdout = Raise (SystemExit msg)) ∧
  (∀ stdout, utf8_decode stdout = None →
     inspect_ip_address 0 stdout = Raise UnicodeDecodeError).
Proof.
  intros Hascii.
  assert (subproc_run_wrapper 0 (quoted_line address) = Ok ([39%N] ++ address ++ [39%N]))
    as Hout.
  { unfold subproc_run_wrapper, quoted_line. rewrite decide_True by done.
    rewrite utf8_decode_ascii.
    - f_equal.
      change ([39%N] ++ address ++ [39%N; 10%N])
        with ([] ++ [39%N] ++ address ++ [39%N] ++ [10%N]).
      by apply strip_padded; try done; repeat constructor.
    - apply Forall_app. split; [by repeat constructor|].
      apply Forall_app. split; [done | by repeat constructor]. }
  split_and!; [done| | |].
  - unfold inspect_ip_address. rewrite Hout. simpl. f_equal.
    apply (slice_1_m1_quoted 39%N 39%N address).
  - intros returncode stdout Hrc. unfold inspect_ip_address, subproc_run_wrapper.
    rewrite decide_False by done. by eexists.
  - intros stdout Hdec. unfold inspect_ip_address, subproc_run_wrapper.
    rewrite decide_True by done. by rewrite Hdec.
Qed.

Lemma inspect_ip_address_unquotes_witness :
  inspect_ip_address 0 (quoted_line (chars "125.12.199.0")) = Ok (chars "125.12.199.0").
Proof.
  apply (proj1 (proj2 (inspect_ip_address_unquotes (chars "125.12.199.0")
                         ltac:(compute_done)))).
Defined.

(** ** Starting and stopping Triton *)

Section triton_facts.
Context {W : Type} (env : environment W).
Implicit Types (p : process (W:=W)) (s : running_services (W:=W)).

Lemma start_triton_commands models_dir command image_tag names p p' r :
  start_triton env models_dir (Some command) image_tag names p = (p', r) →
  ∃ inspected,
    commands p' = commands p ++
      docker_run_triton models_dir command image_tag names :: inspected ∧
    ∀ cmd, cmd ∈ inspected → ∃ container_name, cmd = docker_inspect container_name.
Proof.
  unfold start_triton, mbind, call_bind, mret, call_ret, subproc_run_wrapper_call,
    inspect_ip_address_call, in_world.
  fold (docker_run_triton models_dir command image_tag names).
  destruct (run_command env _ (world p)) as [w1 [cid|e]].
  2:{ intros [= <- <-]. exists []. split; [done|]. by intros ? ?%elem_of_nil. }
  simpl. destruct (inspect_ip_address_of env cid w1) as [w2 [ip|e]].
  2:{ intros [= <- <-]. exists [docker_inspect cid]. simpl. rewrite <- app_assoc.
      split; [done|]. intros ? ->%list_elem_of_singleton. by eexists. }
  simpl.
  destruct (check_triton_status env names ip w2) as [w3 [[]|e]]; intros [= <- <-];
    exists [docker_inspect cid]; simpl; rewrite <- app_assoc; (split; [done|]);
    intros ? ->%list_elem_of_singleton; by eexists.
Qed.

Lemma kill_containers_commands items p p' r :
  kill_containers env items p = (p', r) →
  commands p `prefix_of` commands p' ∧
  (r = Done () →
     ∀ key info, (key, info) ∈ items → ["docker"; "kill"; info.1] ∈ commands p').
Proof.
  revert p. induction items as [|[old_key container_info] items IH]; intros p; simpl.
  - intros [= <- <-]. split; [done|]. by intros _ key info ?%elem_of_nil.
  - unfold mbind, call_bind, subproc_run_wrapper_call.
    destruct (run_command env _ (world p)) as [w1 [out|e]].
    + intros Hrest. destruct (IH _ Hrest) as [Hpre Hall]. simpl in Hpre. split.
      * etrans; [|done]. by apply prefix_app_r.
      * intros Hr key info [[= -> ->]|Hin]%elem_of_cons; [|by eapply Hall].
        eapply elem_of_prefix; [|done]. apply elem_of_app. right. left.
    + intros [= <- <-]. simpl. split; [by apply prefix_app_r | done].
Qed.

Lemma clean_up_containers_spec s s' r :
  clean_up_containers env s = (s', r) →
  commands (proc s) `prefix_of` commands (proc s') ∧
  ((r = Done () ∧ running_dict s' = [] ∧
    ∀ key info, (key, info) ∈ running_dict s →
      ["docker"; "kill"; info.1] ∈ commands (proc s')) ∨
   ((∃ e, r = Fails e) ∧ running_dict s' = running_dict s)).
Proof.
  unfold clean_up_containers.
  destruct (kill_containers env (running_dict s) (proc s)) as [p' [[]|e]] eqn:Hkill;
    intros [= <- <-]; simpl;
    destruct (kill_containers_commands _ _ _ _ Hkill) as [Hpre Hall].
  - split; [done|]. left. split_and!; [done..|]. intros key info. by apply Hall.
  - split; [done|]. right. split; [by eexists | done].
Qed.

Lemma update_variables_keeps (op : OperatorConfig) (var_dict : gmap string string) k v :
  variable_of op k = Some v → variable_of (update_variables op var_dict) k = Some v.
Proof.
  unfold variable_of, update_variables. simpl.
  destruct (variables op) as [own|]; [|done]. simpl. intros Hk.
  destruct (decide (own = ∅)) as [->|Hne]; [by rewrite lookup_empty in Hk|].
  by rewrite lookup_union_l'.
Qed.

Lemma start_pipeline_service_spec models_dir service op s s' op' r :
  start_pipeline_service env models_dir service op s = (s', op', r) →
  (length (running_dict s') ≤ Nat.max 1 (length (running_dict s)))%nat ∧
  commands (proc s) `prefix_of` commands (proc s') ∧
  (∀ key info, (key, info) ∈ running_dict s →
     (key, info) ∈ running_dict s' ∨ ["docker"; "kill"; info.1] ∈ commands (proc s')) ∧
  (∀ k v, variable_of op k = Some v → variable_of op' k = Some v).
Proof.
  unfold start_pipeline_service.
  destruct (service_command service) as [command|] eqn:Hcmd;
    [|intros [= <- <- <-]; split_and!; [lia | done | by left | done]].
  set (key := service_image_n_tag service +:+ " " +:+ String.concat " " command).
  destruct (od_get (running_dict s) key) as [info|] eqn:Hget.
  { intros [= <- <- <-]. split_and!; [lia | done | by left |].
    intros k v. apply update_variables_keeps. }
  assert (∃ s1 r1,
    (if decide (length (running_dict s) ≠ 0%nat) then clean_up_containers env s
     else (s, Done ())) = (s1, r1) ∧
    commands (proc s) `prefix_of` commands (proc s1) ∧
    ((r1 = Done () ∧ running_dict s1 = [] ∧
      ∀ key info, (key, info) ∈ running_dict s →
        ["docker"; "kill"; info.1] ∈ commands (proc s1)) ∨
     ((∃ e, r1 = Fails e) ∧ running_dict s1 = running_dict s)))
    as (s1 & r1 & -> & Hpre1 & Hcases).
  { case_decide as Hlen.
    - destruct (clean_up_containers env s) as [s1 r1] eqn:Hclean.
      exists s1, r1. split; [done|]. by apply clean_up_containers_spec.
    - exists s, (Done ()). split_and!; [done..|]. left. split_and!; [done| |].
      + by destruct (running_dict s).
      + destruct (running_dict s); [by intros ?? ?%elem_of_nil | done]. }
  destruct Hcases as [(-> & Hempty & Hkilled)|([e ->] & Hsame)].
  2:{ intros [= <- <- <-]. rewrite Hsame. split_and!; [lia | done | by left | done]. }
  destruct (str_in "trtis" (service_name service) || str_in "triton" (service_name service)).
  2:{ intros [= <- <- <-]. rewrite Hempty. simpl.
      split_and!; [lia | done | | done]. intros k i Hin. right. by apply (Hkilled k). }
  destruct (start_triton env models_dir (Some command) (service_image_n_tag service) []
              (proc s1)) as [p2 [[cid ip]|e]] eqn:Hstart;
    destruct (start_triton_commands _ _ _ _ _ _ _ Hstart) as (inspected & Hcmds & _);
    intros [= <- <- <-]; simpl; rewrite ?Hempty; simpl.
  - split_and!; [lia | | |].
    + etrans; [done|]. rewrite Hcmds. by apply prefix_app_r.
    + intros k i Hin. right. rewrite Hcmds. apply elem_of_app. left. by apply (Hkilled k).
    + intros k v. apply update_variables_keeps.
  - split_and!; [lia | | | done].
    + etrans; [done|]. rewrite Hcmds. by apply prefix_app_r.
    + intros k i Hin. right. rewrite Hcmds. apply elem_of_app. left. by apply (Hkilled k).
Qed.

Lemma start_services_spec models_dir services_ op s s' op' r :
  start_services env models_dir services_ op s = (s', op', r) →
  (length (running_dict s') ≤ Nat.max 1 (length (running_dict s)))%nat ∧
  commands (proc s) `prefix_of` commands (proc s') ∧
  (∀ key info, (key, info) ∈ running_dict s →
     (key, info) ∈ running_dict s' ∨ ["docker"; "kill"; info.1] ∈ commands (proc s')) ∧
  (∀ k v, variable_of op k = Some v → variable_of op' k = Some v).
Proof.
  revert op s. induction services_ as [|service services' IH]; intros op s; simpl.
  - intros [= <- <- <-]. split_and!; [lia | done | by left | done].
  - destruct (start_pipeline_service env models_dir service op s) as [[s1 op1] r1] eqn:Hstep.
    destruct (start_pipeline_service_spec _ _ _ _ _ _ _ Hstep) as (H1 & H2 & H3 & H4).
    destruct r1 as [[]|e]; [|by intros [= <- <- <-]].
    intros Hrest. destruct (IH _ _ Hrest) as (I1 & I2 & I3 & I4).
    split_and!; [lia | by etrans | | by auto].
    intros key info Hin. destruct (H3 _ _ Hin) as [Hin1|Hkill].
    + by apply I3.
    + right. by eapply elem_of_prefix.
Qed.

End triton_facts.

(** X12: in [with run_triton_model_repo(...)], when the check of the models
    directory fails, or [start_triton] fails, be it after its [docker run]
    has started the container, the statement raises [UnboundLocalError]
    from its [finally] clause in place of the failure, the body is not run,
    and no [docker kill] is run: the commands run are those before, and the
    [docker run] if [start_triton] was reached.  When both succeed, the
    body runs with the address, then [docker kill] runs once on the
    container, whether the body failed or not, and the statement ends as the
    body did unless the [docker kill] fails. *)
Theorem run_triton_model_repo_finally {W A : Type} (env : environment W)
    (execution_order : list OperatorConfig) (models_dir : option string)
    (body : string → call A) (p : process) :
  (∀ w e,
     check_models_directory env execution_order models_dir (world p) = (w, Fails e) →
     run_triton_model_repo env execution_order models_dir body p
       = (mkProcess w (commands p), Fails (UnboundLocalError "triton_container_id"))) ∧
  (∀ w names p1,
     check_models_directory env execution_order models_dir (world p) = (w, Done names) →
     (∀ e,
        start_triton env models_dir (Some model_repo_command) TRITON_IMAGE_TAG names
          (mkProcess w (commands p)) = (p1, Fails e) →
        run_triton_model_repo env execution_order models_dir body p
          = (p1, Fails (UnboundLocalError "triton_container_id")) ∧
        docker_run_triton models_dir model_repo_command TRITON_IMAGE_TAG names
          ∈ commands p1 ∧
        (∀ container_id, ["docker"; "kill"; container_id] ∈ commands p1 →
                         ["docker"; "kill"; container_id] ∈ commands p)) ∧
     (∀ triton_container_id ip_address p2 r w3 rk,
        start_triton env models_dir (Some model_repo_command) TRITON_IMAGE_TAG names
          (mkProcess w (commands p)) = (p1, Done (triton_container_id, ip_address)) →
        body ip_address p1 = (p2, r) →
        run_command env ["docker"; "kill"; triton_container_id] (world p2) = (w3, rk) →
        run_triton_model_repo env execution_order models_dir body p
          = (mkProcess w3 (commands p2 ++ [["docker"; "kill"; triton_container_id]]),
             match rk with Done _ => r | Fails e => Fails e end))).
Proof.
  split.
  - intros w e Hcheck. unfold run_triton_model_repo. by rewrite Hcheck.
  - intros w names p1 Hcheck. split.
    + intros e Hstart. unfold run_triton_model_repo. rewrite Hcheck.
      fold model_repo_command. rewrite Hstart. split; [done|].
      destruct (start_triton_commands _ _ _ _ _ _ _ _ Hstart) as (inspected & Hcmds & Hins).
      simpl in Hcmds. rewrite Hcmds. split.
      * apply elem_of_app. right. left.
      * intros cid [Hin|[Hrun|Hin]%elem_of_cons]%elem_of_app; [done|done|].
        by destruct (Hins _ Hin) as [? ?].
    + intros cid ip p2 r w3 rk Hstart Hbody Hkill. unfold run_triton_model_repo.
      rewrite Hcheck. fold model_repo_command. rewrite Hstart, Hbody.
      unfold subproc_run_wrapper_call. rewrite Hkill. by destruct rk.
Qed.

Lemma run_triton_model_repo_finally_witness :
  run_triton_model_repo (A:=unit) stuck_environment [] (Some "/models") (λ _ p, (p, Done ()))
    (mkProcess () [])
  = (mkProcess ()
       [docker_run_triton (Some "/models") model_repo_command TRITON_IMAGE_TAG ["liver"];
        docker_inspect "abc123"],
     Fails (UnboundLocalError "triton_container_id")) ∧
  run_triton_model_repo (A:=unit) calm_environment [] (Some "/models") (λ _ p, (p, Fails TypeError))
    (mkProcess () [])
  = (mkProcess ()
       [docker_run_triton (Some "/models") model_repo_command TRITON_IMAGE_TAG ["liver"];
        docker_inspect "abc123"; ["docker"; "kill"; "abc123"]],
     Fails TypeError).
Proof.
  split.
  - destruct (proj2 (run_triton_model_repo_finally (A:=unit) stuck_environment [] (Some "/models")
                       (λ _ p, (p, Done ())) (mkProcess () []))
                () ["liver"]
                (mkProcess ()
                   [docker_run_triton (Some "/models") model_repo_command
                      TRITON_IMAGE_TAG ["liver"]; docker_inspect "abc123"]) eq_refl)
      as [Hfail _].
    by destruct (Hfail TimeoutError eq_refl) as [-> _].
  - destruct (proj2 (run_triton_model_repo_finally (A:=unit) calm_environment [] (Some "/models")
                       (λ _ p, (p, Fails TypeError)) (mkProcess () []))
                () ["liver"]
                (mkProcess ()
                   [docker_run_triton (Some "/models") model_repo_command
                      TRITON_IMAGE_TAG ["liver"]; docker_inspect "abc123"]) eq_refl)
      as [_ Hok].
    by rewrite (Hok "abc123" "172.17.0.2" _ (Fails TypeError) () (Done "abc123")
                  eq_refl eq_refl eq_refl).
Defined.

(** X16: whatever the outside world does and however it ends,
    [start_pipeline_services] leaves at most one service in the dictionary
    of running services if there was at most one before; it only adds to
    the commands run; every container that was in the dictionary before is
    either still in it or has had [docker kill] run on it; and every
    variable the operator had keeps its value, the addresses of the
    services being added only under names the operator did not have. *)
Theorem start_pipeline_services_tracks {W : Type} (env : environment W)
    (models_dir : option string) (op_config op_config' : OperatorConfig)
    (s s' : running_services) (r : outcome unit) :
  start_pipeline_services env models_dir op_config s = (s', op_config', r) →
  (length (running_dict s') ≤ Nat.max 1 (length (running_dict s)))%nat ∧
  commands (proc s) `prefix_of` commands (proc s') ∧
  (∀ key info, (key, info) ∈ running_dict s →
     (key, info) ∈ running_dict s' ∨ ["docker"; "kill"; info.1] ∈ commands (proc s')) ∧
  (∀ k v, variable_of op_config k = Some v → variable_of op_config' k = Some v).
Proof.
  unfold start_pipeline_services. destruct (services op_config) as [services_|].
  - apply start_services_spec.
  - intros [= <- <- <-]. split_and!; [lia | done | by left | done].
Qed.

Lemma start_pipeline_services_tracks_witness :
  ∃ s' op',
    start_pipeline_services calm_environment (Some "/models")
      (mkOperatorConfig "op" "tag" None (Some {["URI" := "mine"]}) [] None None
         (Some [trtis_service; other_service]))
      (mkServices (mkProcess () []) []) = (s', op', Done ()) ∧
    running_dict s' = [("trtis:2 trtserver", ("abc123", "172.17.0.2"))] ∧
    ["docker"; "kill"; "abc123"] ∈ commands (proc s') ∧
    variable_of op' "URI" = Some "mine".
Proof.
  destruct (start_pipeline_services calm_environment (Some "/models")
              (mkOperatorConfig "op" "tag" None (Some {["URI" := "mine"]}) [] None None
                 (Some [trtis_service; other_service]))
              (mkServices (mkProcess () []) [])) as [[s' op'] r] eqn:Hrun.
  destruct (start_pipeline_services_tracks _ _ _ _ _ _ _ Hrun) as (_ & _ & _ & Hvars).
  exists s', op'. specialize (Hvars "URI" "mine" eq_refl).
  vm_compute in Hrun. injection Hrun as <- <- <-.
  split_and!; [done | done | compute_done | exact Hvars].
Defined.

(** ** Running the operators *)




Lemma od_get_setitem {K V} `{EqDecision K} (d : list (K * V)) k v k' :
  od_get (od_setitem d k v) k' = if decide (k = k') then Some v else od_get d k'.
Proof.
  unfold od_setitem. destruct (od_get d k) as [v0|] eqn:Hk.
  - rewrite od_get_replace, Hk. by case_decide.
  - rewrite od_get_app. simpl. case_decide; [subst; by rewrite Hk|].
    by destruct (od_get d k').
Qed.

Lemma od_get_pop {K V} `{EqDecision K} (d : list (K * V)) k k' :
  od_get (od_pop d k) k' = if decide (k = k') then None else od_get d k'.
Proof.
  unfold od_pop. induction d as [|[k0 v0] d IH]; simpl; [by case_decide|].
  rewrite filter_cons. simpl.
  destruct (decide (k0 ≠ k)) as [Hne|Heq%dec_stable]; simpl.
  - rewrite IH. repeat case_decide; simplify_eq; done.
  - subst k0. rewrite IH. repeat case_decide; simplify_eq; done.
Qed.

Lemma string_length_app (s1 s2 : string) :
  String.length (s1 +:+ s2) = (String.length s1 + String.length s2)%nat.
Proof. induction s1 as [|a s1 IH]; [done|]. simpl. by rewrite IH. Qed.

Lemma non_zero_exitcode_key_ne (op_name : string) : non_zero_exitcode_key op_name ≠ op_name.
Proof.
  unfold non_zero_exitcode_key. intros Heq. apply (f_equal String.length) in Heq.
  rewrite string_length_app in Heq. simpl in Heq. lia.
Qed.

(** What the sampling loop does to the container does not depend on the
    queue. *)
Lemma sampling_loop_any_queue ONLINE_CPUS reads c que que' :
  (sampling_loop ONLINE_CPUS reads c que).1.1 = (sampling_loop ONLINE_CPUS reads c que').1.1 ∧
  (sampling_loop ONLINE_CPUS reads c que).2 = (sampling_loop ONLINE_CPUS reads c que').2.
Proof.
  revert c que que'. induction reads as [|read reads IH]; intros c que que'; simpl.
  - by destruct (metric_paths c).
  - destruct (metric_paths c); [|done].
    destruct (sample_metrics ONLINE_CPUS read c) as [c1 [metric|e]]; [apply IH | done].
Qed.

Lemma sample_operator_any_queue ONLINE_CPUS reads c que :
  (sample_operator ONLINE_CPUS reads c que).1.1 =
    (sample_operator ONLINE_CPUS reads c (Some [])).1.1 ∧
  (sample_operator ONLINE_CPUS reads c que).2 =
    (sample_operator ONLINE_CPUS reads c (Some [])).2.
Proof.
  unfold sample_operator.
  destruct (sampling_loop_any_queue ONLINE_CPUS reads c que (Some [])) as [H1 H2].
  destruct (sampling_loop ONLINE_CPUS reads c que) as [[c1 q1] r1].
  destruct (sampling_loop ONLINE_CPUS reads c (Some [])) as [[c2 q2] r2].
  simpl in *. subst. by destruct r2.
Qed.

(** [sample_operator] on a container with its paths: it raises exactly when
    a read is fatal, and otherwise leaves the container of the calls. *)
Lemma sample_operator_container ONLINE_CPUS reads c que :
  metric_paths c ≠ None →
  (Forall (λ read, ¬ fatal_read read) reads →
     (sample_operator ONLINE_CPUS reads c que).1.1 = sample_many ONLINE_CPUS reads c ∧
     (sample_operator ONLINE_CPUS reads c que).2 = Ok ()) ∧
  (Exists fatal_read reads → ∃ e, (sample_operator ONLINE_CPUS reads c que).2 = Raise e).
Proof.
  intros Hp. destruct (sample_operator_any_queue ONLINE_CPUS reads c que) as [-> ->].
  unfold sample_operator.
  destruct (sampling_loop_run ONLINE_CPUS reads c [] Hp)
    as (c' & items & r & -> & _ & _ & Hok & Hbad).
  split.
  - intros Hall. by destruct (Hok Hall) as (-> & -> & _).
  - intros Hex. destruct (Hbad Hex) as [e ->]. by exists e.
Qed.

Lemma sample_metrics_fatal ONLINE_CPUS e c :
  metric_paths c ≠ None → fatal_read (ReadRaises e) →
  sample_metrics ONLINE_CPUS (ReadRaises e) c = (c, Raise e).
Proof.
  intros Hp Hf. unfold sample_metrics. destruct (metric_paths c); [|done].
  destruct e; try done. simpl in Hf. by rewrite decide_False.
Qed.

(** The sampling loop raises what the first fatal read raises. *)
Lemma sampling_loop_first_fatal ONLINE_CPUS reads c que e :
  metric_paths c ≠ None → first_fatal reads = Some e →
  (sampling_loop ONLINE_CPUS reads c que).2 = Raise e.
Proof.
  revert c que. induction reads as [|read reads IH]; intros c que Hp Hff; [done|].
  assert (∀ c1 metric, sample_metrics ONLINE_CPUS read c = (c1, Ok metric) →
            metric_paths c1 ≠ None) as Hkeep.
  { intros c1 metric Hcall.
    destruct (sample_metrics_returns _ _ _ _ _ Hcall) as (_ & -> & _). done. }
  assert (¬ fatal_read read → ∀ c1 e1,
            sample_metrics ONLINE_CPUS read c ≠ (c1, Raise e1)) as Hnone.
  { intros Hf c1 e1 Hcall. apply Hf, (sample_metrics_raises ONLINE_CPUS read c Hp).
    exists e1. by rewrite Hcall. }
  cbn [sampling_loop]. destruct (metric_paths c) as [p|] eqn:Hpc; [|done].
  destruct read as [raw|e0]; cbn [first_fatal] in Hff.
  - destruct (sample_metrics ONLINE_CPUS (ReadOk raw) c) as [c1 [metric|e1]] eqn:Hcall.
    + apply IH; [by eapply Hkeep | done].
    + by destruct (Hnone (λ H, H) c1 e1).
  - destruct (decide (fatal_read (ReadRaises e0))) as [Hf|Hf].
    + injection Hff as ->. rewrite sample_metrics_fatal; [done | by rewrite Hpc | done].
    + destruct (sample_metrics ONLINE_CPUS (ReadRaises e0) c) as [c1 [metric|e1]] eqn:Hcall.
      * apply IH; [by eapply Hkeep | done].
      * by destruct (Hnone Hf c1 e1).
Qed.

(** X18: what [run_operator] does with the summaries.  When the container
    id arrives empty it raises [RuntimeError].  When a non-empty id arrives
    and some read of the sampling raises an error that [sample_metrics]
    does not catch, it raises the first such error; when no read does and
    fewer than two reads succeed, it raises [ZeroDivisionError].  In these
    cases the dictionary is as it was.  When it returns, having had an id,
    the dictionary holds the summary of the container's metrics under the
    operator's name if the exit code was 0, and under the name followed by a
    line break and [(Non-zero exitcode)], and no longer under the name, if it
    was not; without an id in time and with nothing stored under the name
    before, the dictionary is left as it was. *)
Theorem run_operator_summary (ONLINE_CPUS : Z)
    (metric_paths_of : list N → string * string * string)
    (op_config : OperatorConfig) (seen : operator_run)
    (write_que : option (list queue_item)) (continue_option : ContinueOptions)
    (d : list (string * Summary)) :
  (id_returned seen = Some [] →
     run_operator ONLINE_CPUS metric_paths_of op_config seen write_que continue_option d
       = (d, Raise (RuntimeError "Container ID is not set when creating paths"))) ∧
  (∀ value, id_returned seen = Some value → value ≠ [] →
     Forall (λ read, ¬ fatal_read read) (sampling_reads seen) →
     (length (read_samples (sampling_reads seen)) < 2)%nat →
     run_operator ONLINE_CPUS metric_paths_of op_config seen write_que continue_option d
       = (d, Raise ZeroDivisionError)) ∧
  (∀ value e, id_returned seen = Some value → value ≠ [] →
     first_fatal (sampling_reads seen) = Some e →
     run_operator ONLINE_CPUS metric_paths_of op_config seen write_que continue_option d
       = (d, Raise e)) ∧
  (∀ value d' b, id_returned seen = Some value →
     run_operator ONLINE_CPUS metric_paths_of op_config seen write_que continue_option d
       = (d', Ok b) →
     ∃ operator_summary,
       print_operator_summary
         (metrics (sample_many ONLINE_CPUS (sampling_reads seen)
                     (mkContainer value (Some (metric_paths_of value)) [] [])))
         = Ok operator_summary ∧
       if decide (exitcode seen = 0)
       then od_get d' (name op_config) = Some operator_summary
       else od_get d' (non_zero_exitcode_key (name op_config)) = Some operator_summary ∧
            od_get d' (name op_config) = None) ∧
  (∀ d' b, id_returned seen = None → od_get d (name op_config) = None →
     run_operator ONLINE_CPUS metric_paths_of op_config seen write_que continue_option d
       = (d', Ok b) →
     d' = d).
Proof.
  split_and!.
  - intros Hid. unfold run_operator. by rewrite Hid.
  - intros value Hid Hvalue Hreads Hlen. unfold run_operator. rewrite Hid.
    unfold construct_metrics_path. simpl. destruct value as [|c value]; [done|]. simpl.
    destruct (sample_operator_container ONLINE_CPUS (sampling_reads seen)
                (mkContainer (c :: value) (Some (metric_paths_of (c :: value))) [] [])
                write_que) as [Hok _]; [done|].
    destruct (Hok Hreads) as [Hc Hr].
    destruct (sample_operator _ _ _ _) as [[c' q'] r']. simpl in Hc, Hr. subst.
    by rewrite (sample_many_few_samples ONLINE_CPUS (c :: value)
                  (Some (metric_paths_of (c :: value))) (sampling_reads seen) Hlen).
  - intros value e Hid Hvalue Hfatal. unfold run_operator. rewrite Hid.
    unfold construct_metrics_path. simpl. destruct value as [|c value]; [done|]. simpl.
    pose proof (sampling_loop_first_fatal ONLINE_CPUS (sampling_reads seen)
                  (mkContainer (c :: value) (Some (metric_paths_of (c :: value))) [] [])
                  write_que e ltac:(done) Hfatal) as Hloop.
    unfold sample_operator.
    destruct (sampling_loop _ _ _ _) as [[c' q'] r']. simpl in Hloop. by subst.
  - intros value d' b Hid. unfold run_operator. rewrite Hid.
    unfold construct_metrics_path. simpl. destruct value as [|c value]; [done|]. simpl.
    set (c0 := mkContainer (c :: value) (Some (metric_paths_of (c :: value))) [] []).
    destruct (sample_operator_container ONLINE_CPUS (sampling_reads seen) c0 write_que)
      as [Hok Hbad]; [done|].
    destruct (decide (Forall (λ read, ¬ fatal_read read) (sampling_reads seen)))
      as [Hall|Hex].
    2:{ apply not_Forall_Exists in Hex; [|apply _].
        destruct (Hbad) as [e He].
        { eapply Exists_impl; [done|]. intros read Hr. simpl in Hr.
          by apply dec_stable. }
        destruct (sample_operator _ _ _ _) as [[c' q'] r']. simpl in He. by subst. }
    destruct (Hok Hall) as [Hc Hr].
    destruct (sample_operator _ _ _ _) as [[c' q'] r']. simpl in Hc, Hr. subst.
    destruct (print_operator_summary _) as [operator_summary|e]; [|done]. simpl.
    intros Hrun. exists operator_summary. split; [done|].
    destruct (decide (exitcode seen ≠ 0)) as [Hcode|Hcode].
    + rewrite decide_False by done.
      rewrite od_get_setitem, decide_True in Hrun by done.
      assert (d' = od_setitem (od_pop (od_setitem d (name op_config) operator_summary)
                                 (name op_config))
                     (non_zero_exitcode_key (name op_config)) operator_summary) as ->
        by (destruct continue_option; congruence).
      rewrite !od_get_setitem.
      rewrite (decide_True (P:=non_zero_exitcode_key _ = _)) by done.
      rewrite decide_False by apply non_zero_exitcode_key_ne.
      split; [done|]. by rewrite od_get_pop, decide_True.
    + apply dec_stable in Hcode. rewrite decide_True by done.
      injection Hrun as <- _. by rewrite od_get_setitem, decide_True.
  - intros d' b Hid Hnone. unfold run_operator. rewrite Hid, Hnone.
    destruct (decide (exitcode seen ≠ 0)); [|by intros [= <- _]].
    destruct continue_option; by intros [= <- _].
Qed.

Lemma run_operator_summary_witness :
  run_operator 4 (λ _, ("cpu", "percpu", "mem")) (root_op "A")
    (mkOperatorRun (Ok ["docker"; "run"]) (Some docker_id_line) [ReadOk raw_first] 0 true)
    None NONE [] = ([], Raise ZeroDivisionError) ∧
  run_operator 4 (λ _, ("cpu", "percpu", "mem")) (root_op "A")
    (mkOperatorRun (Ok ["docker"; "run"]) (Some docker_id_line)
       [ReadOk raw_first; ReadRaises (OSError 13)] 0 true)
    None NONE [] = ([], Raise (OSError 13)).
Proof.
  split.
  - apply (proj1 (proj2 (run_operator_summary 4 (λ _, ("cpu", "percpu", "mem")) (root_op "A")
             (mkOperatorRun (Ok ["docker"; "run"]) (Some docker_id_line) [ReadOk raw_first] 0 true)
             None NONE [])) docker_id_line eq_refl).
    + done.
    + repeat constructor. simpl. tauto.
    + simpl. lia.
  - apply (proj1 (proj2 (proj2 (run_operator_summary 4 (λ _, ("cpu", "percpu", "mem"))
             (root_op "A")
             (mkOperatorRun (Ok ["docker"; "run"]) (Some docker_id_line)
                [ReadOk raw_first; ReadRaises (OSError 13)] 0 true)
             None NONE []))) docker_id_line (OSError 13) eq_refl).
    + done.
    + by vm_compute.
Defined.

(** ** The models of a pipeline, and its variables *)

Lemma elem_of_declared_models (op_configs : list OperatorConfig) (model : string) :
  model ∈ declared_models op_configs ↔
  ∃ op ms, op ∈ op_configs ∧ models op = Some ms ∧ model ∈ ms.
Proof.
  unfold declared_models. rewrite list_elem_of_bind. split.
  - intros (op & Hm & Hop). exists op.
    destruct (models op) as [[|m ms]|] eqn:Hmodels; simpl in Hm;
      [by apply elem_of_nil in Hm | | by apply elem_of_nil in Hm].
    by exists (m :: ms).
  - intros (op & ms & Hop & Hmodels & Hm). exists op. split; [|done].
    rewrite Hmodels. destruct ms as [|m ms]; [by apply elem_of_nil in Hm | done].
Qed.

(** X19: [_extract_models_from_configs] lists every model that some
    operator declares, each once and no other; the list is empty exactly
    when no operator declares models, so it is not empty whenever
    [decide_method_to_run_triton] chooses the model repository. *)
Theorem extract_models_from_configs_models (op_configs : list OperatorConfig) :
  NoDup (_extract_models_from_configs op_configs) ∧
  (∀ model, model ∈ _extract_models_from_configs op_configs ↔
     ∃ op ms, op ∈ op_configs ∧ models op = Some ms ∧ model ∈ ms) ∧
  (_extract_models_from_configs op_configs = [] ↔ ¬ declares_models op_configs) ∧
  (decide_method_to_run_triton op_configs = Ok MODEL_REPO →
     _extract_models_from_configs op_configs ≠ []).
Proof.
  assert (∀ model, model ∈ _extract_models_from_configs op_configs ↔
            ∃ op ms, op ∈ op_configs ∧ models op = Some ms ∧ model ∈ ms) as Hmem.
  { intros model. unfold _extract_models_from_configs.
    rewrite elem_of_elements, elem_of_list_to_set. apply elem_of_declared_models. }
  assert (_extract_models_from_configs op_configs = [] ↔ ¬ declares_models op_configs)
    as Hempty.
  { unfold declares_models. rewrite Exists_exists. split.
    - intros Hnil (op & Hop & Htruthy).
      destruct (models op) as [[|m ms]|] eqn:Hmodels; try done.
      assert (m ∈ _extract_models_from_configs op_configs) as Hin.
      { apply Hmem. exists op, (m :: ms). split_and!; [done | done | left]. }
      rewrite Hnil in Hin. by apply elem_of_nil in Hin.
    - intros Hnone.
      destruct (_extract_models_from_configs op_configs) as [|m l] eqn:Hl; [done|].
      exfalso. apply Hnone.
      destruct (proj1 (Hmem m)) as (op & ms & Hop & Hmodels & Hm); [left|].
      exists op. split; [done|]. rewrite Hmodels.
      destruct ms; [by apply elem_of_nil in Hm | done]. }
  split_and!; [unfold _extract_models_from_configs; apply NoDup_elements | done | done |].
  intros Hmode Hnil. apply Hempty in Hnil.
  unfold decide_method_to_run_triton in Hmode. rewrite decide_method_flags in Hmode.
  simpl in Hmode. rewrite (bool_decide_eq_false_2 _ Hnil) in Hmode.
  by destruct (bool_decide (declares_services op_configs)).
Qed.

Lemma extract_models_from_configs_models_witness :
  decide_method_to_run_triton
    [mkOperatorConfig "seg" "seg:1" None None [] None (Some ["liver"]) None] = Ok MODEL_REPO ∧
  _extract_models_from_configs
    [mkOperatorConfig "seg" "seg:1" None None [] None (Some ["liver"]) None] ≠ [].
Proof.
  split; [by vm_compute|].
  apply (proj2 (proj2 (proj2 (extract_models_from_configs_models
           [mkOperatorConfig "seg" "seg:1" None None [] None (Some ["liver"]) None])))).
  by vm_compute.
Defined.

Lemma update_variables_union (op : OperatorConfig) (var_dict : gmap string string) :
  variables (update_variables op var_dict) = Some (default ∅ (variables op) ∪ var_dict).
Proof.
  unfold update_variables. simpl. f_equal.
  destruct (variables op) as [own|]; simpl; [|by rewrite (left_id_L ∅ (∪))].
  case_decide as Hown; [|done]. subst. by rewrite (left_id_L ∅ (∪)).
Qed.

(** X20: [update_variables] always leaves a dictionary, the operator's own
    entries (none if it had no dictionary) completed by the given ones.
    Updates therefore compose, earlier entries winning over later ones,
    and updating a second time with the same dictionary changes nothing. *)
Theorem update_variables_composes (op : OperatorConfig) (d1 d2 : gmap string string) :
  variables (update_variables op d1) = Some (default ∅ (variables op) ∪ d1) ∧
  variables (update_variables (update_variables op d1) d2)
    = Some (default ∅ (variables op) ∪ d1 ∪ d2) ∧
  update_variables (update_variables op d1) d1 = update_variables op d1 ∧
  (∀ k v, d1 !! k = Some v → (∀ own, variables op = Some own → own !! k = None) →
     variables (update_variables (update_variables op d1) d2) ≫= (.!! k) = Some v).
Proof.
  pose proof (update_variables_union op d1) as H1.
  assert (variables (update_variables (update_variables op d1) d2)
            = Some (default ∅ (variables op) ∪ d1 ∪ d2)) as H2.
  { rewrite update_variables_union. by rewrite H1. }
  split_and!; [done | done | |].
  - assert (variables (update_variables (update_variables op d1) d1)
              = variables (update_variables op d1)) as H3.
    { rewrite update_variables_union, H1. simpl.
      by rewrite <- (assoc_L (∪)), (idemp_L (∪) d1). }
    transitivity (mkOperatorConfig (name op) (image_n_tag op) (command op)
                    (variables (update_variables (update_variables op d1) d1))
                    (inputs op) (outputs op) (models op) (services op));
      [reflexivity|].
    rewrite H3. reflexivity.
  - intros k v Hk Hown. rewrite H2. simpl.
    apply lookup_union_Some_l, lookup_union_Some_raw.
    destruct (variables op) as [own|]; simpl.
    + right. split; [by apply Hown | done].
    + right. split; [apply lookup_empty | done].
Qed.

Lemma update_variables_composes_witness :
  variables (update_variables
               (update_variables (mkOperatorConfig "op" "tag" None None [] None None None)
                  {["URI" := "10.0.0.1:8000"]})
               {["URI" := "10.0.0.2:8000"]}) ≫= (.!! "URI") = Some "10.0.0.1:8000".
Proof.
  apply (proj2 (proj2 (proj2 (update_variables_composes
           (mkOperatorConfig "op" "tag" None None [] None None None)
           {["URI" := "10.0.0.1:8000"]} {["URI" := "10.0.0.2:8000"]})))).
  - done.
  - by intros own [=].
Defined.
